(** * AudiGIF: the AGIF container codec, the PCM-to-WAV transcoder and the
    playback scheduler of [script.js], embedded in Rocq.

    The development follows the layout of the source file:
    - [AGIFDecoder.decode]      (script.js, lines 3-98),
    - [AGIFPlayer]              (script.js, lines 101-209),
    - the authoring page        (script.js, lines 211-326),
    - [createAudiGIF]           (script.js, lines 329-413),
    - [audioBufferToWav]        (script.js, lines 416-458).

    Byte buffers ([ArrayBuffer], [Uint8Array]) are lists of octets, JavaScript
    numbers that hold lengths, offsets and indices are integers of [Z], and
    a thrown exception or a rejected promise is the [Err] case of [result].
    Text is kept as the UTF-8 octets that [TextEncoder.encode] yields. *)

From Stdlib Require Import String.
From Stdlib Require Import ZArith Bool Lia QArith.
From Stdlib Require Import Strings.Byte.
From Stdlib Require Import List Sorted.
Import ListNotations.

Open Scope Z_scope.

(** ** Octets and text *)

Definition bytes := list byte.

(** The octet holding [z mod 256]: what a typed-array store keeps of a
    number. *)
Definition byte_of_Z (z : Z) : byte :=
  match Byte.of_N (Z.to_N (z mod 256)) with
  | Some b => b
  | None => x00
  end.

Definition Z_of_byte (b : byte) : Z := Z.of_N (Byte.to_N b).

(** [txt s] is the octet sequence [TextEncoder.encode] gives for the ASCII
    literal [s]. *)
Definition txt (s : string) : bytes := list_byte_of_string s.

Fixpoint bytes_eqb (a b : bytes) : bool :=
  match a, b with
  | [], [] => true
  | x :: a', y :: b' => Byte.eqb x y && bytes_eqb a' b'
  | _, _ => false
  end.

Definition byteLength (buf : bytes) : Z := Z.of_nat (length buf).

(** ** JSON values, [JSON.stringify] and [JSON.parse]

    Numbers are the integers: the encoder only ever writes integer literals
    (frame rate, counts, frame and clip indices).  [JSON_stringify] follows
    the compact form of the host function.  [JSON_parse] reads the JSON
    grammar restricted to integer literals and to the two-character escapes;
    a text that uses a fraction, an exponent or a [\u] escape is reported as
    a syntax error by this reader. *)

Module JSON.

Unset Elimination Schemes.

Inductive json : Type :=
| JNull
| JBool (b : bool)
| JNum (n : Z)
| JStr (s : bytes)
| JArr (l : list json)
| JObj (m : list (bytes * json)).

Set Elimination Schemes.

(** Induction over a value, with the hypothesis for every element of an
    array and every member of an object. *)
Section Induction.

Variable P : json -> Prop.
Hypothesis Pnull : P JNull.
Hypothesis Pbool : forall b, P (JBool b).
Hypothesis Pnum : forall n, P (JNum n).
Hypothesis Pstr : forall s, P (JStr s).
Hypothesis Parr : forall l, Forall P l -> P (JArr l).
Hypothesis Pobj : forall m, Forall (fun kv => P (snd kv)) m -> P (JObj m).

Fixpoint json_ind (v : json) : P v :=
  match v with
  | JNull => Pnull
  | JBool b => Pbool b
  | JNum n => Pnum n
  | JStr s => Pstr s
  | JArr l =>
      Parr l ((fix all (l : list json) : Forall P l :=
                 match l with
                 | [] => Forall_nil P
                 | e :: l' => Forall_cons e (json_ind e) (all l')
                 end) l)
  | JObj m =>
      Pobj m ((fix all (m : list (bytes * json)) : Forall (fun kv => P (snd kv)) m :=
                 match m with
                 | [] => Forall_nil _
                 | kv :: m' => Forall_cons kv (json_ind (snd kv)) (all m')
                 end) m)
  end.

End Induction.

(** *** Printing *)

Definition digit_char (d : Z) : byte := byte_of_Z (48 + d).

(** Decimal digits of a non-negative integer, most significant first.  The
    fuel bounds the number of digits. *)
Fixpoint digits_of (fuel : nat) (n : Z) : list Z :=
  match fuel with
  | O => []
  | S f => (if n <? 10 then [] else digits_of f (n / 10)) ++ [n mod 10]
  end.

Definition decimal (n : Z) : bytes :=
  map digit_char (digits_of (S (Z.to_nat (Z.log2 n))) n).

(** [Number::toString] on an integer (of magnitude below 10^21; the host
    prints a larger one with an exponent). *)
Definition Number_toString (n : Z) : bytes :=
  if n <? 0 then txt "-" ++ decimal (- n) else decimal n.

Definition hex_char (d : Z) : byte :=
  if d <? 10 then byte_of_Z (48 + d) else byte_of_Z (87 + d).

(** [QuoteJSONString]: one character of a string literal. *)
Definition escape_char (c : byte) : bytes :=
  let n := Z_of_byte c in
  if n =? 34 then txt "\" ++ [c]
  else if n =? 92 then txt "\\"
  else if n =? 8 then txt "\b"
  else if n =? 9 then txt "\t"
  else if n =? 10 then txt "\n"
  else if n =? 12 then txt "\f"
  else if n =? 13 then txt "\r"
  else if n <? 32 then txt "\u00" ++ [hex_char (n / 16); hex_char (n mod 16)]
  else [c].

Definition dquote : byte := x22.

Definition quote (s : bytes) : bytes :=
  dquote :: flat_map escape_char s ++ [dquote].

Fixpoint join_comma (l : list bytes) : bytes :=
  match l with
  | [] => []
  | [x] => x
  | x :: l' => x ++ txt "," ++ join_comma l'
  end.

Fixpoint JSON_stringify (v : json) : bytes :=
  match v with
  | JNull => txt "null"
  | JBool true => txt "true"
  | JBool false => txt "false"
  | JNum n => Number_toString n
  | JStr s => quote s
  | JArr l => txt "[" ++ join_comma (map JSON_stringify l) ++ txt "]"
  | JObj m =>
      txt "{" ++
      join_comma (map (fun kv => quote (fst kv) ++ txt ":" ++ JSON_stringify (snd kv)) m)
      ++ txt "}"
  end.

(** *** Reading: the lexer

    The lexer is a finite-state reader that consumes one octet per step.  A
    number or a bare word ends at the first octet that cannot continue it;
    that octet is then read from the starting state. *)

Inductive token : Type :=
| TLBrace | TRBrace | TLBrack | TRBrack | TColon | TComma
| TString (s : bytes)
| TNumber (n : Z)
| TTrue | TFalse | TNull.

Inductive lex_state : Type :=
| LStart
| LString (acc : bytes)            (* inside a string literal; [acc] reversed *)
| LEscape (acc : bytes)            (* just after a backslash in a literal *)
| LMinus                           (* just after the sign of a number *)
| LZero (neg : bool)               (* just after a leading zero *)
| LDigits (neg : bool) (acc : Z)   (* inside a run of digits *)
| LWord (acc : bytes).             (* inside [true], [false] or [null] *)

Definition is_digit (n : Z) : bool := (48 <=? n) && (n <=? 57).
Definition is_lower (n : Z) : bool := (97 <=? n) && (n <=? 122).
Definition is_space (n : Z) : bool :=
  (n =? 32) || (n =? 9) || (n =? 10) || (n =? 13).

Definition start_step (c : byte) : option (lex_state * list token) :=
  let n := Z_of_byte c in
  if is_space n then Some (LStart, [])
  else if n =? 123 then Some (LStart, [TLBrace])
  else if n =? 125 then Some (LStart, [TRBrace])
  else if n =? 91 then Some (LStart, [TLBrack])
  else if n =? 93 then Some (LStart, [TRBrack])
  else if n =? 58 then Some (LStart, [TColon])
  else if n =? 44 then Some (LStart, [TComma])
  else if n =? 34 then Some (LString [], [])
  else if n =? 45 then Some (LMinus, [])
  else if n =? 48 then Some (LZero false, [])
  else if is_digit n then Some (LDigits false (n - 48), [])
  else if is_lower n then Some (LWord [c], [])
  else None.

Definition word_token (w : bytes) : option token :=
  if bytes_eqb w (txt "true") then Some TTrue
  else if bytes_eqb w (txt "false") then Some TFalse
  else if bytes_eqb w (txt "null") then Some TNull
  else None.

Definition signed (neg : bool) (n : Z) : Z := if neg then - n else n.

(** The octet [c] ends the token [t]: [t] is emitted and [c] is read from
    the starting state.  A number may not run into a fraction or an
    exponent. *)
Definition end_number (t : token) (c : byte) : option (lex_state * list token) :=
  let n := Z_of_byte c in
  if (n =? 46) || (n =? 101) || (n =? 69) then None
  else match start_step c with
       | Some (st, out) => Some (st, t :: out)
       | None => None
       end.

Definition unescape (c : byte) : option byte :=
  let n := Z_of_byte c in
  if (n =? 34) || (n =? 92) || (n =? 47) then Some c
  else if n =? 98 then Some (byte_of_Z 8)
  else if n =? 102 then Some (byte_of_Z 12)
  else if n =? 110 then Some (byte_of_Z 10)
  else if n =? 114 then Some (byte_of_Z 13)
  else if n =? 116 then Some (byte_of_Z 9)
  else None.

Definition lex_step (st : lex_state) (c : byte) : option (lex_state * list token) :=
  let n := Z_of_byte c in
  match st with
  | LStart => start_step c
  | LString acc =>
      if n =? 34 then Some (LStart, [TString (rev acc)])
      else if n =? 92 then Some (LEscape acc, [])
      else if n <? 32 then None
      else Some (LString (c :: acc), [])
  | LEscape acc =>
      match unescape c with
      | Some c' => Some (LString (c' :: acc), [])
      | None => None
      end
  | LMinus =>
      if n =? 48 then Some (LZero true, [])
      else if is_digit n then Some (LDigits true (n - 48), [])
      else None
  | LZero neg =>
      if is_digit n then None else end_number (TNumber 0) c
  | LDigits neg acc =>
      if is_digit n then Some (LDigits neg (10 * acc + (n - 48)), [])
      else end_number (TNumber (signed neg acc)) c
  | LWord acc =>
      if is_lower n then Some (LWord (c :: acc), [])
      else match word_token (rev acc) with
           | Some t =>
               match start_step c with
               | Some (st', out) => Some (st', t :: out)
               | None => None
               end
           | None => None
           end
  end.

(** What is emitted when the text ends in state [st]. *)
Definition lex_end (st : lex_state) : option (list token) :=
  match st with
  | LStart => Some []
  | LZero _ => Some [TNumber 0]
  | LDigits neg acc => Some [TNumber (signed neg acc)]
  | LWord acc =>
      match word_token (rev acc) with
      | Some t => Some [t]
      | None => None
      end
  | LString _ | LEscape _ | LMinus => None
  end.

(** The tokens [out] were emitted before what the rest of the text gives. *)
Definition emit (out : list token) (o : option (list token)) : option (list token) :=
  match o with
  | Some ts => Some (out ++ ts)
  | None => None
  end.

Fixpoint lex_from (st : lex_state) (s : bytes) : option (list token) :=
  match s with
  | [] => lex_end st
  | c :: s' =>
      match lex_step st c with
      | Some (st', out) => emit out (lex_from st' s')
      | None => None
      end
  end.

Definition lex (s : bytes) : option (list token) := lex_from LStart s.

(** *** Reading: the parser

    Recursive descent over the tokens.  The fuel of [parse_value] bounds the
    nesting depth, the fuel of the two loops bounds the number of elements;
    the number of tokens is enough for both. *)

Definition parser (A : Type) := list token -> option (A * list token).

Fixpoint parse_elements (pv : parser json) (fuel : nat) (ts : list token)
  : option (list json * list token) :=
  match fuel with
  | O => None
  | S f =>
      match pv ts with
      | Some (v, TComma :: r) =>
          match parse_elements pv f r with
          | Some (vs, r') => Some (v :: vs, r')
          | None => None
          end
      | Some (v, TRBrack :: r) => Some ([v], r)
      | _ => None
      end
  end.

Fixpoint parse_members (pv : parser json) (fuel : nat) (ts : list token)
  : option (list (bytes * json) * list token) :=
  match fuel with
  | O => None
  | S f =>
      match ts with
      | TString k :: TColon :: r =>
          match pv r with
          | Some (v, TComma :: r') =>
              match parse_members pv f r' with
              | Some (kvs, r'') => Some ((k, v) :: kvs, r'')
              | None => None
              end
          | Some (v, TRBrace :: r') => Some ([(k, v)], r')
          | _ => None
          end
      | _ => None
      end
  end.

Fixpoint parse_value (fuel : nat) (ts : list token) : option (json * list token) :=
  match fuel with
  | O => None
  | S f =>
      match ts with
      | TNull :: r => Some (JNull, r)
      | TTrue :: r => Some (JBool true, r)
      | TFalse :: r => Some (JBool false, r)
      | TNumber n :: r => Some (JNum n, r)
      | TString s :: r => Some (JStr s, r)
      | TLBrack :: TRBrack :: r => Some (JArr [], r)
      | TLBrack :: r =>
          match parse_elements (parse_value f) (length r) r with
          | Some (vs, r') => Some (JArr vs, r')
          | None => None
          end
      | TLBrace :: TRBrace :: r => Some (JObj [], r)
      | TLBrace :: r =>
          match parse_members (parse_value f) (length r) r with
          | Some (kvs, r') => Some (JObj kvs, r')
          | None => None
          end
      | _ => None
      end
  end.

(** [JSON.parse]: [None] stands for the [SyntaxError] it throws. *)
Definition JSON_parse (text : bytes) : option json :=
  match lex text with
  | Some ts =>
      match parse_value (S (length ts)) ts with
      | Some (v, []) => Some v
      | _ => None
      end
  | None => None
  end.

(** *** The tokens of a printed value

    [tokens_of v] is the token sequence of the text [JSON_stringify v];
    [wf v] holds when no string of [v] has a control character that is
    printed as a [\u] escape. *)

Fixpoint join_tokens (l : list (list token)) : list token :=
  match l with
  | [] => []
  | [x] => x
  | x :: l' => x ++ TComma :: join_tokens l'
  end.

Fixpoint tokens_of (v : json) : list token :=
  match v with
  | JNull => [TNull]
  | JBool true => [TTrue]
  | JBool false => [TFalse]
  | JNum n => [TNumber n]
  | JStr s => [TString s]
  | JArr l => TLBrack :: join_tokens (map tokens_of l) ++ [TRBrack]
  | JObj m =>
      TLBrace ::
      join_tokens (map (fun kv => TString (fst kv) :: TColon :: tokens_of (snd kv)) m)
      ++ [TRBrace]
  end.

Definition plain_char (c : byte) : bool :=
  let n := Z_of_byte c in
  (32 <=? n) || (n =? 8) || (n =? 9) || (n =? 10) || (n =? 12) || (n =? 13).

Definition plain (s : bytes) : bool := forallb plain_char s.

Fixpoint wf (v : json) : bool :=
  match v with
  | JStr s => plain s
  | JArr l => forallb wf l
  | JObj m => forallb (fun kv => plain (fst kv) && wf (snd kv)) m
  | _ => true
  end.

(** A text that may follow a printed value. *)
Definition delimited (rest : bytes) : Prop :=
  match rest with
  | [] => True
  | c :: _ => c = x2c \/ c = x5d \/ c = x7d
  end.

(** *** Statements about the reader

    The value of a run of digits read after [acc]; what it is for the lexer
    and for the parser to read a printed value back. *)

Definition digits_value_from (acc : Z) (ds : list Z) : Z :=
  fold_left (fun a d => 10 * a + d) ds acc.

Definition lex_ok (v : json) : Prop :=
  wf v = true ->
  forall rest, delimited rest ->
    lex_from LStart (JSON_stringify v ++ rest) =
    emit (tokens_of v) (lex_from LStart rest).

Definition parse_ok (fuel : nat) (v : json) : Prop :=
  forall rest, parse_value fuel (tokens_of v ++ rest) = Some (v, rest).

(** *** Property access on a parsed value

    [prop v k] is [v.k] for a value that is not [null]; [None] is
    [undefined].  Of two members with the same key the later one wins, as
    in the host parser.  Only an object carries the keys read by this
    program. *)

Fixpoint lookup (k : bytes) (m : list (bytes * json)) : option json :=
  match m with
  | [] => None
  | (k', v) :: m' =>
      match lookup k m' with
      | Some v' => Some v'
      | None => if bytes_eqb k k' then Some v else None
      end
  end.

Definition prop (v : json) (k : string) : option json :=
  match v with
  | JObj m => lookup (txt k) m
  | _ => None
  end.

End JSON.
Import JSON.

(** ** Exceptions and results *)

Inductive error : Type :=
| RangeError        (* a view or a DataView access outside its buffer *)
| SyntaxError       (* thrown by JSON.parse *)
| TypeError         (* a property read on null, a call on a non-function *)
| MissingMagic      (* "Invalid AGIF file: Missing magic header" *)
| Unsupported (version audioFormat : option json)
                    (* "Unsupported AGIF version or audio format: v/f" *)
| ExtraBytes (n : Z)
                    (* "File parsing error: Extra n bytes at end" *)
| ImageLoadError    (* img.onerror *)
| AudioDecodeError  (* decodeAudioData rejected *)
| Unsettled.        (* no exception: an awaited promise never settles, and
                       neither what follows the await nor a handler runs *)

Inductive result (A : Type) : Type :=
| Ok (a : A)
| Err (e : error).

Arguments Ok {A} a.
Arguments Err {A} e.

Definition bind {A B : Type} (r : result A) (k : A -> result B) : result B :=
  match r with
  | Ok a => k a
  | Err e => Err e
  end.

Notation "x <- r ;; k" := (bind r (fun x => k))
  (at level 61, r at next level, right associativity).

Definition of_option {A : Type} (e : error) (o : option A) : result A :=
  match o with
  | Some a => Ok a
  | None => Err e
  end.

(** [Promise.all (l.map f)]: every element is converted, or the whole
    promise is rejected. *)
Fixpoint all {A B : Type} (e : error) (f : A -> option B) (l : list A)
  : result (list B) :=
  match l with
  | [] => Ok []
  | a :: l' =>
      b <- of_option e (f a) ;;
      bs <- all e f l' ;;
      Ok (b :: bs)
  end.

(** ** ArrayBuffer, typed-array views and DataView *)

(** [new Uint8Array(buffer, offset, len)]: a view of [len] octets from
    [offset]; a [RangeError] when the view does not fit the buffer. *)
Definition Uint8Array (buffer : bytes) (offset len : Z) : result bytes :=
  if (0 <=? offset) && (0 <=? len) && (offset + len <=? byteLength buffer)
  then Ok (firstn (Z.to_nat len) (skipn (Z.to_nat offset) buffer))
  else Err RangeError.

(** The unsigned number held by four octets, least significant first. *)
Definition uint32_le (b0 b1 b2 b3 : byte) : Z :=
  Z_of_byte b0 + 256 * Z_of_byte b1 + 65536 * Z_of_byte b2
  + 16777216 * Z_of_byte b3.

Arguments uint32_le : simpl never.

(** [view.getUint32(offset, true)]. *)
Definition getUint32 (buffer : bytes) (offset : Z) : result Z :=
  view <- Uint8Array buffer offset 4 ;;
  match view with
  | [b0; b1; b2; b3] => Ok (uint32_le b0 b1 b2 b3)
  | _ => Err RangeError
  end.

(** The octets that [setUint16(_, n, true)] and [setUint32(_, n, true)]
    store: the low 16 or 32 bits of [n], least significant octet first. *)
Definition le16 (n : Z) : bytes := [byte_of_Z n; byte_of_Z (n / 256)].

Definition le32 (n : Z) : bytes :=
  [byte_of_Z n; byte_of_Z (n / 256); byte_of_Z (n / 65536);
   byte_of_Z (n / 16777216)].

(** A store of [data] at [offset] into a buffer; a [RangeError] when it does
    not fit. *)
Definition store (buffer : bytes) (offset : Z) (data : bytes) : result bytes :=
  if (0 <=? offset) && (offset + byteLength data <=? byteLength buffer)
  then Ok (firstn (Z.to_nat offset) buffer ++ data
           ++ skipn (Z.to_nat offset + length data) buffer)
  else Err RangeError.

Definition setUint8 (view : bytes) (offset n : Z) : result bytes :=
  store view offset [byte_of_Z n].

Definition setUint16 (view : bytes) (offset n : Z) : result bytes :=
  store view offset (le16 n).

Definition setUint32 (view : bytes) (offset n : Z) : result bytes :=
  store view offset (le32 n).

(** [new TextDecoder().decode(view)].  A leading byte order mark is dropped;
    text is otherwise kept as its octets (the host replaces ill-formed UTF-8
    by U+FFFD, which never yields a character of the JSON syntax nor of the
    constants this program compares with). *)
Definition TextDecoder_decode (view : bytes) : bytes :=
  match view with
  | b0 :: b1 :: b2 :: rest =>
      if Byte.eqb b0 xef && Byte.eqb b1 xbb && Byte.eqb b2 xbf
      then rest else view
  | _ => view
  end.

(** ** The PCM-to-WAV transcoder (script.js, lines 416-458) *)

Module Wav.

(** A sample of a [Float32Array].  A finite sample is the rational it
    denotes; the products below are exact in double precision, since a
    sample has a 24-bit significand and the factors have 16 bits. *)
Inductive float : Type :=
| Finite (q : Q)
| PosInf
| NegInf
| NaN.

(** [a < b] on numbers; false when an operand is NaN. *)
Definition float_ltb (a b : float) : bool :=
  match a, b with
  | NaN, _ | _, NaN => false
  | _, NegInf => false
  | NegInf, _ => true
  | PosInf, _ => false
  | Finite _, PosInf => true
  | Finite p, Finite q => negb (Qle_bool q p)
  end.

Definition Math_min (a b : float) : float :=
  match a, b with
  | NaN, _ | _, NaN => NaN
  | _, _ => if float_ltb b a then b else a
  end.

Definition Math_max (a b : float) : float :=
  match a, b with
  | NaN, _ | _, NaN => NaN
  | _, _ => if float_ltb a b then b else a
  end.

Definition Qsign (q : Q) : Z := Z.sgn (Qnum q).

Definition float_sign (a : float) : Z :=
  match a with
  | Finite q => Qsign q
  | PosInf => 1
  | NegInf => -1
  | NaN => 0
  end.

Definition float_mul (a b : float) : float :=
  match a, b with
  | NaN, _ | _, NaN => NaN
  | Finite p, Finite q => Finite (p * q)
  | _, _ =>
      match float_sign a * float_sign b with
      | Z0 => NaN
      | Zpos _ => PosInf
      | Zneg _ => NegInf
      end
  end.

Definition of_Z (n : Z) : float := Finite (inject_Z n).

(** [ToInt16]: truncation towards zero, then the low 16 bits read as a
    signed number; NaN and the infinities give 0. *)
Definition truncate (q : Q) : Z := Z.quot (Qnum q) (Zpos (Qden q)).

Definition ToInt16 (x : float) : Z :=
  match x with
  | Finite q =>
      let m := truncate q mod 65536 in
      if 32768 <=? m then m - 65536 else m
  | _ => 0
  end.

(** [view.setInt16(offset, x, true)]. *)
Definition setInt16 (view : bytes) (offset : Z) (x : float) : result bytes :=
  store view offset (le16 (ToInt16 x)).

(** An [AudioBuffer]: [channels] holds [getChannelData(c)] for each channel
    [c], [length] is the number of sample frames. *)
Record AudioBuffer : Type := {
  channels : list (list float);
  sampleRate : Z;
  length : nat
}.

Definition numberOfChannels (buffer : AudioBuffer) : nat :=
  List.length (channels buffer).

(** [buffer.getChannelData(channel)[i]]; an index past the end reads
    [undefined], which [Math.min] turns into NaN. *)
Definition getChannelData (buffer : AudioBuffer) (channel i : nat) : float :=
  nth i (nth channel (channels buffer) []) NaN.

(** [writeString(view, offset, string)] (lines 454-458); [i] counts the
    characters already written. *)
Fixpoint writeString_from (view : bytes) (offset : Z) (i : Z) (s : bytes)
  : result bytes :=
  match s with
  | [] => Ok view
  | c :: s' =>
      view <- setUint8 view (offset + i) (Z_of_byte c) ;;
      writeString_from view offset (i + 1) s'
  end.

Definition writeString (view : bytes) (offset : Z) (s : string) : result bytes :=
  writeString_from view offset 0 (txt s).

(** Lines 439-442. *)
Definition clamp (x : float) : float :=
  Math_max (of_Z (-1)) (Math_min (of_Z 1) x).

(** Line 445: the value handed to [setInt16]. *)
Definition scale (sample : float) : float :=
  if float_ltb sample (of_Z 0)
  then float_mul sample (of_Z 32768)
  else float_mul sample (of_Z 32767).

(** The signed 16-bit number stored for a sample. *)
Definition sample_int16 (x : float) : Z := ToInt16 (scale (clamp x)).

(** The inner loop (lines 438-449) from channel [channel] on, for
    [n] remaining channels. *)
Fixpoint write_channels (buffer : AudioBuffer) (i : nat) (n channel : nat)
  (view : bytes) (offset : Z) : result (bytes * Z) :=
  match n with
  | O => Ok (view, offset)
  | S n' =>
      let sample := clamp (getChannelData buffer channel i) in
      view <- setInt16 view offset (scale sample) ;;
      write_channels buffer i n' (S channel) view (offset + 2)
  end.

(** The outer loop (lines 437-450) from sample frame [i] on, for [n]
    remaining frames. *)
Fixpoint write_frames (buffer : AudioBuffer) (n i : nat)
  (view : bytes) (offset : Z) : result (bytes * Z) :=
  match n with
  | O => Ok (view, offset)
  | S n' =>
      r <- write_channels buffer i (numberOfChannels buffer) 0 view offset ;;
      write_frames buffer n' (S i) (fst r) (snd r)
  end.

Definition audioBufferToWav (buffer : AudioBuffer) : result bytes :=
  let numChannels := Z.of_nat (numberOfChannels buffer) in
  let sampleRate := sampleRate buffer in
  let len := Z.of_nat (length buffer) in
  let length := len * numChannels * 2 + 44 in
  let view := repeat x00 (Z.to_nat length) in
  view <- writeString view 0 "RIFF" ;;
  view <- setUint32 view 4 (36 + len * numChannels * 2) ;;
  view <- writeString view 8 "WAVE" ;;
  view <- writeString view 12 "fmt " ;;
  view <- setUint32 view 16 16 ;;
  view <- setUint16 view 20 1 ;;
  view <- setUint16 view 22 numChannels ;;
  view <- setUint32 view 24 sampleRate ;;
  view <- setUint32 view 28 (sampleRate * numChannels * 2) ;;
  view <- setUint16 view 32 (numChannels * 2) ;;
  view <- setUint16 view 34 16 ;;
  view <- writeString view 36 "data" ;;
  view <- setUint32 view 40 (len * numChannels * 2) ;;
  r <- write_frames buffer (Wav.length buffer) 0 view 44 ;;
  Ok (fst r).

(** The octets of the file: the 44-octet header, then the samples, frame by
    frame and channel by channel. *)
Definition wav_header (buffer : AudioBuffer) : bytes :=
  let numChannels := Z.of_nat (numberOfChannels buffer) in
  let dataSize := Z.of_nat (Wav.length buffer) * numChannels * 2 in
  txt "RIFF" ++ le32 (36 + dataSize) ++ txt "WAVE" ++ txt "fmt " ++ le32 16
  ++ le16 1 ++ le16 numChannels ++ le32 (sampleRate buffer)
  ++ le32 (sampleRate buffer * numChannels * 2) ++ le16 (numChannels * 2)
  ++ le16 16 ++ txt "data" ++ le32 dataSize.

Definition wav_frame (buffer : AudioBuffer) (i : nat) : bytes :=
  flat_map (fun channel => le16 (sample_int16 (getChannelData buffer channel i)))
    (seq 0 (numberOfChannels buffer)).

Definition wav_samples (buffer : AudioBuffer) : bytes :=
  flat_map (wav_frame buffer) (seq 0 (Wav.length buffer)).

End Wav.

(** ** Conversions of parsed values used by the decoder *)

(** Decimal reading of a string by [StringToNumber]: blanks around (the
    four blanks of JSON), an optional sign, digits.  The empty string is 0.
    The other forms of [StringToNumber] (a fraction, an exponent, a radix
    prefix, [Infinity]) lie outside the integers of this model and read as
    NaN ([None]). *)
Fixpoint digits_value (acc : Z) (s : bytes) : option Z :=
  match s with
  | [] => Some acc
  | c :: s' =>
      if is_digit (Z_of_byte c)
      then digits_value (10 * acc + (Z_of_byte c - 48)) s'
      else None
  end.

Fixpoint drop_spaces (s : bytes) : bytes :=
  match s with
  | c :: s' => if is_space (Z_of_byte c) then drop_spaces s' else s
  | [] => []
  end.

Definition trim (s : bytes) : bytes :=
  rev (drop_spaces (rev (drop_spaces s))).

Definition StringToNumber (s : bytes) : option Z :=
  match trim s with
  | [] => Some 0
  | c :: r =>
      if Z_of_byte c =? 45 then
        match r with
        | [] => None
        | _ => option_map Z.opp (digits_value 0 r)
        end
      else if Z_of_byte c =? 43 then
        match r with
        | [] => None
        | _ => digits_value 0 r
        end
      else digits_value 0 (c :: r)
  end.

(** [ToNumber] of a property that was read; [None] is NaN.  An array of one
    element converts as that element's string does. *)
Fixpoint ToNumber_json (v : json) : option Z :=
  match v with
  | JNull => Some 0
  | JBool b => Some (if b then 1 else 0)
  | JNum n => Some n
  | JStr s => StringToNumber s
  | JArr [] => Some 0
  | JArr [JBool _] => None
  | JArr [e] => ToNumber_json e
  | JArr _ => None
  | JObj _ => None
  end.

Definition ToNumber (v : option json) : option Z :=
  match v with
  | Some j => ToNumber_json j
  | None => None
  end.

(** The number of rounds of [for (let i = 0; i < bound; i++)]. *)
Definition loop_count (bound : option json) : nat :=
  match ToNumber bound with
  | Some n => Z.to_nat n
  | None => O
  end.

(** [ToBoolean] of a property that was read. *)
Definition truthy (v : option json) : bool :=
  match v with
  | None | Some JNull | Some (JBool false) | Some (JNum 0) | Some (JStr []) => false
  | Some _ => true
  end.

Definition is_null (v : json) : bool :=
  match v with
  | JNull => true
  | _ => false
  end.

Definition json_is_string (v : option json) (s : string) : bool :=
  match v with
  | Some (JStr t) => bytes_eqb t (txt s)
  | _ => false
  end.

(** [ToPrimitive] of a parsed value raises a [TypeError]: an object that
    holds a member named [toString] finds that member, which is no
    function, in place of the inherited method, and the inherited
    [valueOf] returns the object itself; an array is joined, which
    converts each of its elements.  The same holds for the conversion to
    a string and for the one to a number. *)
Fixpoint ToPrimitive_throws (v : json) : bool :=
  match v with
  | JObj m =>
      match lookup (txt "toString") m with
      | Some _ => true
      | None => false
      end
  | JArr l => existsb ToPrimitive_throws l
  | _ => false
  end.

Definition conversion_throws (v : option json) : bool :=
  match v with
  | Some j => ToPrimitive_throws j
  | None => false
  end.

(** What line 25 throws: the error whose message the template of line 26
    builds from the two values, or the [TypeError] of their conversion to
    strings. *)
Definition unsupported (version audioFormat : option json) : error :=
  if conversion_throws version || conversion_throws audioFormat
  then TypeError
  else Unsupported version audioFormat.

(** ** AGIFDecoder.decode (script.js, lines 3-98) *)

Module AGIFDecoder.

(** What lines 4-59 collect before the end-of-file check. *)
Record sections : Type := {
  s_header : json;
  s_frameData : list bytes;
  s_audioData : list bytes;
  s_triggers : json
}.

(** The value the promise resolves to (lines 91-97). *)
Record decoded (Image : Type) : Type := {
  header : json;
  frames : list Image;
  audioBuffers : list Wav.AudioBuffer;
  triggers : json;
  loop : bool
}.

Arguments header {Image} d.
Arguments frames {Image} d.
Arguments audioBuffers {Image} d.
Arguments triggers {Image} d.
Arguments loop {Image} d.

(** The two section loops (lines 32-40 and 44-50): [n] rounds from
    [offset], each reading a length and a payload; [wrap] is what is pushed
    for a payload. *)
Fixpoint read_payloads (wrap : bytes -> bytes) (arrayBuffer : bytes)
  (n : nat) (offset : Z) : result (list bytes * Z) :=
  match n with
  | O => Ok ([], offset)
  | S n' =>
      len <- getUint32 arrayBuffer offset ;;
      let offset := offset + 4 in
      payload <- Uint8Array arrayBuffer offset len ;;
      let offset := offset + len in
      r <- read_payloads wrap arrayBuffer n' offset ;;
      Ok (wrap payload :: fst r, snd r)
  end.

Definition dataURL (frameBase64 : bytes) : bytes :=
  txt "data:image/png;base64," ++ frameBase64.

Section Host.

(** The host functions the decoder calls. *)
Variable parseJSON : bytes -> option json.           (* JSON.parse *)
Variable Image : Type.
Variable loadImage : bytes -> option Image.          (* img.src = data *)
Variable decodeAudioData : bytes -> option Wav.AudioBuffer.

(** Lines 4-59: the sections and the offset reached. *)
Definition read_container (arrayBuffer : bytes) : result (sections * Z) :=
  let offset := 0 in
  (* Magic (4 bytes) *)
  magicView <- Uint8Array arrayBuffer offset 4 ;;
  let magic := TextDecoder_decode magicView in
  if negb (bytes_eqb magic (txt "AGIF")) then Err MissingMagic else
  let offset := offset + 4 in
  (* Header length + JSON *)
  headerLen <- getUint32 arrayBuffer offset ;;
  let offset := offset + 4 in
  headerView <- Uint8Array arrayBuffer offset headerLen ;;
  header <- of_option SyntaxError (parseJSON (TextDecoder_decode headerView)) ;;
  let offset := offset + headerLen in
  (* Validate header; reading a property of null throws *)
  if is_null header then Err TypeError else
  let version := prop header "version" in
  let audioFormat := prop header "audioFormat" in
  if negb (json_is_string version "1.0") || negb (json_is_string audioFormat "wav")
  then Err (unsupported version audioFormat) else
  (* Frames; the comparison of line 32 converts the count to a number *)
  if conversion_throws (prop header "numFrames") then Err TypeError else
  fr <- read_payloads (fun view => dataURL (TextDecoder_decode view))
          arrayBuffer (loop_count (prop header "numFrames")) offset ;;
  let '(frameData, offset) := fr in
  (* Audio; the comparison of line 44 converts the count as well *)
  if conversion_throws (prop header "numAudioClips") then Err TypeError else
  au <- read_payloads (fun view => view)
          arrayBuffer (loop_count (prop header "numAudioClips")) offset ;;
  let '(audioData, offset) := au in
  (* Trigger map *)
  triggerLen <- getUint32 arrayBuffer offset ;;
  let offset := offset + 4 in
  triggerView <- Uint8Array arrayBuffer offset triggerLen ;;
  triggers <- of_option SyntaxError (parseJSON (TextDecoder_decode triggerView)) ;;
  let offset := offset + triggerLen in
  Ok ({| s_header := header; s_frameData := frameData;
         s_audioData := audioData; s_triggers := triggers |}, offset).

(** Lines 4-68: the sections, once the end-of-file check has passed. *)
Definition decode_sections (arrayBuffer : bytes) : result sections :=
  r <- read_container arrayBuffer ;;
  let '(s, offset) := r in
  if negb (offset =? byteLength arrayBuffer)
  then Err (ExtraBytes (byteLength arrayBuffer - offset))
  else Ok s.

(** Lines 91-97. *)
Definition frame_triggers (triggers : json) : json :=
  let t := prop triggers "frame_triggers" in
  if truthy t then match t with Some v => v | None => JArr [] end else JArr [].

Definition loop_flag (triggers : json) : bool :=
  match prop triggers "loop" with
  | Some (JBool false) => false
  | _ => true
  end.

Definition decode (arrayBuffer : bytes) : result (decoded Image) :=
  s <- decode_sections arrayBuffer ;;
  frames <- all ImageLoadError loadImage (s_frameData s) ;;
  audioBuffers <- all AudioDecodeError decodeAudioData (s_audioData s) ;;
  let triggers := s_triggers s in
  if is_null triggers then Err TypeError else
  Ok {| header := s_header s;
        frames := frames;
        audioBuffers := audioBuffers;
        triggers := frame_triggers triggers;
        loop := loop_flag triggers |}.

End Host.

End AGIFDecoder.

(** ** createAudiGIF (script.js, lines 329-413) *)

(** An entry of the global [triggers] (lines 275-281). *)
Record Trigger : Type := {
  frame : Z;
  audio : Z
}.

Definition trigger_json (t : Trigger) : json :=
  JObj [(txt "frame", JNum (frame t)); (txt "audio", JNum (audio t))].

(** Lines 331-340. *)
Definition header_json (frameRate numFrames numAudioClips : Z) : json :=
  JObj [(txt "magic", JStr (txt "AGIF"));
        (txt "version", JStr (txt "1.0"));
        (txt "width", JNum 300);
        (txt "height", JNum 300);
        (txt "frameRate", JNum frameRate);
        (txt "audioFormat", JStr (txt "wav"));
        (txt "numFrames", JNum numFrames);
        (txt "numAudioClips", JNum numAudioClips)].

(** Line 395. *)
Definition triggerMap_json (triggers : list Trigger) : json :=
  JObj [(txt "frame_triggers", JArr (map trigger_json triggers));
        (txt "loop", JBool true)].

(** A length buffer followed by the payload (lines 370-374, 388-392). *)
Definition length_prefixed (payload : bytes) : bytes :=
  le32 (byteLength payload) ++ payload.

(** Lines 342-411, once the host has produced the base64 text of every
    frame ([frameData]) and the WAV octets of every clip ([audioData]):
    the octets of the blob. *)
Definition build_container (frameRate : Z) (frameData : list bytes)
  (audioData : list bytes) (triggers : list Trigger) : bytes :=
  let header := header_json frameRate (Z.of_nat (length frameData))
                  (Z.of_nat (length audioData)) in
  let magicBytes := txt "AGIF" in
  let headerBytes := JSON_stringify header in
  let frameParts := flat_map length_prefixed frameData in
  let audioParts := flat_map length_prefixed audioData in
  let triggerBytes := JSON_stringify (triggerMap_json triggers) in
  magicBytes ++ le32 (byteLength headerBytes) ++ headerBytes
  ++ frameParts ++ audioParts
  ++ le32 (byteLength triggerBytes) ++ triggerBytes.

(** The globals of the authoring page (lines 212-216). *)
Record session (File : Type) : Type := {
  images : list File;
  audioFiles : list File;
  triggers : list Trigger;
  title : bytes;
  frameRate : Z
}.

Arguments images {File} s.
Arguments audioFiles {File} s.
Arguments triggers {File} s.
Arguments title {File} s.
Arguments frameRate {File} s.

Section Authoring.

Variable File : Type.
(** Lines 355-365: the file drawn on a 300 x 300 canvas, exported as PNG,
    in base64, once the image has loaded; for a file that is no image the
    promise of line 358, which only [onload] settles, stays pending. *)
Variable canvasToBase64 : File -> option bytes.
(** Lines 379-381: the PCM of an audio file, unless decoding is rejected. *)
Variable decodeAudioFile : File -> option Wav.AudioBuffer.

(** The images are awaited (line 354) before the audio files are read
    (line 377). *)
Definition createAudiGIF (g : session File) : result bytes :=
  frameData <- all Unsettled canvasToBase64 (images g) ;;
  buffers <- all AudioDecodeError decodeAudioFile (audioFiles g) ;;
  audioData <- (fix wavs (l : list Wav.AudioBuffer) : result (list bytes) :=
                  match l with
                  | [] => Ok []
                  | b :: l' =>
                      w <- Wav.audioBufferToWav b ;;
                      ws <- wavs l' ;;
                      Ok (w :: ws)
                  end) buffers ;;
  Ok (build_container (frameRate g) frameData audioData (triggers g)).

End Authoring.

(** ** AGIFPlayer (script.js, lines 101-209)

    The player is modelled on decoded containers whose trigger list is a
    list of pairs of integers and whose header counts are integers, which
    is what [createAudiGIF] writes; [playable] reads such a container out
    of the value [AGIFDecoder.decode] resolves to.  The host keeps the
    pending timeouts and the pending animation-frame requests; any pending
    callback may run next. *)

Module AGIFPlayer.

Record Header : Type := {
  width : Z;
  height : Z;
  frameRate : Z;
  numFrames : Z
}.

Record decoded (Image : Type) : Type := {
  frames : list Image;
  header : Header;
  triggers : list Trigger;
  audioBuffers : list Wav.AudioBuffer;
  loop : bool
}.

Arguments frames {Image} d.
Arguments header {Image} d.
Arguments triggers {Image} d.
Arguments audioBuffers {Image} d.
Arguments loop {Image} d.

Record player (Image : Type) : Type := {
  isPlaying : bool;
  currentFrame : Z;
  animationId : option nat;          (* null, or a handle *)
  this_decoded : option (decoded Image)   (* this.decoded *)
}.

Arguments isPlaying {Image} p.
Arguments currentFrame {Image} p.
Arguments animationId {Image} p.
Arguments this_decoded {Image} p.

(** The timers of the host: handles of the pending [setTimeout] callbacks
    and of the pending [requestAnimationFrame] callbacks, and the next
    handle of each kind. *)
Record host : Type := {
  timeouts : list nat;
  frameRequests : list nat;
  nextTimeout : nat;
  nextRequest : nat
}.

Record world (Image : Type) : Type := {
  this : player Image;
  env : host
}.

Arguments this {Image} w.
Arguments env {Image} w.

(** What a run shows: a frame drawn, a clip started for a trigger, an
    exception that ended a callback. *)
Inductive event : Type :=
| Draw (index : Z)
| StartClip (t : Trigger)
| Thrown.

Definition setTimeout (h : host) : nat * host :=
  (nextTimeout h,
   {| timeouts := timeouts h ++ [nextTimeout h];
      frameRequests := frameRequests h;
      nextTimeout := S (nextTimeout h);
      nextRequest := nextRequest h |}).

Definition requestAnimationFrame (h : host) : nat * host :=
  (nextRequest h,
   {| timeouts := timeouts h;
      frameRequests := frameRequests h ++ [nextRequest h];
      nextTimeout := nextTimeout h;
      nextRequest := S (nextRequest h) |}).

Definition cancelAnimationFrame (id : nat) (h : host) : host :=
  {| timeouts := timeouts h;
     frameRequests := remove Nat.eq_dec id (frameRequests h);
     nextTimeout := nextTimeout h;
     nextRequest := nextRequest h |}.

(** [audioBuffers[i]] is a clip. *)
Definition has_clip (audioBuffers : list Wav.AudioBuffer) (i : Z) : bool :=
  (0 <=? i) && (i <? Z.of_nat (length audioBuffers)).

Definition has_frame {Image : Type} (frames : list Image) (i : Z) : bool :=
  (0 <=? i) && (i <? Z.of_nat (length frames)).

(** Lines 179-186: the clips started for the frame on display. *)
Definition fire (audioBuffers : list Wav.AudioBuffer) (current : Z)
  (triggers : list Trigger) : list event :=
  map StartClip
    (filter (fun trigger =>
               (frame trigger =? current) && has_clip audioBuffers (audio trigger))
            triggers).

Section Methods.

Variable Image : Type.

(** The constructor (lines 102-109). *)
Definition new_player : player Image :=
  {| isPlaying := false; currentFrame := 0; animationId := None;
     this_decoded := None |}.

(** [animate()] (lines 160-195).  In line 189 the remainder is the
    truncating one; its divisor is not zero when [frames] has
    [header.numFrames] entries, as the decoder builds it. *)
Definition animate (w : world Image) : world Image * list event :=
  let p := this w in
  if negb (isPlaying p) then (w, []) else
  match this_decoded p with
  | None => (w, [Thrown])
  | Some d =>
      if (length (frames d) =? 0)%nat then (w, []) else
      if negb (has_frame (frames d) (currentFrame p)) then (w, [Thrown]) else
      let drawn := Draw (currentFrame p) in
      let started := fire (audioBuffers d) (currentFrame p) (triggers d) in
      let next := Z.rem (currentFrame p + 1) (numFrames (header d)) in
      let '(id, h) := setTimeout (env w) in
      ({| this := {| isPlaying := isPlaying p;
                     currentFrame := next;
                     animationId := Some id;
                     this_decoded := this_decoded p |};
          env := h |},
       drawn :: started)
  end.

(** [play()] (lines 146-150). *)
Definition play (w : world Image) : world Image * list event :=
  let p := this w in
  match isPlaying p, this_decoded p with
  | true, _ | _, None => (w, [])
  | false, Some _ =>
      animate {| this := {| isPlaying := true;
                            currentFrame := currentFrame p;
                            animationId := animationId p;
                            this_decoded := this_decoded p |};
                 env := env w |}
  end.

(** [pause()] (lines 152-158). *)
Definition pause (w : world Image) : world Image :=
  let p := this w in
  match animationId p with
  | Some id =>
      if (id =? 0)%nat
      then {| this := {| isPlaying := false;
                         currentFrame := currentFrame p;
                         animationId := animationId p;
                         this_decoded := this_decoded p |};
              env := env w |}
      else {| this := {| isPlaying := false;
                         currentFrame := currentFrame p;
                         animationId := None;
                         this_decoded := this_decoded p |};
              env := cancelAnimationFrame id (env w) |}
  | None =>
      {| this := {| isPlaying := false;
                    currentFrame := currentFrame p;
                    animationId := None;
                    this_decoded := this_decoded p |};
         env := env w |}
  end.

(** Lines 130-132 of [loadAndPlay]. *)
Definition loadAndPlay (d : decoded Image) (w : world Image)
  : world Image * list event :=
  let p := this w in
  play {| this := {| isPlaying := isPlaying p;
                     currentFrame := currentFrame p;
                     animationId := animationId p;
                     this_decoded := Some d |};
          env := env w |}.

(** The pending timeout [id] elapses: its callback (line 193) requests an
    animation frame. *)
Definition timeout_fires (id : nat) (w : world Image) : world Image :=
  if in_dec Nat.eq_dec id (timeouts (env w)) then
    let h := {| timeouts := remove Nat.eq_dec id (timeouts (env w));
                frameRequests := frameRequests (env w);
                nextTimeout := nextTimeout (env w);
                nextRequest := nextRequest (env w) |} in
    {| this := this w; env := snd (requestAnimationFrame h) |}
  else w.

(** The pending animation-frame request [id] is served: its callback runs
    [animate()]. *)
Definition frame_fires (id : nat) (w : world Image) : world Image * list event :=
  if in_dec Nat.eq_dec id (frameRequests (env w)) then
    animate {| this := this w;
               env := cancelAnimationFrame id (env w) |}
  else (w, []).

(** What may happen to a player: a call of one of its methods, or one of
    its pending callbacks running. *)
Inductive action : Type :=
| Play
| Pause
| TimeoutFires (id : nat)
| FrameFires (id : nat).

Definition step (a : action) (w : world Image) : world Image * list event :=
  match a with
  | Play => play w
  | Pause => (pause w, [])
  | TimeoutFires id => (timeout_fires id w, [])
  | FrameFires id => frame_fires id w
  end.

Fixpoint run (l : list action) (w : world Image) : world Image * list event :=
  match l with
  | [] => (w, [])
  | a :: l' =>
      let '(w1, e1) := step a w in
      let '(w2, e2) := run l' w1 in
      (w2, e1 ++ e2)
  end.

(** [n] consecutive runs of the tick function. *)
Fixpoint ticks (n : nat) (w : world Image) : world Image * list event :=
  match n with
  | O => (w, [])
  | S n' =>
      let '(w1, e1) := animate w in
      let '(w2, e2) := ticks n' w1 in
      (w2, e1 ++ e2)
  end.

(** The container as the player reads it, out of what the decoder
    resolved to. *)
Definition trigger_of_json (v : json) : option Trigger :=
  match prop v "frame", prop v "audio" with
  | Some (JNum f), Some (JNum a) => Some {| frame := f; audio := a |}
  | _, _ => None
  end.

Fixpoint triggers_of_json (l : list json) : option (list Trigger) :=
  match l with
  | [] => Some []
  | v :: l' =>
      match trigger_of_json v, triggers_of_json l' with
      | Some t, Some ts => Some (t :: ts)
      | _, _ => None
      end
  end.

Definition playable (d : AGIFDecoder.decoded Image) : option (decoded Image) :=
  match prop (AGIFDecoder.header d) "width",
        prop (AGIFDecoder.header d) "height",
        prop (AGIFDecoder.header d) "frameRate",
        prop (AGIFDecoder.header d) "numFrames",
        AGIFDecoder.triggers d with
  | Some (JNum w), Some (JNum h), Some (JNum r), Some (JNum n), JArr l =>
      match triggers_of_json l with
      | Some ts =>
          Some {| frames := AGIFDecoder.frames d;
                  header := {| width := w; height := h; frameRate := r;
                               numFrames := n |};
                  triggers := ts;
                  audioBuffers := AGIFDecoder.audioBuffers d;
                  loop := AGIFDecoder.loop d |}
      | None => None
      end
  | _, _, _, _, _ => None
  end.

End Methods.

(** Equality of triggers and of events is decidable. *)

Definition Trigger_eq_dec (a b : Trigger) : {a = b} + {a <> b}.
Proof.
  decide equality; apply Z.eq_dec.
Defined.

Definition event_eq_dec (a b : event) : {a = b} + {a <> b}.
Proof.
  decide equality; [apply Z.eq_dec | apply Trigger_eq_dec].
Defined.

(** A loaded container whose header count is the number of its frames, as
    the decoder builds it. *)
Definition consistent {Image : Type} (d : decoded Image) : Prop :=
  numFrames (header d) = Z.of_nat (length (frames d)).

(** The actions that are pending callbacks of the host. *)
Definition callback (a : action) : Prop :=
  match a with
  | TimeoutFires _ | FrameFires _ => True
  | Play | Pause => False
  end.

End AGIFPlayer.

(** ** The container of the specification

    The specification describes the codec on a container value: a header,
    the frame payloads, the WAV clips and a trigger map with its loop flag.
    [encode] hands to the encoder of the page what that encoder reads of
    such a value; [decode] reads such a value out of the sections the
    decoder collects (the frame payload is what follows the data-URL prefix
    the decoder puts in front of it). *)

Module Spec.

Record Header : Type := {
  version : bytes;
  width : Z;
  height : Z;
  frameRate : Z;
  audioFormat : bytes;
  numFrames : Z;
  numAudioClips : Z
}.

Record TriggerMap : Type := {
  frame_triggers : list Trigger;
  loop : bool
}.

Record Container : Type := {
  header : Header;
  frames : list bytes;
  audio : list bytes;
  triggerMap : TriggerMap
}.

Definition count_invariants (x : Container) : Prop :=
  numFrames (header x) = Z.of_nat (length (frames x)) /\
  numAudioClips (header x) = Z.of_nat (length (audio x)).

Definition encode (x : Container) : bytes :=
  build_container (frameRate (header x)) (frames x) (audio x)
    (frame_triggers (triggerMap x)).

Definition header_of_json (h : json) : option Header :=
  match prop h "version", prop h "width", prop h "height", prop h "frameRate",
        prop h "audioFormat", prop h "numFrames", prop h "numAudioClips" with
  | Some (JStr v), Some (JNum w), Some (JNum ht), Some (JNum r),
    Some (JStr a), Some (JNum n), Some (JNum c) =>
      Some {| version := v; width := w; height := ht; frameRate := r;
              audioFormat := a; numFrames := n; numAudioClips := c |}
  | _, _, _, _, _, _, _ => None
  end.

Definition triggerMap_of_json (t : json) : option TriggerMap :=
  match AGIFDecoder.frame_triggers t with
  | JArr l =>
      match AGIFPlayer.triggers_of_json l with
      | Some ts =>
          Some {| frame_triggers := ts; loop := AGIFDecoder.loop_flag t |}
      | None => None
      end
  | _ => None
  end.

Definition payload_of_dataURL (url : bytes) : bytes :=
  skipn (length (txt "data:image/png;base64,")) url.

Definition container_of_sections (s : AGIFDecoder.sections) : option Container :=
  match header_of_json (AGIFDecoder.s_header s),
        triggerMap_of_json (AGIFDecoder.s_triggers s) with
  | Some h, Some t =>
      Some {| header := h;
              frames := map payload_of_dataURL (AGIFDecoder.s_frameData s);
              audio := AGIFDecoder.s_audioData s;
              triggerMap := t |}
  | _, _ => None
  end.

Definition decode (arrayBuffer : bytes) : option Container :=
  match AGIFDecoder.decode_sections JSON_parse arrayBuffer with
  | Ok s => container_of_sections s
  | Err _ => None
  end.

(** The container with the constants the encoder writes: version 1.0,
    300 x 300, WAV audio, looping. *)
Definition as_written (x : Container) : Container :=
  {| header := {| version := txt "1.0"; width := 300; height := 300;
                  frameRate := frameRate (header x);
                  audioFormat := txt "wav";
                  numFrames := numFrames (header x);
                  numAudioClips := numAudioClips (header x) |};
     frames := frames x;
     audio := audio x;
     triggerMap := {| frame_triggers := frame_triggers (triggerMap x);
                      loop := true |} |}.

Definition with_loop (b : bool) (x : Container) : Container :=
  {| header := header x;
     frames := frames x;
     audio := audio x;
     triggerMap := {| frame_triggers := frame_triggers (triggerMap x);
                      loop := b |} |}.

(** A frame payload is base64 text, as [toDataURL] yields it: letters,
    digits, [+], [/] and the padding [=]. *)
Definition is_base64_char (c : byte) : bool :=
  let n := Z_of_byte c in
  ((65 <=? n) && (n <=? 90)) || ((97 <=? n) && (n <=? 122))
  || ((48 <=? n) && (n <=? 57)) || (n =? 43) || (n =? 47) || (n =? 61).

Definition is_base64 (payload : bytes) : bool :=
  forallb is_base64_char payload.

End Spec.

(** A container is valid when the decoder reads its sections to the end. *)
Definition valid_container (parseJSON : bytes -> option json) (buf : bytes) : Prop :=
  exists s, AGIFDecoder.decode_sections parseJSON buf = Ok s.

(** The signed number held by two octets, least significant first. *)
Definition int16_le (data : bytes) : Z :=
  match data with
  | [b0; b1] =>
      let u := Z_of_byte b0 + 256 * Z_of_byte b1 in
      if 32768 <=? u then u - 65536 else u
  | _ => 0
  end.

(** Examples. *)

Definition example_container : Spec.Container :=
  {| Spec.header := {| Spec.version := txt "1.0"; Spec.width := 300;
                       Spec.height := 300; Spec.frameRate := 10;
                       Spec.audioFormat := txt "wav"; Spec.numFrames := 2;
                       Spec.numAudioClips := 1 |};
     Spec.frames := [txt "iVBORw0KGgo="; txt "iVBORw0KGgp="];
     Spec.audio := [txt "RIFF$"];
     Spec.triggerMap := {| Spec.frame_triggers := [{| frame := 0; audio := 0 |}];
                           Spec.loop := true |} |}.

Definition example_buffer : bytes := Spec.encode example_container.

Definition silent_clip : Wav.AudioBuffer :=
  {| Wav.channels := [[Wav.Finite 0]]; Wav.sampleRate := 8000; Wav.length := 1 |}.

(** Two sample frames on two channels; the last sample lies outside the
    nominal range. *)
Definition stereo_clip : Wav.AudioBuffer :=
  {| Wav.channels := [[Wav.Finite (1 # 2); Wav.Finite (-1)];
                      [Wav.Finite 0; Wav.Finite 2]];
     Wav.sampleRate := 44100; Wav.length := 2 |}.

Definition example_decoded : AGIFPlayer.decoded nat :=
  {| AGIFPlayer.frames := [0; 1; 2]%nat;
     AGIFPlayer.header := {| AGIFPlayer.width := 300; AGIFPlayer.height := 300;
                             AGIFPlayer.frameRate := 10;
                             AGIFPlayer.numFrames := 3 |};
     AGIFPlayer.triggers := [{| frame := 1; audio := 0 |};
                             {| frame := 1; audio := 7 |}];
     AGIFPlayer.audioBuffers := [silent_clip];
     AGIFPlayer.loop := false |}.

Definition example_world : AGIFPlayer.world nat :=
  {| AGIFPlayer.this :=
       {| AGIFPlayer.isPlaying := false; AGIFPlayer.currentFrame := 0;
          AGIFPlayer.animationId := None;
          AGIFPlayer.this_decoded := Some example_decoded |};
     AGIFPlayer.env :=
       {| AGIFPlayer.timeouts := []; AGIFPlayer.frameRequests := [];
          AGIFPlayer.nextTimeout := 5; AGIFPlayer.nextRequest := 9 |} |}.

Definition example_session : session nat :=
  {| images := [0; 1]%nat; audioFiles := [7]%nat;
     triggers := [{| frame := 1; audio := 0 |}];
     title := txt "output"; frameRate := 10 |}.

Definition playing_world : AGIFPlayer.world nat :=
  {| AGIFPlayer.this := {| AGIFPlayer.isPlaying := true; AGIFPlayer.currentFrame := 0; AGIFPlayer.animationId := None;
                AGIFPlayer.this_decoded := Some example_decoded |};
     AGIFPlayer.env := AGIFPlayer.env example_world |}.

Definition unloaded_world : AGIFPlayer.world nat :=
  {| AGIFPlayer.this := AGIFPlayer.new_player nat;
     AGIFPlayer.env := AGIFPlayer.env example_world |}.

Definition second_frame_world : AGIFPlayer.world nat :=
  {| AGIFPlayer.this := {| AGIFPlayer.isPlaying := true; AGIFPlayer.currentFrame := 1; AGIFPlayer.animationId := None;
                AGIFPlayer.this_decoded := Some example_decoded |};
     AGIFPlayer.env := AGIFPlayer.env example_world |}.

(** A container without frames, one with a single frame, and a player
    that shows the last frame of [example_decoded] while the request of its
    next tick is pending. *)
Definition empty_decoded : AGIFPlayer.decoded nat :=
  {| AGIFPlayer.frames := [];
     AGIFPlayer.header := {| AGIFPlayer.width := 300; AGIFPlayer.height := 300;
                             AGIFPlayer.frameRate := 10;
                             AGIFPlayer.numFrames := 0 |};
     AGIFPlayer.triggers := [{| frame := 0; audio := 0 |}];
     AGIFPlayer.audioBuffers := [silent_clip];
     AGIFPlayer.loop := false |}.

Definition empty_world : AGIFPlayer.world nat :=
  {| AGIFPlayer.this :=
       {| AGIFPlayer.isPlaying := false; AGIFPlayer.currentFrame := 0;
          AGIFPlayer.animationId := None;
          AGIFPlayer.this_decoded := Some empty_decoded |};
     AGIFPlayer.env := AGIFPlayer.env example_world |}.

Definition short_decoded : AGIFPlayer.decoded nat :=
  {| AGIFPlayer.frames := [4]%nat;
     AGIFPlayer.header := {| AGIFPlayer.width := 300; AGIFPlayer.height := 300;
                             AGIFPlayer.frameRate := 10;
                             AGIFPlayer.numFrames := 1 |};
     AGIFPlayer.triggers := [];
     AGIFPlayer.audioBuffers := [];
     AGIFPlayer.loop := false |}.

Definition last_frame_world : AGIFPlayer.world nat :=
  {| AGIFPlayer.this :=
       {| AGIFPlayer.isPlaying := true; AGIFPlayer.currentFrame := 2;
          AGIFPlayer.animationId := Some 5%nat;
          AGIFPlayer.this_decoded := Some example_decoded |};
     AGIFPlayer.env :=
       {| AGIFPlayer.timeouts := []; AGIFPlayer.frameRequests := [9%nat];
          AGIFPlayer.nextTimeout := 6; AGIFPlayer.nextRequest := 10 |} |}.

(** ** The authoring page (script.js, lines 211-326)

    The page keeps the globals of [session] and, for every uploaded image,
    one [select] element whose value is the empty string ("No Audio") or
    the index of an audio file, printed by the template of line 259.  The
    handlers of the title and of the frame rate read their value from the
    markup of the page and are not modelled.  Events are handled one at a
    time: no upload arrives while a creation is in progress.  Line 259
    writes the name of every audio file into the markup unescaped: the
    selects are as the template shows them when no name holds a [<]; with
    such a name the model leaves what a select shows to the host and lets
    any value be chosen, and a script that such markup may run is not
    modelled. *)

Module AuthoringPage.

(** [parseInt(string)] without a radix: leading blanks, a sign, a
    hexadecimal prefix, then the longest run of digits; [None] is NaN.
    (Blanks are the ASCII ones.) *)
Definition is_blank (n : Z) : bool := (n =? 32) || ((9 <=? n) && (n <=? 13)).

Fixpoint skip_blanks (s : bytes) : bytes :=
  match s with
  | c :: s' => if is_blank (Z_of_byte c) then skip_blanks s' else s
  | [] => []
  end.

Definition digit_of (radix : Z) (c : byte) : option Z :=
  let n := Z_of_byte c in
  let d := if is_digit n then n - 48
           else if is_lower n then n - 87
           else if (65 <=? n) && (n <=? 90) then n - 55
           else radix in
  if d <? radix then Some d else None.

Fixpoint digits_prefix (radix : Z) (acc : option Z) (s : bytes) : option Z :=
  match s with
  | [] => acc
  | c :: s' =>
      match digit_of radix c with
      | Some d =>
          digits_prefix radix
            (Some (radix * match acc with Some a => a | None => 0 end + d)) s'
      | None => acc
      end
  end.

Definition parseInt (s : bytes) : option Z :=
  let s := skip_blanks s in
  let '(neg, s) :=
    match s with
    | c :: r =>
        if Z_of_byte c =? 45 then (true, r)
        else if Z_of_byte c =? 43 then (false, r)
        else (false, s)
    | [] => (false, [])
    end in
  let '(radix, s) :=
    match s with
    | c0 :: c1 :: r =>
        if (Z_of_byte c0 =? 48) && ((Z_of_byte c1 =? 120) || (Z_of_byte c1 =? 88))
        then (16, r) else (10, s)
    | _ => (10, s)
    end in
  option_map (fun v => if neg then - v else v) (digits_prefix radix None s).

Record page (File : Type) : Type := {
  globals : session File;
  selects : list bytes      (* the value of audioSelect0, audioSelect1, ... *)
}.

Arguments globals {File} p.
Arguments selects {File} p.

(** What the trigger collection of lines 275-281 comes to: the list, a
    [TypeError] because a select is missing, or a list that holds a NaN
    index, which [Trigger] does not represent. *)
Inductive collected : Type :=
| Collected (triggers : list Trigger)
| SelectMissing
| IndexNaN.

(** What a click on the process button comes to (lines 268-291). *)
Inductive processed : Type :=
| NoImageAlert                (* "Please upload at least one image." *)
| Created (agif : bytes)      (* the download link of line 287 *)
| ErrorAlert (e : error)      (* "Error creating AudiGIF: ..." *)
| Waiting                     (* the creation never settles: no link, no alert *)
| Uncaught (e : error)        (* an exception outside the try block *)
| NotRepresented.             (* a NaN index among the triggers *)

(** A file name that brings no markup into the template of line 259: it
    holds no [<]. *)
Definition plain_name (s : bytes) : bool := negb (existsb (Byte.eqb x3c) s).

(** [l] with its element [index] replaced, when there is one. *)
Fixpoint replace_nth (index : nat) (v : bytes) (l : list bytes) : list bytes :=
  match l, index with
  | [], _ => []
  | _ :: l', O => v :: l'
  | x :: l', S i => x :: replace_nth i v l'
  end.

Section Handlers.

Variable File : Type.
(** [audio.name], which line 259 writes into the markup of every select. *)
Variable name : File -> bytes.
(** What the select of a frame shows once the host has parsed markup that
    holds the names of these audio files, when a name is not plain. *)
Variable shown : list File -> nat -> bytes.
Variable canvasToBase64 : File -> option bytes.
Variable decodeAudioFile : File -> option Wav.AudioBuffer.

(** The page as the script finds it (lines 212-216). *)
Definition initial : page File :=
  {| globals := {| images := []; audioFiles := []; triggers := [];
                   title := txt "output"; frameRate := 10 |};
     selects := [] |}.

(** The name of an audio file of the page holds markup. *)
Definition has_markup (p : page File) : bool :=
  negb (forallb (fun audio => plain_name (name audio)) (audioFiles (globals p))).

(** The values of the options that lines 257-260 write into a select: the
    empty one and the index of every audio file.  These are all the
    options of the select when the names are plain; a name with markup may
    add others. *)
Definition option_values (p : page File) : list bytes :=
  [] :: map (fun i => Number_toString (Z.of_nat i))
          (seq 0 (length (audioFiles (globals p)))).

(** [updateFrameList()] (lines 247-265): the list is rebuilt, one select
    for each image.  With plain names each select shows its first option;
    otherwise it shows what the host makes of the markup. *)
Definition updateFrameList (p : page File) : page File :=
  {| globals := globals p;
     selects := map (fun index =>
                       if has_markup p
                       then shown (audioFiles (globals p)) index
                       else [])
                  (seq 0 (length (images (globals p)))) |}.

(** Lines 235-238. *)
Definition upload_images (files : list File) (p : page File) : page File :=
  updateFrameList
    {| globals := {| images := files;
                     audioFiles := audioFiles (globals p);
                     triggers := triggers (globals p);
                     title := title (globals p);
                     frameRate := frameRate (globals p) |};
       selects := selects p |}.

(** Lines 241-244. *)
Definition upload_audio (files : list File) (p : page File) : page File :=
  updateFrameList
    {| globals := {| images := images (globals p);
                     audioFiles := files;
                     triggers := triggers (globals p);
                     title := title (globals p);
                     frameRate := frameRate (globals p) |};
       selects := selects p |}.

(** The user picks, in the select of frame [index], the option [value].
    The browser offers the options of the select only; when a name holds
    markup these may have any value. *)
Definition choose (index : nat) (value : bytes) (p : page File) : page File :=
  if existsb (bytes_eqb value) (option_values p) || has_markup p
  then {| globals := globals p; selects := replace_nth index value (selects p) |}
  else p.

(** Lines 275-281, from the image [index] on. *)
Fixpoint collect_from (index : nat) (images : list File) (selects : list bytes)
  : collected :=
  match images with
  | [] => Collected []
  | _ :: images' =>
      match nth_error selects index with
      | None => SelectMissing
      | Some audioIndex =>
          let rest := collect_from (S index) images' selects in
          match audioIndex with
          | [] => rest
          | _ =>
              match parseInt audioIndex, rest with
              | _, SelectMissing => SelectMissing
              | Some a, Collected ts =>
                  Collected ({| frame := Z.of_nat index; audio := a |} :: ts)
              | _, _ => IndexNaN
              end
          end
      end
  end.

(** The click handler of the process button (lines 268-291). *)
Definition process (p : page File) : page File * processed :=
  match images (globals p) with
  | [] => (p, NoImageAlert)
  | _ =>
      match collect_from 0 (images (globals p)) (selects p) with
      | SelectMissing => (p, Uncaught TypeError)
      | IndexNaN => (p, NotRepresented)
      | Collected ts =>
          let g := {| images := images (globals p);
                      audioFiles := audioFiles (globals p);
                      triggers := ts;
                      title := title (globals p);
                      frameRate := frameRate (globals p) |} in
          ({| globals := g; selects := selects p |},
           match createAudiGIF File canvasToBase64 decodeAudioFile g with
           | Ok agif => Created agif
           | Err Unsettled => Waiting
           | Err e => ErrorAlert e
           end)
      end
  end.

(** What the user does on the page. *)
Inductive event : Type :=
| UploadImages (files : list File)
| UploadAudio (files : list File)
| Choose (index : nat) (value : bytes)
| Process.

Definition handle (e : event) (p : page File) : page File :=
  match e with
  | UploadImages files => upload_images files p
  | UploadAudio files => upload_audio files p
  | Choose index value => choose index value p
  | Process => fst (process p)
  end.

Definition session_of (l : list event) : page File :=
  fold_left (fun p e => handle e p) l initial.

(** No audio file uploaded in the session has a name with markup, so the
    markup of the page is that of the script at every moment. *)
Definition plain_upload (e : event) : bool :=
  match e with
  | UploadAudio files => forallb (fun audio => plain_name (name audio)) files
  | _ => true
  end.

Definition plain_session (l : list event) : bool := forallb plain_upload l.

(** The selects match the images, and each shows one of its options. *)
Definition page_ok (p : page File) : Prop :=
  length (selects p) = length (images (globals p)) /\
  Forall (fun v => In v (option_values p)) (selects p).

(** The host functions of the decoder, for the preview. *)
Variable Image : Type.
Variable loadImage : bytes -> option Image.
Variable decodeAudioData : bytes -> option Wav.AudioBuffer.

(** What a click on the preview button comes to (lines 294-326): the
    alert, an exception outside the [try] block, the status "Preview
    failed: ..." for a rejected creation or a rejected decoding, a
    creation that never settles, or a new player on which [loadAndPlay]
    has run; a [Thrown] among the events of that run is a rejection of
    [loadAndPlay], which the status reports as well. *)
Inductive previewed : Type :=
| PreviewNoImageAlert
| PreviewUncaught (e : error)
| PreviewNotRepresented
| PreviewFailed (e : error)
| PreviewWaiting
| PreviewStarted (w : AGIFPlayer.world Image) (events : list AGIFPlayer.event).

(** The click handler of the preview button; [h] is the host as the click
    finds it. *)
Definition preview (h : AGIFPlayer.host) (p : page File)
  : page File * previewed :=
  match images (globals p) with
  | [] => (p, PreviewNoImageAlert)
  | _ =>
      match collect_from 0 (images (globals p)) (selects p) with
      | SelectMissing => (p, PreviewUncaught TypeError)
      | IndexNaN => (p, PreviewNotRepresented)
      | Collected ts =>
          let g := {| images := images (globals p);
                      audioFiles := audioFiles (globals p);
                      triggers := ts;
                      title := title (globals p);
                      frameRate := frameRate (globals p) |} in
          ({| globals := g; selects := selects p |},
           match createAudiGIF File canvasToBase64 decodeAudioFile g with
           | Err Unsettled => PreviewWaiting
           | Err e => PreviewFailed e
           | Ok agif =>
               match AGIFDecoder.decode JSON_parse Image loadImage
                       decodeAudioData agif with
               | Err e => PreviewFailed e
               | Ok decoded =>
                   match AGIFPlayer.playable Image decoded with
                   | None => PreviewNotRepresented
                   | Some d =>
                       let previewPlayer :=
                         {| AGIFPlayer.this := AGIFPlayer.new_player Image;
                            AGIFPlayer.env := h |} in
                       let '(w, events) :=
                         AGIFPlayer.loadAndPlay Image d previewPlayer in
                       PreviewStarted w events
                   end
               end
           end)
      end
  end.

End Handlers.

End AuthoringPage.

(** A visit of the page: two images, one audio file, the file chosen for
    the second image. *)
Definition example_visit : list (AuthoringPage.event nat) :=
  [AuthoringPage.UploadImages nat [0; 1]%nat;
   AuthoringPage.UploadAudio nat [7]%nat;
   AuthoringPage.Choose nat 1 (txt "0")].

Definition example_canvas (file : nat) : option bytes :=
  Some (txt "iVBORw0KGgo=").

Definition example_name (file : nat) : bytes := txt "clip.wav".

Definition example_shown (audioFiles : list nat) (index : nat) : bytes := [].

Definition example_audio (file : nat) : option Wav.AudioBuffer :=
  Some silent_clip.

(** ** Statements about runs of the scheduler *)

(** The frame on display after [k] ticks from frame [c] of [n] frames. *)
Definition frame_after (n c : Z) (k : nat) : Z := (c + Z.of_nat k) mod n.

(** What one tick on frame [f] shows. *)
Definition tick_events {Image : Type} (d : AGIFPlayer.decoded Image) (f : Z)
  : list AGIFPlayer.event :=
  AGIFPlayer.Draw f
  :: AGIFPlayer.fire (AGIFPlayer.audioBuffers d) f (AGIFPlayer.triggers d).

(** The callbacks of the host that are pending. *)
Definition pending {Image : Type} (w : AGIFPlayer.world Image) : nat :=
  length (AGIFPlayer.timeouts (AGIFPlayer.env w))
  + length (AGIFPlayer.frameRequests (AGIFPlayer.env w)).

(** The timing loop is single: at most one callback is pending, and none
    when the player is not playing. *)
Definition single_loop {Image : Type} (w : AGIFPlayer.world Image) : Prop :=
  (pending w <= 1)%nat /\
  (AGIFPlayer.isPlaying (AGIFPlayer.this w) = false -> pending w = O).

(** * Properties *)

(** ** Octets *)

Lemma Z_of_byte_range (b : byte) : 0 <= Z_of_byte b < 256.
Proof.
  unfold Z_of_byte. pose proof (Byte.to_N_bounded b). lia.
Qed.

Lemma Z_of_byte_of_Z (z : Z) : Z_of_byte (byte_of_Z z) = z mod 256.
Proof.
  unfold Z_of_byte, byte_of_Z.
  pose proof (Z.mod_pos_bound z 256 ltac:(lia)) as Hr.
  destruct (Byte.of_N (Z.to_N (z mod 256))) as [b|] eqn:E.
  - apply Byte.to_of_N in E. rewrite E. lia.
  - apply Byte.of_N_None_iff in E. lia.
Qed.

Lemma byte_of_Z_of_byte (b : byte) : byte_of_Z (Z_of_byte b) = b.
Proof.
  unfold byte_of_Z, Z_of_byte.
  pose proof (Byte.to_N_bounded b) as Hb.
  rewrite Z.mod_small by lia.
  rewrite N2Z.id, Byte.of_to_N. reflexivity.
Qed.

Lemma Z_of_byte_inj (a b : byte) : Z_of_byte a = Z_of_byte b -> a = b.
Proof.
  intros H. rewrite <- (byte_of_Z_of_byte a), <- (byte_of_Z_of_byte b), H.
  reflexivity.
Qed.

Lemma bytes_eqb_eq (a b : bytes) : bytes_eqb a b = true <-> a = b.
Proof.
  revert b. induction a as [|x a IH]; intros [|y b]; simpl;
    try (split; [discriminate | discriminate]); try tauto.
  rewrite andb_true_iff, IH. split.
  - intros [H1 H2]. apply Byte.byte_dec_bl in H1. congruence.
  - intros H. injection H as -> ->. split; [apply Byte.byte_dec_lb|]; reflexivity.
Qed.

Lemma bytes_eqb_refl (a : bytes) : bytes_eqb a a = true.
Proof. apply bytes_eqb_eq. reflexivity. Qed.

Lemma bytes_eqb_neq (a b : bytes) : a <> b -> bytes_eqb a b = false.
Proof.
  intros H. destruct (bytes_eqb a b) eqn:E; [|reflexivity].
  apply bytes_eqb_eq in E. contradiction.
Qed.

Lemma byteLength_app (a b : bytes) : byteLength (a ++ b) = byteLength a + byteLength b.
Proof. unfold byteLength. rewrite length_app. lia. Qed.

Lemma byteLength_nonneg (a : bytes) : 0 <= byteLength a.
Proof. unfold byteLength. lia. Qed.

(** ** Views and reads *)

Lemma view_fits (off len n : Z) :
  0 <= off -> 0 <= len -> off + len <= n ->
  (0 <=? off) && (0 <=? len) && (off + len <=? n) = true.
Proof.
  intros. rewrite !andb_true_iff, !Z.leb_le. auto.
Qed.

Lemma Uint8Array_inv (buf : bytes) (off len : Z) (v : bytes) :
  Uint8Array buf off len = Ok v ->
  0 <= off /\ 0 <= len /\ off + len <= byteLength buf /\
  v = firstn (Z.to_nat len) (skipn (Z.to_nat off) buf).
Proof.
  unfold Uint8Array.
  destruct ((0 <=? off) && (0 <=? len) && (off + len <=? byteLength buf)) eqn:E;
    [|discriminate].
  intros H. injection H as <-.
  apply andb_true_iff in E as [E E3]. apply andb_true_iff in E as [E1 E2].
  repeat split; lia.
Qed.

Lemma Uint8Array_out (buf : bytes) (off len : Z) :
  byteLength buf < off + len -> Uint8Array buf off len = Err RangeError.
Proof.
  intros H. unfold Uint8Array.
  replace (off + len <=? byteLength buf) with false by (symmetry; apply Z.leb_gt; lia).
  rewrite andb_false_r. reflexivity.
Qed.

(** A view that fits a prefix of the buffer is the same view of the prefix;
    one that does not fit is refused. *)
Lemma Uint8Array_firstn (buf : bytes) (off len : Z) (v : bytes) (k : nat) :
  Uint8Array buf off len = Ok v ->
  Uint8Array (firstn k buf) off len =
    if off + len <=? Z.of_nat k then Ok v else Err RangeError.
Proof.
  intros H. apply Uint8Array_inv in H as (H0 & H1 & H2 & ->).
  unfold byteLength in H2.
  destruct (off + len <=? Z.of_nat k) eqn:E.
  - apply Z.leb_le in E. unfold Uint8Array, byteLength.
    rewrite length_firstn, view_fits by lia.
    f_equal. rewrite skipn_firstn_comm, firstn_firstn. f_equal. lia.
  - apply Z.leb_gt in E. apply Uint8Array_out.
    unfold byteLength. rewrite length_firstn. lia.
Qed.

Lemma Uint8Array_app (buf extra : bytes) (off len : Z) (v : bytes) :
  Uint8Array buf off len = Ok v ->
  Uint8Array (buf ++ extra) off len = Ok v.
Proof.
  intros H. apply Uint8Array_inv in H as (H0 & H1 & H2 & ->).
  unfold Uint8Array. rewrite byteLength_app.
  pose proof (byteLength_nonneg extra).
  rewrite view_fits by lia.
  unfold byteLength in H2.
  f_equal. rewrite skipn_app, firstn_app.
  replace (Z.to_nat len - length (skipn (Z.to_nat off) buf))%nat with O
    by (rewrite length_skipn; lia).
  simpl. apply app_nil_r.
Qed.

(** The view of the part [data] of a buffer [pre ++ data ++ post]. *)
Lemma Uint8Array_at (pre data post : bytes) (off len : Z) :
  off = byteLength pre -> len = byteLength data ->
  Uint8Array (pre ++ data ++ post) off len = Ok data.
Proof.
  intros -> ->. unfold Uint8Array. rewrite !byteLength_app.
  pose proof (byteLength_nonneg pre). pose proof (byteLength_nonneg data).
  pose proof (byteLength_nonneg post).
  rewrite view_fits by lia.
  unfold byteLength. rewrite !Nat2Z.id.
  rewrite skipn_app, skipn_all, Nat.sub_diag. simpl.
  rewrite firstn_app, firstn_all, Nat.sub_diag. simpl.
  rewrite app_nil_r. reflexivity.
Qed.

Lemma getUint32_inv (buf : bytes) (off n : Z) :
  getUint32 buf off = Ok n -> 0 <= off /\ off + 4 <= byteLength buf /\ 0 <= n.
Proof.
  unfold getUint32. destruct (Uint8Array buf off 4) as [v|] eqn:E; cbn [bind];
    [|discriminate].
  apply Uint8Array_inv in E as (H0 & _ & H2 & _).
  destruct v as [|b0 [|b1 [|b2 [|b3 [|]]]]]; try discriminate.
  intros H. injection H as <-. unfold uint32_le.
  pose proof (Z_of_byte_range b0). pose proof (Z_of_byte_range b1).
  pose proof (Z_of_byte_range b2). pose proof (Z_of_byte_range b3). lia.
Qed.

Lemma getUint32_firstn (buf : bytes) (off n : Z) (k : nat) :
  getUint32 buf off = Ok n ->
  getUint32 (firstn k buf) off =
    if off + 4 <=? Z.of_nat k then Ok n else Err RangeError.
Proof.
  unfold getUint32. destruct (Uint8Array buf off 4) as [v|] eqn:E; cbn [bind];
    [|discriminate].
  intros H. rewrite (Uint8Array_firstn _ _ _ _ k E).
  destruct (off + 4 <=? Z.of_nat k); cbn [bind]; [exact H | reflexivity].
Qed.

Lemma getUint32_app (buf extra : bytes) (off n : Z) :
  getUint32 buf off = Ok n -> getUint32 (buf ++ extra) off = Ok n.
Proof.
  unfold getUint32. destruct (Uint8Array buf off 4) as [v|] eqn:E; cbn [bind];
    [|discriminate].
  intros H. rewrite (Uint8Array_app _ extra _ _ _ E). exact H.
Qed.

Lemma le32_value (n : Z) :
  uint32_le (byte_of_Z n) (byte_of_Z (n / 256)) (byte_of_Z (n / 65536))
    (byte_of_Z (n / 16777216)) = n mod 4294967296.
Proof.
  unfold uint32_le. rewrite !Z_of_byte_of_Z.
  pose proof (Z.div_mod n 256 ltac:(lia)).
  pose proof (Z.div_mod (n / 256) 256 ltac:(lia)).
  pose proof (Z.div_mod (n / 256 / 256) 256 ltac:(lia)).
  pose proof (Z.div_mod (n / 256 / 256 / 256) 256 ltac:(lia)).
  pose proof (Z.mod_pos_bound n 256 ltac:(lia)).
  pose proof (Z.mod_pos_bound (n / 256) 256 ltac:(lia)).
  pose proof (Z.mod_pos_bound (n / 256 / 256) 256 ltac:(lia)).
  pose proof (Z.mod_pos_bound (n / 256 / 256 / 256) 256 ltac:(lia)).
  replace (n / 65536) with (n / 256 / 256)
    by (rewrite Z.div_div by lia; reflexivity).
  replace (n / 16777216) with (n / 256 / 256 / 256)
    by (rewrite !Z.div_div by lia; reflexivity).
  apply Z.mod_unique with (q := n / 256 / 256 / 256 / 256); lia.
Qed.

Lemma getUint32_at (pre post : bytes) (off n : Z) :
  off = byteLength pre -> 0 <= n < 4294967296 ->
  getUint32 (pre ++ le32 n ++ post) off = Ok n.
Proof.
  intros -> Hn. unfold getUint32.
  rewrite (Uint8Array_at pre (le32 n) post) by reflexivity.
  unfold le32. cbn [bind]. rewrite le32_value.
  rewrite Z.mod_small by lia. reflexivity.
Qed.

(** ** The decoder on prefixes and on extensions of a buffer *)

Section DecoderFacts.

Variable parseJSON : bytes -> option json.
Variable Image : Type.
Variable loadImage : bytes -> option Image.
Variable decodeAudioData : bytes -> option Wav.AudioBuffer.

Local Abbreviation read_container := (AGIFDecoder.read_container parseJSON).
Local Abbreviation decode_sections := (AGIFDecoder.decode_sections parseJSON).
Local Abbreviation decode :=
  (AGIFDecoder.decode parseJSON Image loadImage decodeAudioData).

(** One step of a run that is known to succeed: name the value read. *)
Ltac read_ok H x E :=
  match type of H with
  | bind ?r _ = Ok _ =>
      destruct r as [x|] eqn:E; cbn [bind] in H; [|discriminate H]
  end.

Lemma read_payloads_bounds (wrap : bytes -> bytes) (buf : bytes) (n : nat) :
  forall off l off',
    0 <= off <= byteLength buf ->
    AGIFDecoder.read_payloads wrap buf n off = Ok (l, off') ->
    off <= off' <= byteLength buf.
Proof.
  induction n as [|n IH]; intros off l off' Hoff H; simpl in H.
  - injection H as <- <-. lia.
  - read_ok H len E1. read_ok H v E2. read_ok H r E3.
    apply getUint32_inv in E1 as (_ & _ & Ha).
    apply Uint8Array_inv in E2 as (_ & _ & Hb & _).
    destruct r as [l1 o1]. injection H as <- <-.
    apply IH in E3; simpl; lia.
Qed.

Lemma read_payloads_firstn (wrap : bytes -> bytes) (buf : bytes) (k n : nat) :
  forall off l off',
    AGIFDecoder.read_payloads wrap buf n off = Ok (l, off') ->
    AGIFDecoder.read_payloads wrap (firstn k buf) n off = Ok (l, off') \/
    AGIFDecoder.read_payloads wrap (firstn k buf) n off = Err RangeError.
Proof.
  induction n as [|n IH]; intros off l off' H; simpl in H |- *.
  - left. exact H.
  - read_ok H len E1. read_ok H v E2. read_ok H r E3.
    rewrite (getUint32_firstn _ _ _ k E1).
    destruct (off + 4 <=? Z.of_nat k); cbn [bind]; [|right; reflexivity].
    rewrite (Uint8Array_firstn _ _ _ _ k E2).
    destruct (off + 4 + len <=? Z.of_nat k); cbn [bind]; [|right; reflexivity].
    destruct r as [l1 o1].
    destruct (IH _ _ _ E3) as [-> | ->]; cbn [bind];
      [left; exact H | right; reflexivity].
Qed.

Lemma read_payloads_app (wrap : bytes -> bytes) (buf extra : bytes) (n : nat) :
  forall off l off',
    AGIFDecoder.read_payloads wrap buf n off = Ok (l, off') ->
    AGIFDecoder.read_payloads wrap (buf ++ extra) n off = Ok (l, off').
Proof.
  induction n as [|n IH]; intros off l off' H; simpl in H |- *.
  - exact H.
  - read_ok H len E1. read_ok H v E2. read_ok H r E3.
    rewrite (getUint32_app _ extra _ _ E1). cbn [bind].
    rewrite (Uint8Array_app _ extra _ _ _ E2). cbn [bind].
    destruct r as [l1 o1]. rewrite (IH _ _ _ E3). exact H.
Qed.

(** The steps of [read_container] up to the two section loops, on a run
    that succeeds. *)
Ltac read_header H :=
  unfold AGIFDecoder.read_container in H;
  read_ok H ident:(magic) ident:(Em);
  destruct (negb (bytes_eqb (TextDecoder_decode _) (txt "AGIF")))
    eqn:Emagic; [discriminate H|];
  read_ok H ident:(headerLen) ident:(Ehl);
  read_ok H ident:(headerView) ident:(Ehv);
  read_ok H ident:(hd) ident:(Ehd);
  destruct (is_null _) eqn:Enull; [discriminate H|];
  cbv zeta in H;
  destruct (negb (json_is_string (prop _ "version") "1.0")
            || negb (json_is_string (prop _ "audioFormat") "wav"))
    eqn:Ever; [discriminate H|];
  destruct (conversion_throws (prop _ "numFrames")) eqn:Etf; [discriminate H|].

(** The second loop starts: its count converts. *)
Ltac read_clips H :=
  destruct (conversion_throws (prop _ "numAudioClips")) eqn:Eta;
    [discriminate H|].

(** A container read to its very end is not read from a proper prefix: some
    view no longer fits. *)
Lemma read_container_firstn (buf : bytes) (s : AGIFDecoder.sections) (k : nat) :
  read_container buf = Ok (s, byteLength buf) ->
  (k < length buf)%nat ->
  read_container (firstn k buf) = Err RangeError.
Proof.
  intros H Hk. read_header H. unfold AGIFDecoder.read_container.
  rewrite (Uint8Array_firstn _ _ _ _ k Em).
  destruct (0 + 4 <=? Z.of_nat k); cbn [bind]; [|reflexivity].
  rewrite Emagic.
  rewrite (getUint32_firstn _ _ _ k Ehl).
  destruct (0 + 4 + 4 <=? Z.of_nat k); cbn [bind]; [|reflexivity].
  rewrite (Uint8Array_firstn _ _ _ _ k Ehv).
  destruct (0 + 4 + 4 + headerLen <=? Z.of_nat k); cbn [bind]; [|reflexivity].
  rewrite Ehd. cbn [bind]. rewrite Enull, Ever, Etf. cbv zeta.
  read_ok H fr Efr. destruct fr as [fd o1].
  destruct (read_payloads_firstn _ _ k _ _ _ _ Efr) as [-> | ->];
    cbn [bind]; [|reflexivity].
  read_clips H.
  read_ok H au Eau. destruct au as [ad o2].
  destruct (read_payloads_firstn _ _ k _ _ _ _ Eau) as [-> | ->];
    cbn [bind]; [|reflexivity].
  read_ok H triggerLen Etl. rewrite (getUint32_firstn _ _ _ k Etl).
  destruct (o2 + 4 <=? Z.of_nat k); cbn [bind]; [|reflexivity].
  read_ok H triggerView Etv. rewrite (Uint8Array_firstn _ _ _ _ k Etv).
  read_ok H tr Etr. injection H as _ Hend.
  replace (o2 + 4 + triggerLen <=? Z.of_nat k) with false; [reflexivity|].
  symmetry. apply Z.leb_gt. unfold byteLength in Hend. lia.
Qed.

Lemma read_container_app (buf extra : bytes) (s : AGIFDecoder.sections) (off : Z) :
  read_container buf = Ok (s, off) ->
  read_container (buf ++ extra) = Ok (s, off).
Proof.
  intros H. read_header H. unfold AGIFDecoder.read_container.
  rewrite (Uint8Array_app _ extra _ _ _ Em). cbn [bind].
  rewrite Emagic.
  rewrite (getUint32_app _ extra _ _ Ehl). cbn [bind].
  rewrite (Uint8Array_app _ extra _ _ _ Ehv). cbn [bind].
  rewrite Ehd. cbn [bind]. rewrite Enull, Ever, Etf. cbv zeta.
  read_ok H fr Efr. destruct fr as [fd o1].
  rewrite (read_payloads_app _ _ extra _ _ _ _ Efr). cbn [bind].
  read_clips H.
  read_ok H au Eau. destruct au as [ad o2].
  rewrite (read_payloads_app _ _ extra _ _ _ _ Eau). cbn [bind].
  read_ok H triggerLen Etl. rewrite (getUint32_app _ extra _ _ Etl). cbn [bind].
  read_ok H triggerView Etv. rewrite (Uint8Array_app _ extra _ _ _ Etv).
  cbn [bind]. exact H.
Qed.

(** The offset reached by a successful read lies inside the buffer. *)
Lemma read_container_bounds (buf : bytes) (s : AGIFDecoder.sections) (off : Z) :
  read_container buf = Ok (s, off) -> 0 <= off <= byteLength buf.
Proof.
  intros H. read_header H.
  apply getUint32_inv in Ehl as (_ & _ & Hhl).
  apply Uint8Array_inv in Ehv as (_ & _ & Hhv & _).
  read_ok H fr Efr. destruct fr as [fd o1].
  apply read_payloads_bounds in Efr; [|lia].
  read_clips H.
  read_ok H au Eau. destruct au as [ad o2].
  apply read_payloads_bounds in Eau; [|lia].
  read_ok H triggerLen Etl. read_ok H triggerView Etv. read_ok H tr Etr.
  apply getUint32_inv in Etl as (_ & _ & Htl).
  apply Uint8Array_inv in Etv as (_ & _ & Htv & _).
  injection H as _ <-. lia.
Qed.

Lemma decode_sections_inv (buf : bytes) (s : AGIFDecoder.sections) :
  decode_sections buf = Ok s -> read_container buf = Ok (s, byteLength buf).
Proof.
  unfold AGIFDecoder.decode_sections. intros H. read_ok H r E.
  destruct r as [s' off].
  destruct (off =? byteLength buf) eqn:Eo; cbn [negb] in H; [|discriminate].
  apply Z.eqb_eq in Eo. injection H as ->. subst off. reflexivity.
Qed.

End DecoderFacts.

(** ** [JSON.parse] reads back what [JSON.stringify] writes *)

Lemma emit_nil (o : option (list token)) : emit [] o = o.
Proof. destruct o; reflexivity. Qed.

Lemma emit_emit (a b : list token) (o : option (list token)) :
  emit a (emit b o) = emit (a ++ b) o.
Proof. destruct o; simpl; [rewrite app_assoc|]; reflexivity. Qed.

Lemma Z_of_digit_char (d : Z) : 0 <= d <= 9 -> Z_of_byte (digit_char d) = 48 + d.
Proof.
  intros H. unfold digit_char. rewrite Z_of_byte_of_Z. apply Z.mod_small. lia.
Qed.

Lemma is_digit_char (d : Z) : 0 <= d <= 9 -> is_digit (48 + d) = true.
Proof.
  intros H. unfold is_digit. apply andb_true_iff. split; apply Z.leb_le; lia.
Qed.

Lemma lex_step_digit (neg : bool) (acc d : Z) :
  0 <= d <= 9 ->
  lex_step (LDigits neg acc) (digit_char d) = Some (LDigits neg (10 * acc + d), []).
Proof.
  intros H. unfold lex_step. rewrite (Z_of_digit_char d H), (is_digit_char d H).
  repeat f_equal. lia.
Qed.


Lemma lex_digits (neg : bool) (ds : list Z) (rest : bytes) :
  Forall (fun d => 0 <= d <= 9) ds ->
  forall acc,
    lex_from (LDigits neg acc) (map digit_char ds ++ rest) =
    lex_from (LDigits neg (digits_value_from acc ds)) rest.
Proof.
  induction 1 as [|d ds Hd _ IH]; intros acc; [reflexivity|].
  cbn [map app lex_from]. rewrite (lex_step_digit _ _ _ Hd).
  rewrite emit_nil. apply IH.
Qed.

(** Run the lexer on the octets of the text that are known. *)
Ltac lex_known :=
  repeat match goal with
         | |- context [lex_step ?st ?c] =>
             let x := eval cbv in (lex_step st c) in
             change (lex_step st c) with x
         | |- context [start_step ?c] =>
             let x := eval cbv in (start_step c) in
             change (start_step c) with x
         end;
  cbv beta iota.

(** A number or a bare word that is complete ends where the rest begins. *)
Lemma lex_after_digits (neg : bool) (acc : Z) (rest : bytes) :
  delimited rest ->
  lex_from (LDigits neg acc) rest =
  emit ([TNumber (signed neg acc)]) (lex_from LStart rest).
Proof.
  destruct rest as [|c r]; intros H; [reflexivity|].
  destruct H as [-> | [-> | ->]]; cbn [lex_from]; lex_known;
    destruct (lex_from LStart r); reflexivity.
Qed.

Lemma lex_after_zero (neg : bool) (rest : bytes) :
  delimited rest ->
  lex_from (LZero neg) rest =
  emit ([TNumber 0]) (lex_from LStart rest).
Proof.
  destruct rest as [|c r]; intros H; [reflexivity|].
  destruct H as [-> | [-> | ->]]; cbn [lex_from]; lex_known;
    destruct (lex_from LStart r); reflexivity.
Qed.

Lemma lex_after_word (acc : bytes) (t : token) (rest : bytes) :
  word_token (rev acc) = Some t ->
  delimited rest ->
  lex_from (LWord acc) rest = emit ([t]) (lex_from LStart rest).
Proof.
  intros Hw. destruct rest as [|c r]; intros H.
  - cbn [lex_from lex_end]. rewrite Hw. reflexivity.
  - destruct H as [-> | [-> | ->]]; cbn [lex_from];
      (match goal with
       | |- context [lex_step (LWord acc) ?c] =>
           replace (lex_step (LWord acc) c)
             with (match start_step c with
                   | Some (st', out) => Some (st', t :: out)
                   | None => None
                   end)
             by (unfold lex_step; rewrite Hw; reflexivity)
       end); lex_known;
      destruct (lex_from LStart r); reflexivity.
Qed.

(** The digits of a number. *)
Lemma digits_of_spec (f : nat) :
  forall n, 0 <= n < 2 ^ Z.of_nat (S f) ->
    Forall (fun d => 0 <= d <= 9) (digits_of (S f) n) /\
    digits_value_from 0 (digits_of (S f) n) = n /\
    (n = 0 -> digits_of (S f) n = [0]) /\
    (0 < n -> exists d ds, digits_of (S f) n = d :: ds /\ 1 <= d <= 9).
Proof.
  induction f as [|f IH]; intros n Hn.
  - change (2 ^ Z.of_nat 1) with 2 in Hn.
    cbn [digits_of]. replace (n <? 10) with true by (symmetry; apply Z.ltb_lt; lia).
    rewrite Z.mod_small by lia. cbn [app]. split; [|split; [|split]].
    + constructor; [lia | constructor].
    + unfold digits_value_from. cbn [fold_left]. lia.
    + intros ->. reflexivity.
    + intros Hp. exists n, []. split; [reflexivity | lia].
  - change (digits_of (S (S f)) n)
      with ((if n <? 10 then [] else digits_of (S f) (n / 10)) ++ [n mod 10]).
    pose proof (Z.mod_pos_bound n 10 ltac:(lia)) as Hm.
    pose proof (Z.div_mod n 10 ltac:(lia)) as Hd.
    destruct (n <? 10) eqn:E.
    + apply Z.ltb_lt in E. rewrite Z.mod_small by lia. cbn [app]. split; [|split; [|split]].
      * constructor; [lia | constructor].
      * unfold digits_value_from. cbn [fold_left]. lia.
      * intros ->. reflexivity.
      * intros Hp. exists n, []. split; [reflexivity | lia].
    + apply Z.ltb_ge in E.
      assert (Hq : 0 <= n / 10 < 2 ^ Z.of_nat (S f)).
      { split; [apply Z.div_pos; lia|].
        apply Z.div_lt_upper_bound; [lia|].
        replace (Z.of_nat (S (S f))) with (Z.succ (Z.of_nat (S f))) in Hn by lia.
        rewrite Z.pow_succ_r in Hn by lia. lia. }
      destruct (IH _ Hq) as (H1 & H2 & _ & H4). split; [|split; [|split]].
      * apply Forall_app. split; [exact H1|]. constructor; [lia | constructor].
      * unfold digits_value_from in *. rewrite fold_left_app. cbn [fold_left].
        rewrite H2. lia.
      * intros ->. discriminate || lia.
      * intros _. destruct H4 as (d & ds & -> & Hd1); [lia|].
        exists d, (ds ++ [n mod 10]). split; [reflexivity | exact Hd1].
Qed.

Lemma decimal_spec (n : Z) :
  0 <= n ->
  exists ds, decimal n = map digit_char ds /\
    Forall (fun d => 0 <= d <= 9) ds /\
    digits_value_from 0 ds = n /\
    (n = 0 -> ds = [0]) /\
    (0 < n -> exists d ds', ds = d :: ds' /\ 1 <= d <= 9).
Proof.
  intros Hn. exists (digits_of (S (Z.to_nat (Z.log2 n))) n).
  split; [reflexivity|]. apply digits_of_spec.
  split; [exact Hn|].
  destruct (Z.eq_dec n 0) as [-> | Hz]; [reflexivity|].
  pose proof (Z.log2_spec n ltac:(lia)) as [_ Hl].
  pose proof (Z.log2_nonneg n).
  replace (Z.of_nat (S (Z.to_nat (Z.log2 n)))) with (Z.succ (Z.log2 n)) by lia.
  exact Hl.
Qed.

Lemma start_step_digit (d : Z) :
  1 <= d <= 9 -> start_step (digit_char d) = Some (LDigits false d, []).
Proof.
  intros H. unfold start_step. rewrite Z_of_digit_char by lia.
  rewrite (is_digit_char d) by lia.
  unfold is_space.
  repeat match goal with
         | |- context [?a =? ?b] =>
             replace (a =? b) with false by (symmetry; apply Z.eqb_neq; lia)
         end.
  cbn [orb]. repeat f_equal. lia.
Qed.

Lemma minus_step_digit (d : Z) :
  1 <= d <= 9 -> lex_step LMinus (digit_char d) = Some (LDigits true d, []).
Proof.
  intros H. unfold lex_step. rewrite Z_of_digit_char by lia.
  rewrite (is_digit_char d) by lia.
  replace (48 + d =? 48) with false by (symmetry; apply Z.eqb_neq; lia).
  repeat f_equal. lia.
Qed.

Lemma lex_number (n : Z) (rest : bytes) :
  delimited rest ->
  lex_from LStart (Number_toString n ++ rest) =
  emit ([TNumber n]) (lex_from LStart rest).
Proof.
  intros Hr. unfold Number_toString. destruct (n <? 0) eqn:E.
  - apply Z.ltb_lt in E.
    destruct (decimal_spec (- n) ltac:(lia)) as (ds & -> & Hds & Hv & _ & Hp).
    destruct Hp as (d & ds' & -> & Hd); [lia|].
    pose proof (Forall_inv_tail Hds) as Hds'.
    change (txt "-" ++ map digit_char (d :: ds')) with
      (x2d :: digit_char d :: map digit_char ds').
    cbn [app lex_from].
    change (lex_step LStart x2d) with (Some (LMinus, @nil token)).
    cbv beta iota. rewrite emit_nil, (minus_step_digit d Hd).
    rewrite emit_nil, (lex_digits _ _ _ Hds'), (lex_after_digits _ _ _ Hr).
    unfold digits_value_from in *. cbn [fold_left] in Hv.
    replace (10 * 0 + d) with d in Hv by lia. rewrite Hv.
    unfold signed. replace (- - n) with n by lia. reflexivity.
  - apply Z.ltb_ge in E.
    destruct (decimal_spec n E) as (ds & -> & Hds & Hv & Hz & Hp).
    destruct (Z.eq_dec n 0) as [-> | Hnz].
    + rewrite (Hz eq_refl).
      change (map digit_char [0]) with [x30]. cbn [app lex_from].
      change (lex_step LStart x30) with (Some (LZero false, @nil token)).
      cbv beta iota. rewrite emit_nil. apply lex_after_zero, Hr.
    + destruct Hp as (d & ds' & -> & Hd); [lia|].
      pose proof (Forall_inv_tail Hds) as Hds'.
      cbn [map app lex_from]. change (lex_step LStart (digit_char d))
        with (start_step (digit_char d)).
      rewrite (start_step_digit d Hd), emit_nil.
      rewrite (lex_digits _ _ _ Hds'), (lex_after_digits _ _ _ Hr).
      unfold digits_value_from in *. cbn [fold_left] in Hv.
      replace (10 * 0 + d) with d in Hv by lia. rewrite Hv. reflexivity.
Qed.

Ltac txt_known :=
  repeat match goal with
         | |- context [txt ?s] =>
             let x := eval cbv in (txt s) in change (txt s) with x
         end.

(** Run the lexer over the known octets at the head of the text. *)
Ltac lex_run :=
  repeat (cbn [lex_from app]; lex_known; rewrite ?emit_nil).

Lemma lex_escape_char (c : byte) (acc tail : bytes) :
  plain_char c = true ->
  lex_from (LString acc) (escape_char c ++ tail) = lex_from (LString (c :: acc)) tail.
Proof.
  intros H.
  destruct c; try discriminate H; clear H;
    match goal with
    | |- context [escape_char ?c] =>
        let x := eval cbv in (escape_char c) in change (escape_char c) with x
    end;
    lex_run; reflexivity.
Qed.

Lemma lex_string (s : bytes) :
  plain s = true ->
  forall acc rest,
    lex_from (LString acc) (flat_map escape_char s ++ dquote :: rest) =
    emit ([TString (rev acc ++ s)]) (lex_from LStart rest).
Proof.
  induction s as [|c s IH]; intros Hp acc rest.
  - cbn [flat_map app lex_from].
    change (lex_step (LString acc) dquote) with (Some (LStart, [TString (rev acc)])).
    cbv beta iota. rewrite app_nil_r. reflexivity.
  - cbn [plain forallb] in Hp. apply andb_true_iff in Hp as [Hc Hs].
    cbn [flat_map]. rewrite <- app_assoc, (lex_escape_char _ _ _ Hc).
    rewrite (IH Hs). cbn [rev]. rewrite <- app_assoc. reflexivity.
Qed.

Lemma lex_quote (s : bytes) (rest : bytes) :
  plain s = true ->
  lex_from LStart (quote s ++ rest) =
  emit ([TString s]) (lex_from LStart rest).
Proof.
  intros Hp. unfold quote. cbn [app lex_from].
  change (lex_step LStart dquote) with (Some (LString [], @nil token)).
  cbv beta iota. rewrite emit_nil, <- app_assoc.
  apply (lex_string s Hp []).
Qed.


Lemma lex_elements (l : list json) :
  Forall lex_ok l -> forallb wf l = true ->
  forall rest,
    lex_from LStart (join_comma (map JSON_stringify l) ++ x5d :: rest) =
    emit (join_tokens (map tokens_of l) ++ [TRBrack])
      (lex_from LStart rest).
Proof.
  induction 1 as [|e l He Hl IH]; intros Hwf rest.
  - cbn [map join_comma join_tokens]. lex_run. reflexivity.
  - cbn [forallb] in Hwf. apply andb_true_iff in Hwf as [Hwe Hwl].
    destruct l as [|e' l'].
    + cbn [map join_comma join_tokens].
      rewrite (He Hwe) by (right; left; reflexivity).
      lex_run. rewrite emit_emit. reflexivity.
    + change (join_comma (map JSON_stringify (e :: e' :: l')))
        with (JSON_stringify e ++ txt "," ++ join_comma (map JSON_stringify (e' :: l'))).
      change (join_tokens (map tokens_of (e :: e' :: l')))
        with (tokens_of e ++ TComma :: join_tokens (map tokens_of (e' :: l'))).
      txt_known. rewrite <- !app_assoc. cbn [app].
      rewrite (He Hwe) by (left; reflexivity).
      lex_run. rewrite (IH Hwl), !emit_emit.
      rewrite <- !app_assoc. reflexivity.
Qed.

Lemma lex_members (m : list (bytes * json)) :
  Forall (fun kv => lex_ok (snd kv)) m ->
  forallb (fun kv => plain (fst kv) && wf (snd kv)) m = true ->
  forall rest,
    lex_from LStart
      (join_comma (map (fun kv => quote (fst kv) ++ txt ":" ++ JSON_stringify (snd kv)) m)
       ++ x7d :: rest) =
    emit ((join_tokens
              (map (fun kv => TString (fst kv) :: TColon :: tokens_of (snd kv)) m)
            ++ [TRBrace]))
      (lex_from LStart rest).
Proof.
  induction 1 as [|kv m He Hl IH]; intros Hwf rest.
  - cbn [map join_comma join_tokens]. lex_run. reflexivity.
  - cbn [forallb] in Hwf. apply andb_true_iff in Hwf as [Hwe Hwl].
    apply andb_true_iff in Hwe as [Hk Hv].
    destruct m as [|kv' m'].
    + cbn [map join_comma join_tokens]. txt_known.
      rewrite <- !app_assoc. rewrite (lex_quote _ _ Hk). lex_run.
      rewrite (He Hv) by (right; right; reflexivity).
      lex_run. rewrite !emit_emit. reflexivity.
    + set (f := fun kv : bytes * json => quote (fst kv) ++ txt ":" ++ JSON_stringify (snd kv)) in *.
      set (g := fun kv : bytes * json => TString (fst kv) :: TColon :: tokens_of (snd kv)) in *.
      change (join_comma (map f (kv :: kv' :: m')))
        with (f kv ++ txt "," ++ join_comma (map f (kv' :: m'))).
      change (join_tokens (map g (kv :: kv' :: m')))
        with (g kv ++ TComma :: join_tokens (map g (kv' :: m'))).
      unfold f at 1, g at 1. txt_known.
      rewrite <- !app_assoc. rewrite (lex_quote _ _ Hk). lex_run.
      rewrite (He Hv) by (left; reflexivity).
      lex_run. rewrite (IH Hwl), !emit_emit.
      cbn [app]. rewrite <- !app_assoc. reflexivity.
Qed.

Lemma lex_value (v : json) : lex_ok v.
Proof.
  induction v as [|b|n|s|l IH|m IH] using json_ind; intros Hwf rest Hr.
  - cbn [JSON_stringify tokens_of]. txt_known. lex_run.
    apply (lex_after_word [x6c; x6c; x75; x6e] TNull); [reflexivity | exact Hr].
  - destruct b; cbn [JSON_stringify tokens_of]; txt_known; lex_run.
    + apply (lex_after_word [x65; x75; x72; x74] TTrue); [reflexivity | exact Hr].
    + apply (lex_after_word [x65; x73; x6c; x61; x66] TFalse);
        [reflexivity | exact Hr].
  - apply lex_number, Hr.
  - apply lex_quote, Hwf.
  - cbn [JSON_stringify tokens_of wf] in *. txt_known.
    rewrite <- !app_assoc. lex_run.
    cbn [app]. rewrite (lex_elements l IH Hwf), emit_emit. reflexivity.
  - cbn [JSON_stringify tokens_of wf] in *. txt_known.
    rewrite <- !app_assoc. lex_run.
    cbn [app]. rewrite (lex_members m IH Hwf), emit_emit. reflexivity.
Qed.

Lemma lex_stringify (v : json) :
  wf v = true -> lex (JSON_stringify v) = Some (tokens_of v).
Proof.
  intros Hwf. unfold lex.
  rewrite <- (app_nil_r (JSON_stringify v)), (lex_value v Hwf [] I).
  cbn. rewrite app_nil_r. reflexivity.
Qed.

(** The parser on the tokens of a printed value. *)


Lemma tokens_of_head (v : json) :
  exists t ts, tokens_of v = t :: ts /\ t <> TRBrack /\ t <> TRBrace.
Proof.
  destruct v as [|[|]|n|s|l|m]; cbn [tokens_of]; eexists; eexists;
    (split; [reflexivity | split; discriminate]).
Qed.

Lemma parse_array_step (f : nat) (t : token) (r : list token) :
  t <> TRBrack ->
  parse_value (S f) (TLBrack :: t :: r) =
  match parse_elements (parse_value f) (length (t :: r)) (t :: r) with
  | Some (vs, r') => Some (JArr vs, r')
  | None => None
  end.
Proof.
  intros H. destruct t; try reflexivity. contradiction.
Qed.

Lemma parse_object_step (f : nat) (k : bytes) (r : list token) :
  parse_value (S f) (TLBrace :: TString k :: r) =
  match parse_members (parse_value f) (length (TString k :: r)) (TString k :: r) with
  | Some (kvs, r') => Some (JObj kvs, r')
  | None => None
  end.
Proof. reflexivity. Qed.

Lemma parse_elements_ok (pv : parser json) (l : list json) :
  Forall (fun e => forall rest, pv (tokens_of e ++ rest) = Some (e, rest)) l ->
  l <> [] ->
  forall fuel rest,
    (length l <= fuel)%nat ->
    parse_elements pv fuel (join_tokens (map tokens_of l) ++ TRBrack :: rest)
    = Some (l, rest).
Proof.
  induction 1 as [|e l He Hl IH]; intros Hne fuel rest Hf; [contradiction|].
  destruct fuel as [|fuel]; [simpl in Hf; lia|].
  destruct l as [|e' l'].
  - cbn [map join_tokens parse_elements]. rewrite He. reflexivity.
  - change (join_tokens (map tokens_of (e :: e' :: l')))
      with (tokens_of e ++ TComma :: join_tokens (map tokens_of (e' :: l'))).
    rewrite <- app_assoc. cbn [app parse_elements]. rewrite He.
    rewrite IH; [reflexivity | discriminate | simpl in *; lia].
Qed.

Lemma parse_members_ok (pv : parser json) (m : list (bytes * json)) :
  Forall (fun kv => forall rest, pv (tokens_of (snd kv) ++ rest) = Some (snd kv, rest)) m ->
  m <> [] ->
  forall fuel rest,
    (length m <= fuel)%nat ->
    parse_members pv fuel
      (join_tokens (map (fun kv => TString (fst kv) :: TColon :: tokens_of (snd kv)) m)
       ++ TRBrace :: rest)
    = Some (m, rest).
Proof.
  induction 1 as [|[k v] m He Hl IH]; intros Hne fuel rest Hf; [contradiction|].
  destruct fuel as [|fuel]; [simpl in Hf; lia|].
  cbn [fst snd] in He.
  destruct m as [|kv' m'].
  - cbn [map join_tokens parse_members fst snd app]. rewrite He. reflexivity.
  - set (g := fun kv : bytes * json => TString (fst kv) :: TColon :: tokens_of (snd kv)) in *.
    change (join_tokens (map g ((k, v) :: kv' :: m')))
      with (g (k, v) ++ TComma :: join_tokens (map g (kv' :: m'))).
    unfold g at 1. cbn [fst snd app parse_members].
    rewrite <- app_assoc. rewrite He. cbn [app].
    rewrite IH; [reflexivity | discriminate | simpl in *; lia].
Qed.

Lemma length_join_tokens (A : Type) (f : A -> list token) (l : list A) :
  (forall a, In a l -> 1 <= length (f a))%nat ->
  (length l <= length (join_tokens (map f l)))%nat /\
  (forall a, In a l -> length (f a) <= length (join_tokens (map f l)))%nat.
Proof.
  induction l as [|a l IH]; intros Hpos.
  - split; [simpl; lia | intros a []].
  - assert (Hl : forall a0, In a0 l -> (1 <= length (f a0))%nat)
      by (intros; apply Hpos; right; assumption).
    destruct (IH Hl) as [IH1 IH2].
    pose proof (Hpos a (or_introl eq_refl)) as Ha.
    destruct l as [|b l'].
    + cbn [map join_tokens]. split; [simpl; lia|].
      intros a0 [<- | []]. lia.
    + change (join_tokens (map f (a :: b :: l')))
        with (f a ++ TComma :: join_tokens (map f (b :: l'))).
      rewrite length_app. cbn [length] in *. split; [lia|].
      intros a0 [<- | Hin]; [lia|]. specialize (IH2 a0 Hin). lia.
Qed.

Lemma tokens_of_length (v : json) : (1 <= length (tokens_of v))%nat.
Proof.
  destruct (tokens_of_head v) as (t & ts & -> & _). simpl. lia.
Qed.

Lemma join_tokens_head (A : Type) (f : A -> list token) (a : A) (l : list A)
  (t : token) (ts : list token) :
  f a = t :: ts ->
  exists ts', join_tokens (map f (a :: l)) = t :: ts'.
Proof.
  intros H. destruct l as [|b l'].
  - cbn [map join_tokens]. rewrite H. eexists. reflexivity.
  - change (join_tokens (map f (a :: b :: l')))
      with (f a ++ TComma :: join_tokens (map f (b :: l'))).
    rewrite H. eexists. reflexivity.
Qed.

Lemma parse_array (f : nat) (l : list json) (rest : list token) :
  l <> [] -> Forall (parse_ok f) l ->
  parse_value (S f) (TLBrack :: join_tokens (map tokens_of l) ++ TRBrack :: rest)
  = Some (JArr l, rest).
Proof.
  intros Hne Hl. destruct l as [|e l']; [contradiction|].
  destruct (tokens_of_head e) as (t & ts & Et & Hnb & _).
  destruct (join_tokens_head _ tokens_of e l' t ts Et) as (ts' & Ej).
  destruct (length_join_tokens _ tokens_of (e :: l')
              (fun a _ => tokens_of_length a)) as [Hlen _].
  pose proof (parse_elements_ok (parse_value f) (e :: l') Hl Hne
                (length (join_tokens (map tokens_of (e :: l')) ++ TRBrack :: rest))
                rest ltac:(rewrite length_app; lia)) as Hpe.
  rewrite Ej in *. cbn [app] in *.
  rewrite parse_array_step by exact Hnb. rewrite Hpe. reflexivity.
Qed.

Lemma parse_object (f : nat) (m : list (bytes * json)) (rest : list token) :
  m <> [] -> Forall (fun kv => parse_ok f (snd kv)) m ->
  parse_value (S f)
    (TLBrace ::
     join_tokens (map (fun kv => TString (fst kv) :: TColon :: tokens_of (snd kv)) m)
     ++ TRBrace :: rest)
  = Some (JObj m, rest).
Proof.
  intros Hne Hm. destruct m as [|kv m']; [contradiction|].
  set (g := fun kv : bytes * json => TString (fst kv) :: TColon :: tokens_of (snd kv)) in *.
  destruct (join_tokens_head _ g kv m' (TString (fst kv)) (TColon :: tokens_of (snd kv))
              eq_refl) as (ts' & Ej).
  destruct (length_join_tokens _ g (kv :: m')
              (fun a _ => ltac:(unfold g; simpl; lia))) as [Hlen _].
  pose proof (parse_members_ok (parse_value f) (kv :: m') Hm Hne
                (length (join_tokens (map g (kv :: m')) ++ TRBrace :: rest))
                rest ltac:(rewrite length_app; lia)) as Hpe.
  fold g in Hpe. rewrite Ej in *. cbn [app] in *.
  rewrite parse_object_step. rewrite Hpe. reflexivity.
Qed.

Lemma parse_tokens_of (v : json) :
  forall fuel, (length (tokens_of v) <= fuel)%nat -> parse_ok fuel v.
Proof.
  induction v as [|b|n|s|l IH|m IH] using json_ind; intros fuel Hf rest;
    (destruct fuel as [|f]; [cbn [tokens_of length] in Hf; try destruct b; simpl in Hf; lia|]).
  - reflexivity.
  - destruct b; reflexivity.
  - reflexivity.
  - reflexivity.
  - cbn [tokens_of] in *. destruct l as [|e l']; [reflexivity|].
    cbn [app]. rewrite <- app_assoc. cbn [app].
    apply parse_array; [discriminate|].
    destruct (length_join_tokens _ tokens_of (e :: l')
                (fun a _ => tokens_of_length a)) as [_ Hin].
    cbn [length] in Hf. rewrite length_app in Hf. cbn [length] in Hf.
    rewrite Forall_forall in IH |- *. intros x Hx.
    apply IH; [exact Hx|]. specialize (Hin x Hx). lia.
  - cbn [tokens_of] in *. destruct m as [|kv m']; [reflexivity|].
    cbn [app]. rewrite <- app_assoc. cbn [app].
    apply parse_object; [discriminate|].
    set (g := fun kv : bytes * json => TString (fst kv) :: TColon :: tokens_of (snd kv)) in *.
    destruct (length_join_tokens _ g (kv :: m')
                (fun a _ => ltac:(unfold g; simpl; lia))) as [_ Hin].
    cbn [length] in Hf. rewrite length_app in Hf. cbn [length] in Hf.
    rewrite Forall_forall in IH |- *. intros x Hx.
    apply IH; [exact Hx|]. specialize (Hin x Hx). unfold g in Hin at 1.
    cbn [length] in Hin. lia.
Qed.

(** [JSON.parse (JSON.stringify v)] is [v]. *)
Lemma JSON_parse_stringify (v : json) :
  wf v = true -> JSON_parse (JSON_stringify v) = Some v.
Proof.
  intros Hwf. unfold JSON_parse. rewrite (lex_stringify v Hwf).
  pose proof (parse_tokens_of v (S (length (tokens_of v))) ltac:(lia) []) as H.
  rewrite app_nil_r in H. rewrite H. reflexivity.
Qed.

(** ** The decoder on what the encoder builds *)

Lemma Uint8Array_part (buf pre data post : bytes) (off len : Z) :
  buf = pre ++ data ++ post ->
  off = byteLength pre -> len = byteLength data ->
  Uint8Array buf off len = Ok data.
Proof. intros ->. apply Uint8Array_at. Qed.

Lemma getUint32_part (buf pre post : bytes) (off n : Z) :
  buf = pre ++ le32 n ++ post ->
  off = byteLength pre -> 0 <= n < 4294967296 ->
  getUint32 buf off = Ok n.
Proof. intros ->. apply getUint32_at. Qed.

Lemma byteLength_le32 (n : Z) : byteLength (le32 n) = 4.
Proof. reflexivity. Qed.

Lemma TextDecoder_decode_plain (c : byte) (l : bytes) :
  c <> xef -> TextDecoder_decode (c :: l) = c :: l.
Proof.
  intros H. destruct l as [|b1 [|b2 r]]; try reflexivity.
  unfold TextDecoder_decode.
  destruct (Byte.eqb c xef) eqn:E; [|reflexivity].
  apply Byte.byte_dec_bl in E. contradiction.
Qed.

Lemma TextDecoder_decode_object (m : list (bytes * json)) :
  TextDecoder_decode (JSON_stringify (JObj m)) = JSON_stringify (JObj m).
Proof.
  cbn [JSON_stringify]. txt_known. cbn [app].
  apply TextDecoder_decode_plain. discriminate.
Qed.

Lemma wf_triggerMap_json (triggers : list Trigger) :
  wf (triggerMap_json triggers) = true.
Proof.
  unfold triggerMap_json. cbn [wf forallb fst snd].
  assert (H : forallb wf (map trigger_json triggers) = true).
  { induction triggers as [|t l IH]; [reflexivity|].
    cbn [map forallb]. rewrite IH. reflexivity. }
  rewrite H. reflexivity.
Qed.

Lemma wf_header_json (frameRate numFrames numAudioClips : Z) :
  wf (header_json frameRate numFrames numAudioClips) = true.
Proof. reflexivity. Qed.

Lemma read_payloads_build (wrap : bytes -> bytes) (items : list bytes) :
  Forall (fun x => byteLength x < 4294967296) items ->
  forall buf pre post off,
    buf = pre ++ flat_map length_prefixed items ++ post ->
    off = byteLength pre ->
    AGIFDecoder.read_payloads wrap buf (length items) off =
    Ok (map wrap items, off + byteLength (flat_map length_prefixed items)).
Proof.
  induction 1 as [|x xs Hx _ IH]; intros buf pre post off Hbuf Hoff.
  - cbn. f_equal. f_equal. unfold byteLength. simpl. lia.
  - cbn [length AGIFDecoder.read_payloads flat_map] in *.
    unfold length_prefixed in Hbuf at 1.
    pose proof (byteLength_nonneg x) as Hx0.
    rewrite (getUint32_part buf pre (x ++ flat_map length_prefixed xs ++ post)
               off (byteLength x));
      [| rewrite Hbuf, <- !app_assoc; reflexivity | exact Hoff | lia].
    cbn [bind].
    rewrite (Uint8Array_part buf (pre ++ le32 (byteLength x)) x
               (flat_map length_prefixed xs ++ post));
      [| rewrite Hbuf, <- !app_assoc; reflexivity
       | rewrite byteLength_app, byteLength_le32; lia
       | reflexivity].
    cbn [bind].
    rewrite (IH buf (pre ++ le32 (byteLength x) ++ x) post);
      [| rewrite Hbuf, <- !app_assoc; reflexivity
       | rewrite !byteLength_app, byteLength_le32; lia].
    cbn [bind fst snd map]. f_equal. f_equal.
    unfold length_prefixed at 2. rewrite !byteLength_app, byteLength_le32. lia.
Qed.

Lemma flat_map_length_In (x : bytes) (items : list bytes) :
  In x items -> byteLength x <= byteLength (flat_map length_prefixed items).
Proof.
  induction items as [|y ys IH]; intros []; cbn [flat_map];
    rewrite byteLength_app; unfold length_prefixed at 1;
    rewrite ?byteLength_app, ?byteLength_le32.
  - subst. pose proof (byteLength_nonneg (flat_map length_prefixed ys)).
    pose proof (byteLength_nonneg x). lia.
  - specialize (IH H). pose proof (byteLength_nonneg y). lia.
Qed.

(** The two side conditions of the lemmas on parts of a buffer. *)
Ltac part_eq :=
  match goal with
  | buf := _ |- _ => unfold buf
  end;
  rewrite <- ?app_assoc, ?app_nil_r; reflexivity.

Ltac part_off :=
  rewrite ?byteLength_app, ?byteLength_le32;
  try change (byteLength (txt "AGIF")) with 4;
  lia.

(** The sections read from a container that [build_container] made, when
    the container is shorter than 4 GiB. *)
Lemma read_container_build (frameRate : Z) (frameData audioData : list bytes)
  (triggers : list Trigger) :
  let buf := build_container frameRate frameData audioData triggers in
  byteLength buf < 4294967296 ->
  AGIFDecoder.read_container JSON_parse buf =
  Ok ({| AGIFDecoder.s_header :=
           header_json frameRate (Z.of_nat (length frameData))
             (Z.of_nat (length audioData));
         AGIFDecoder.s_frameData :=
           map (fun view => AGIFDecoder.dataURL (TextDecoder_decode view)) frameData;
         AGIFDecoder.s_audioData := audioData;
         AGIFDecoder.s_triggers := triggerMap_json triggers |},
      byteLength buf).
Proof.
  intros buf Hsize. subst buf. unfold build_container in *.
  set (hdr := header_json frameRate (Z.of_nat (length frameData))
                (Z.of_nat (length audioData))) in *.
  set (H := JSON_stringify hdr) in *.
  set (T := JSON_stringify (triggerMap_json triggers)) in *.
  set (F := flat_map length_prefixed frameData) in *.
  set (A := flat_map length_prefixed audioData) in *.
  set (buf := txt "AGIF" ++ le32 (byteLength H) ++ H ++ F ++ A
              ++ le32 (byteLength T) ++ T) in *.
  assert (Hlen : byteLength buf =
                 4 + 4 + byteLength H + byteLength F + byteLength A + 4 + byteLength T).
  { unfold buf. rewrite !byteLength_app, !byteLength_le32.
    change (byteLength (txt "AGIF")) with 4. lia. }
  pose proof (byteLength_nonneg H). pose proof (byteLength_nonneg F).
  pose proof (byteLength_nonneg A). pose proof (byteLength_nonneg T).
  assert (HF : Forall (fun x => byteLength x < 4294967296) frameData).
  { apply Forall_forall. intros x Hx.
    pose proof (flat_map_length_In x frameData Hx). fold F in H4. lia. }
  assert (HA : Forall (fun x => byteLength x < 4294967296) audioData).
  { apply Forall_forall. intros x Hx.
    pose proof (flat_map_length_In x audioData Hx). fold A in H4. lia. }
  unfold AGIFDecoder.read_container.
  rewrite (Uint8Array_part buf [] (txt "AGIF")
             (le32 (byteLength H) ++ H ++ F ++ A ++ le32 (byteLength T) ++ T));
    [| reflexivity | reflexivity | reflexivity].
  cbn [bind].
  change (negb (bytes_eqb (TextDecoder_decode (txt "AGIF")) (txt "AGIF"))) with false.
  cbv iota.
  rewrite (getUint32_part buf (txt "AGIF") (H ++ F ++ A ++ le32 (byteLength T) ++ T)
             (0 + 4) (byteLength H));
    [| reflexivity | reflexivity | lia].
  cbn [bind].
  rewrite (Uint8Array_part buf (txt "AGIF" ++ le32 (byteLength H)) H
             (F ++ A ++ le32 (byteLength T) ++ T));
    [| part_eq | part_off | reflexivity].
  cbn [bind].
  unfold H at 1, hdr at 1, header_json at 1. rewrite TextDecoder_decode_object.
  fold (header_json frameRate (Z.of_nat (length frameData)) (Z.of_nat (length audioData))).
  fold hdr. rewrite (JSON_parse_stringify hdr (wf_header_json _ _ _)).
  cbn [of_option bind].
  change (is_null hdr) with false. cbv iota zeta.
  change (negb (json_is_string (prop hdr "version") "1.0")
          || negb (json_is_string (prop hdr "audioFormat") "wav")) with false.
  cbv iota.
  change (conversion_throws (prop hdr "numFrames")) with false.
  change (conversion_throws (prop hdr "numAudioClips")) with false.
  cbv iota.
  change (loop_count (prop hdr "numFrames")) with (Z.to_nat (Z.of_nat (length frameData))).
  change (loop_count (prop hdr "numAudioClips"))
    with (Z.to_nat (Z.of_nat (length audioData))).
  rewrite !Nat2Z.id.
  rewrite (read_payloads_build _ frameData HF buf
             (txt "AGIF" ++ le32 (byteLength H) ++ H)
             (A ++ le32 (byteLength T) ++ T));
    [| part_eq | part_off].
  cbn [bind]. fold F.
  rewrite (read_payloads_build _ audioData HA buf
             (txt "AGIF" ++ le32 (byteLength H) ++ H ++ F)
             (le32 (byteLength T) ++ T));
    [| part_eq | part_off].
  cbn [bind]. fold A.
  rewrite (getUint32_part buf (txt "AGIF" ++ le32 (byteLength H) ++ H ++ F ++ A) T
             _ (byteLength T));
    [| part_eq | part_off | lia].
  cbn [bind].
  rewrite (Uint8Array_part buf
             (txt "AGIF" ++ le32 (byteLength H) ++ H ++ F ++ A ++ le32 (byteLength T))
             T []);
    [| part_eq | part_off | reflexivity].
  cbn [bind].
  unfold T at 1, triggerMap_json at 1. rewrite TextDecoder_decode_object.
  fold (triggerMap_json triggers).
  rewrite (JSON_parse_stringify _ (wf_triggerMap_json triggers)).
  cbn [of_option bind]. rewrite map_id. f_equal. f_equal. fold T. lia.
Qed.

(** ** The PCM-to-WAV transcoder *)

Module WavFacts.

Import Wav.

Local Abbreviation length := List.length.

Lemma clamp_finite (q : Q) :
  exists q', clamp (Finite q) = Finite q' /\ (-1 <= q' <= 1)%Q /\
             ((-1 <= q <= 1)%Q -> (q' == q)%Q).
Proof.
  unfold clamp, Math_min, Math_max, of_Z. cbn [float_ltb].
  destruct (Qle_bool (inject_Z 1) q) eqn:E1; cbn [negb float_ltb].
  - apply Qle_bool_iff in E1.
    change (Qle_bool (inject_Z 1) (inject_Z (-1))) with false. cbn [negb].
    exists (inject_Z 1). split; [reflexivity|]. split.
    + split; discriminate.
    + intros [_ H]. apply Qle_antisym; assumption.
  - assert (Hq : (q < 1)%Q).
    { apply Qnot_le_lt. intros H. apply Qle_bool_iff in H.
      change (inject_Z 1) with 1%Q in E1. congruence. }
    destruct (Qle_bool q (inject_Z (-1))) eqn:E2; cbn [negb].
    + apply Qle_bool_iff in E2. exists (inject_Z (-1)). split; [reflexivity|].
      split; [split; discriminate|].
      intros [H _]. apply Qle_antisym; assumption.
    + assert (Hq' : (-1 < q)%Q).
      { apply Qnot_le_lt. intros H. apply Qle_bool_iff in H.
        change (inject_Z (-1)) with (-1)%Q in E2. congruence. }
      exists q. split; [reflexivity|]. split.
      * split; apply Qlt_le_weak; assumption.
      * intros _. reflexivity.
Qed.

Lemma clamp_number (x : float) :
  x <> NaN -> exists q, clamp x = Finite q /\ (-1 <= q <= 1)%Q.
Proof.
  intros Hx. destruct x as [q| | |]; try contradiction.
  - destruct (clamp_finite q) as (q' & H1 & H2 & _). exists q'. auto.
  - exists (inject_Z 1). split; [reflexivity | split; discriminate].
  - exists (inject_Z (-1)). split; [reflexivity | split; discriminate].
Qed.

Lemma truncate_scaled_neg (q : Q) :
  (-1 <= q)%Q -> (q < 0)%Q ->
  -32768 <= truncate (q * inject_Z 32768) <= 0.
Proof.
  unfold truncate, Qle, Qlt. destruct q as [n d]. cbn [Qnum Qden Qmult inject_Z].
  intros H1 H2. rewrite Pos.mul_1_r.
  assert (Hn : n < 0) by lia. assert (Hd : - Zpos d <= n) by lia.
  replace (n * 32768) with (- (- n * 32768)) by lia.
  rewrite Z.quot_opp_l by lia.
  rewrite Z.quot_div_nonneg by lia.
  pose proof (Z.div_pos (- n * 32768) (Zpos d) ltac:(lia) ltac:(lia)).
  assert ((- n * 32768) / Zpos d <= 32768); [|lia].
  apply Z.div_le_upper_bound; lia.
Qed.

Lemma truncate_scaled_nonneg (q : Q) :
  (0 <= q)%Q -> (q <= 1)%Q ->
  0 <= truncate (q * inject_Z 32767) <= 32767.
Proof.
  unfold truncate, Qle. destruct q as [n d]. cbn [Qnum Qden Qmult inject_Z].
  intros H1 H2. rewrite Pos.mul_1_r.
  assert (Hn : 0 <= n) by lia. assert (Hd : n <= Zpos d) by lia.
  rewrite Z.quot_div_nonneg by lia.
  split; [apply Z.div_pos; lia|].
  apply Z.div_le_upper_bound; lia.
Qed.

Lemma ToInt16_small (q : Q) :
  -32768 <= truncate q <= 32767 -> ToInt16 (Finite q) = truncate q.
Proof.
  intros H. unfold ToInt16. cbv zeta.
  destruct (Z_lt_le_dec (truncate q) 0) as [Hn | Hp].
  - replace (truncate q mod 65536) with (truncate q + 65536)
      by (apply Z.mod_unique with (q := -1); lia).
    replace (32768 <=? truncate q + 65536) with true
      by (symmetry; apply Z.leb_le; lia).
    lia.
  - rewrite Z.mod_small by lia.
    replace (32768 <=? truncate q) with false by (symmetry; apply Z.leb_gt; lia).
    reflexivity.
Qed.

Lemma scale_finite (q : Q) :
  scale (Finite q) =
  if Qle_bool 0 q then Finite (q * inject_Z 32767) else Finite (q * inject_Z 32768).
Proof.
  unfold scale, of_Z. cbn [float_ltb float_mul].
  change (inject_Z 0) with 0%Q. destruct (Qle_bool 0 q); reflexivity.
Qed.

(** The number stored for a sample whose clamped value is [q]. *)
Lemma sample_int16_clamped (x : float) (q : Q) :
  clamp x = Finite q -> (-1 <= q <= 1)%Q ->
  ((q < 0)%Q -> sample_int16 x = truncate (q * inject_Z 32768)) /\
  ((0 <= q)%Q -> sample_int16 x = truncate (q * inject_Z 32767)) /\
  -32768 <= sample_int16 x <= 32767.
Proof.
  intros Hc [Hlo Hhi]. unfold sample_int16. rewrite Hc, scale_finite.
  destruct (Qle_bool 0 q) eqn:E.
  - apply Qle_bool_iff in E.
    pose proof (truncate_scaled_nonneg q E Hhi) as Hr.
    rewrite ToInt16_small by lia. split; [|split].
    + intros Hn. exfalso. apply (Qlt_not_le _ _ Hn), E.
    + reflexivity.
    + lia.
  - assert (Hn : (q < 0)%Q).
    { apply Qnot_le_lt. intros H. apply Qle_bool_iff in H. congruence. }
    pose proof (truncate_scaled_neg q Hlo Hn) as Hr.
    rewrite ToInt16_small by lia. split; [|split].
    + reflexivity.
    + intros Hp. exfalso. apply (Qlt_not_le _ _ Hn), Hp.
    + lia.
Qed.

(** What the clamp does to a finite sample: it keeps one inside (-1, 1)
    and saturates the others. *)
Lemma clamp_cases (q : Q) :
  ((inject_Z 1 <= q)%Q -> clamp (Finite q) = Finite (inject_Z 1)) /\
  ((q <= inject_Z (-1))%Q -> clamp (Finite q) = Finite (inject_Z (-1))) /\
  (~ (inject_Z 1 <= q)%Q -> ~ (q <= inject_Z (-1))%Q ->
   clamp (Finite q) = Finite q).
Proof.
  unfold clamp, Math_min, Math_max, of_Z. cbn [float_ltb].
  destruct (Qle_bool (inject_Z 1) q) eqn:E1; cbn [negb float_ltb].
  - apply Qle_bool_iff in E1. split; [reflexivity|]. split.
    + intros H. exfalso. pose proof (Qle_trans _ _ _ E1 H) as H0.
      revert H0. unfold Qle. cbn. lia.
    + tauto.
  - assert (N1 : ~ (inject_Z 1 <= q)%Q)
      by (intros H; apply Qle_bool_iff in H; congruence).
    destruct (Qle_bool q (inject_Z (-1))) eqn:E2; cbn [negb].
    + apply Qle_bool_iff in E2. split; [tauto|]. split; [reflexivity | tauto].
    + assert (N2 : ~ (q <= inject_Z (-1))%Q)
        by (intros H; apply Qle_bool_iff in H; congruence).
      split; [tauto|]. split; [tauto | reflexivity].
Qed.

(** The number stored for a finite sample, by the interval it lies in. *)
Lemma sample_int16_cases (q : Q) :
  ((inject_Z 1 <= q)%Q -> sample_int16 (Finite q) = 32767) /\
  ((q <= inject_Z (-1))%Q -> sample_int16 (Finite q) = -32768) /\
  ((inject_Z (-1) < q)%Q -> (q < 0)%Q ->
   sample_int16 (Finite q) = truncate (q * inject_Z 32768)) /\
  ((0 <= q)%Q -> (q < inject_Z 1)%Q ->
   sample_int16 (Finite q) = truncate (q * inject_Z 32767)).
Proof.
  destruct (clamp_cases q) as (C1 & C2 & C3).
  split; [|split; [|split]].
  - intros H. unfold sample_int16. rewrite (C1 H). reflexivity.
  - intros H. unfold sample_int16. rewrite (C2 H). reflexivity.
  - intros Hlo Hneg.
    assert (Hc : clamp (Finite q) = Finite q).
    { apply C3; [|apply Qlt_not_le, Hlo].
      intros H. apply (Qlt_not_le _ _ Hneg).
      apply Qle_trans with (inject_Z 1); [discriminate | exact H]. }
    apply (sample_int16_clamped (Finite q) q Hc); [|exact Hneg].
    split; [apply Qlt_le_weak, Hlo|].
    apply Qle_trans with 0%Q; [apply Qlt_le_weak, Hneg | discriminate].
  - intros Hpos Hhi.
    assert (Hc : clamp (Finite q) = Finite q).
    { apply C3; [apply Qlt_not_le, Hhi|].
      intros H. apply (Qle_not_lt _ _ Hpos).
      apply Qle_lt_trans with (inject_Z (-1)); [exact H | reflexivity]. }
    apply (sample_int16_clamped (Finite q) q Hc); [|exact Hpos].
    split; [|apply Qlt_le_weak, Hhi].
    apply Qle_trans with 0%Q; [discriminate | exact Hpos].
Qed.

Lemma sample_int16_range (x : float) : -32768 <= sample_int16 x <= 32767.
Proof.
  destruct x as [q| | |].
  - destruct (clamp_finite q) as (q' & Hc & Hr & _).
    apply (sample_int16_clamped _ _ Hc Hr).
  - vm_compute. split; discriminate.
  - vm_compute. split; discriminate.
  - vm_compute. split; discriminate.
Qed.


Lemma skipn_repeat_sub (A : Type) (a : A) (k n : nat) :
  skipn k (repeat a n) = repeat a (n - k).
Proof.
  revert n. induction k as [|k IH]; intros [|n]; simpl; auto.
Qed.

(** A store just after the part already written of a buffer whose rest is
    still zero. *)
Lemma store_append (pre data : bytes) (n : nat) (off : Z) :
  (length data <= n)%nat -> off = byteLength pre ->
  store (pre ++ repeat x00 n) off data =
  Ok ((pre ++ data) ++ repeat x00 (n - length data)).
Proof.
  intros Hn ->. unfold store.
  pose proof (byteLength_nonneg pre).
  replace ((0 <=? byteLength pre) &&
           (byteLength pre + byteLength data <=? byteLength (pre ++ repeat x00 n)))
    with true.
  2:{ symmetry. rewrite andb_true_iff, !Z.leb_le. split; [lia|].
      rewrite byteLength_app. unfold byteLength. rewrite repeat_length. lia. }
  unfold byteLength. rewrite Nat2Z.id.
  rewrite firstn_app, firstn_all, Nat.sub_diag. cbn [firstn]. rewrite app_nil_r.
  rewrite skipn_app, skipn_all2 by lia. cbn [app].
  replace (length pre + length data - length pre)%nat with (length data) by lia.
  rewrite skipn_repeat_sub, <- app_assoc. reflexivity.
Qed.

Lemma writeString_append (s : bytes) :
  forall (pre : bytes) (n : nat) (off i : Z),
    (length s <= n)%nat -> off + i = byteLength pre ->
    writeString_from (pre ++ repeat x00 n) off i s =
    Ok ((pre ++ s) ++ repeat x00 (n - length s)).
Proof.
  induction s as [|c s IH]; intros pre n off i Hn Hoff.
  - cbn [writeString_from length]. rewrite app_nil_r, Nat.sub_0_r. reflexivity.
  - cbn [writeString_from length] in *. unfold setUint8.
    rewrite (store_append pre [byte_of_Z (Z_of_byte c)] n) by (simpl; lia || exact Hoff).
    cbn [bind]. rewrite byte_of_Z_of_byte.
    rewrite IH; [| simpl; lia | rewrite byteLength_app; change (byteLength [c]) with 1; lia].
    rewrite <- !app_assoc. cbn [app length].
    replace (n - 1 - length s)%nat with (n - S (length s))%nat by lia.
    reflexivity.
Qed.

Lemma write_channels_append (buffer : AudioBuffer) (i : nat) (n : nat) :
  forall (channel : nat) (pre : bytes) (m : nat) (off : Z),
    (2 * n <= m)%nat -> off = byteLength pre ->
    write_channels buffer i n channel (pre ++ repeat x00 m) off =
    Ok ((pre ++ flat_map (fun ch => le16 (sample_int16 (getChannelData buffer ch i)))
                  (seq channel n))
        ++ repeat x00 (m - 2 * n), off + 2 * Z.of_nat n).
Proof.
  induction n as [|n IH]; intros channel pre m off Hm Hoff.
  - cbn [write_channels seq flat_map]. rewrite app_nil_r, Nat.sub_0_r.
    do 2 f_equal. lia.
  - cbn [write_channels seq flat_map]. unfold setInt16.
    fold (sample_int16 (getChannelData buffer channel i)).
    rewrite (store_append pre _ m off) by (simpl; lia || exact Hoff).
    cbn [bind]. change (length (le16 _)) with 2%nat.
    rewrite IH; [| lia
                 | rewrite byteLength_app; change (byteLength (le16 _)) with 2; lia].
    rewrite <- !app_assoc.
    replace (m - 2 - 2 * n)%nat with (m - 2 * S n)%nat by lia.
    replace (off + 2 + 2 * Z.of_nat n) with (off + 2 * Z.of_nat (S n)) by lia.
    reflexivity.
Qed.

Lemma write_frames_append (buffer : AudioBuffer) (n : nat) :
  forall (i : nat) (pre : bytes) (m : nat) (off : Z),
    (2 * (n * numberOfChannels buffer) <= m)%nat -> off = byteLength pre ->
    write_frames buffer n i (pre ++ repeat x00 m) off =
    Ok ((pre ++ flat_map (wav_frame buffer) (seq i n))
        ++ repeat x00 (m - 2 * (n * numberOfChannels buffer)),
        off + 2 * Z.of_nat (n * numberOfChannels buffer)).
Proof.
  induction n as [|n IH]; intros i pre m off Hm Hoff.
  - cbn [write_frames seq flat_map Nat.mul]. rewrite app_nil_r, Nat.sub_0_r.
    do 2 f_equal. lia.
  - cbn [write_frames seq flat_map].
    rewrite (write_channels_append buffer i _ 0 pre m off) by (lia || exact Hoff).
    cbn [bind fst snd]. fold (wav_frame buffer i).
    rewrite IH.
    + rewrite <- !app_assoc.
      replace (m - 2 * numberOfChannels buffer - 2 * (n * numberOfChannels buffer))%nat
        with (m - 2 * (S n * numberOfChannels buffer))%nat by lia.
      replace (off + 2 * Z.of_nat (numberOfChannels buffer)
               + 2 * Z.of_nat (n * numberOfChannels buffer))
        with (off + 2 * Z.of_nat (S n * numberOfChannels buffer)) by lia.
      reflexivity.
    + lia.
    + rewrite byteLength_app. unfold wav_frame, byteLength.
      assert (Hl : forall l, length (flat_map
                (fun ch => le16 (sample_int16 (getChannelData buffer ch i))) l)
              = (2 * length l)%nat).
      { induction l as [|a l IHl]; [reflexivity|].
        cbn [flat_map]. rewrite length_app, IHl. cbn [length le16]. lia. }
      rewrite Hl, length_seq. unfold byteLength in Hoff. lia.
Qed.

Ltac wav_lengths :=
  repeat change (length (txt _)) with 4%nat;
  repeat change (length (le32 _)) with 4%nat;
  repeat change (length (le16 _)) with 2%nat.

Ltac wav_side := first [ reflexivity | wav_lengths; lia ].

(** The transcoder always returns, and returns the header followed by the
    samples. *)
Lemma audioBufferToWav_total (buffer : AudioBuffer) :
  audioBufferToWav buffer = Ok (wav_header buffer ++ wav_samples buffer).
Proof.
  unfold audioBufferToWav, writeString, setUint32, setUint16. cbv zeta.
  set (C := numberOfChannels buffer).
  set (L := Wav.length buffer).
  replace (Z.to_nat (Z.of_nat L * Z.of_nat C * 2 + 44))
    with (44 + 2 * (L * C))%nat by (rewrite <- Nat2Z.inj_mul; lia).
  change (repeat x00 (44 + 2 * (L * C))) with ([] ++ repeat x00 (44 + 2 * (L * C))).
  repeat (first [ rewrite writeString_append by wav_side
                | rewrite store_append by wav_side ];
          cbn [bind]; wav_lengths).
  rewrite write_frames_append.
  - cbn [bind fst]. fold L C.
    replace (44 + 2 * (L * C) - 4 - 4 - 4 - 4 - 4 - 2 - 2 - 4 - 4 - 2 - 2 - 4 - 4
             - 2 * (L * C))%nat with O by (simpl; lia).
    cbn [repeat]. rewrite app_nil_r. unfold wav_header, wav_samples.
    fold L C. cbv zeta. rewrite <- !app_assoc. reflexivity.
  - fold L C. simpl. lia.
  - reflexivity.
Qed.

End WavFacts.

(** ** The playback scheduler *)

Module PlayerFacts.

Import AGIFPlayer.




Section Scheduler.

Variable Image : Type.

Local Abbreviation animate := (AGIFPlayer.animate Image).
Local Abbreviation play := (AGIFPlayer.play Image).
Local Abbreviation pause := (AGIFPlayer.pause Image).
Local Abbreviation ticks := (AGIFPlayer.ticks Image).
Local Abbreviation run := (AGIFPlayer.run Image).

(** One tick of a playing scheduler whose current frame exists. *)
Lemma animate_playing (w : world Image) (d : decoded Image) :
  isPlaying (this w) = true ->
  this_decoded (this w) = Some d ->
  has_frame (frames d) (currentFrame (this w)) = true ->
  animate w =
  ({| this := {| isPlaying := true;
                 currentFrame := Z.rem (currentFrame (this w) + 1) (numFrames (header d));
                 animationId := Some (nextTimeout (env w));
                 this_decoded := Some d |};
      env := snd (setTimeout (env w)) |},
   Draw (currentFrame (this w))
   :: fire (audioBuffers d) (currentFrame (this w)) (triggers d)).
Proof.
  intros Hp Hd Hf. unfold AGIFPlayer.animate. rewrite Hp, Hd. cbn [negb].
  assert (Hlen : (length (frames d) =? 0)%nat = false).
  { apply Nat.eqb_neq. unfold has_frame in Hf.
    apply andb_true_iff in Hf as [H1 H2]. apply Z.ltb_lt in H2.
    apply Z.leb_le in H1. lia. }
  rewrite Hlen, Hf. reflexivity.
Qed.

Lemma animate_paused (w : world Image) :
  isPlaying (this w) = false -> animate w = (w, []).
Proof.
  intros Hp. unfold AGIFPlayer.animate. rewrite Hp. reflexivity.
Qed.

Lemma count_occ_fire (bufs : list Wav.AudioBuffer) (current : Z)
  (trs : list Trigger) (t : Trigger) :
  count_occ event_eq_dec (fire bufs current trs) (StartClip t) =
  if (frame t =? current) && has_clip bufs (audio t)
  then count_occ Trigger_eq_dec trs t else O.
Proof.
  unfold fire. induction trs as [|x trs IH].
  - cbn. destruct ((frame t =? current) && has_clip bufs (audio t)); reflexivity.
  - cbn [filter].
    destruct ((frame x =? current) && has_clip bufs (audio x)) eqn:Ex.
    + cbn [map count_occ].
      destruct (event_eq_dec (StartClip x) (StartClip t)) as [E | E].
      * injection E as ->. rewrite Ex in *.
        destruct (Trigger_eq_dec t t); [|contradiction]. rewrite IH. reflexivity.
      * destruct (Trigger_eq_dec x t) as [-> | Hn]; [contradiction|].
        rewrite IH. reflexivity.
    + rewrite IH. cbn [count_occ].
      destruct (Trigger_eq_dec x t) as [-> | Hn]; [|reflexivity].
      rewrite Ex. reflexivity.
Qed.

Lemma count_occ_Draw_cons (i : Z) (l : list event) (t : Trigger) :
  count_occ event_eq_dec (Draw i :: l) (StartClip t) =
  count_occ event_eq_dec l (StartClip t).
Proof.
  cbn [count_occ]. destruct (event_eq_dec (Draw i) (StartClip t)); [discriminate|].
  reflexivity.
Qed.

(** [pause()] leaves the frame index, the container and every pending
    timeout as they are. *)
Lemma pause_spec (w : world Image) :
  isPlaying (this (pause w)) = false /\
  currentFrame (this (pause w)) = currentFrame (this w) /\
  this_decoded (this (pause w)) = this_decoded (this w) /\
  timeouts (env (pause w)) = timeouts (env w).
Proof.
  unfold AGIFPlayer.pause. destruct (animationId (this w)) as [id|].
  - destruct (id =? 0)%nat; repeat split; reflexivity.
  - repeat split; reflexivity.
Qed.


(** A pending callback that runs while the scheduler is paused draws
    nothing, starts nothing, schedules no timeout and leaves the player as
    it is. *)
Lemma callbacks_while_paused (l : list action) :
  Forall callback l ->
  forall w, isPlaying (this w) = false ->
    this (fst (run l w)) = this w /\ snd (run l w) = [] /\
    nextTimeout (env (fst (run l w))) = nextTimeout (env w) /\
    incl (timeouts (env (fst (run l w)))) (timeouts (env w)).
Proof.
  induction 1 as [|a l Ha _ IH]; intros w Hp.
  - cbn. repeat split; auto. apply incl_refl.
  - cbn [AGIFPlayer.run].
    assert (Hs : exists w1, step Image a w = (w1, []) /\ this w1 = this w /\
                            nextTimeout (env w1) = nextTimeout (env w) /\
                            incl (timeouts (env w1)) (timeouts (env w))).
    { destruct a as [| |id|id]; try contradiction; cbn [step].
      - eexists. split; [reflexivity|]. unfold timeout_fires.
        destruct (in_dec Nat.eq_dec id (timeouts (env w))).
        + cbn. repeat split; auto. intros x Hx.
          apply in_remove in Hx. tauto.
        + repeat split; auto. apply incl_refl.
      - unfold frame_fires.
        destruct (in_dec Nat.eq_dec id (frameRequests (env w))).
        + rewrite animate_paused by exact Hp.
          eexists. split; [reflexivity|]. cbn. repeat split; auto.
          apply incl_refl.
        + eexists. split; [reflexivity|]. repeat split; auto. apply incl_refl. }
    destruct Hs as (w1 & -> & Hw1 & Hn1 & Hi1).
    destruct (IH w1 ltac:(rewrite Hw1; exact Hp)) as (H1 & H2 & H3 & H4).
    destruct (run l w1) as [w2 e2]. cbn [fst snd] in *.
    subst e2. cbn [app].
    split; [congruence | split; [reflexivity | split; [congruence|]]].
    unfold incl in *. intros x Hx. apply Hi1, H4, Hx.
Qed.

End Scheduler.

End PlayerFacts.


(** ** The codec claims *)

Lemma decode_sections_build (frameRate : Z) (frameData audioData : list bytes)
  (triggers : list Trigger) :
  byteLength (build_container frameRate frameData audioData triggers) < 4294967296 ->
  AGIFDecoder.decode_sections JSON_parse
    (build_container frameRate frameData audioData triggers) =
  Ok {| AGIFDecoder.s_header :=
          header_json frameRate (Z.of_nat (length frameData))
            (Z.of_nat (length audioData));
        AGIFDecoder.s_frameData :=
          map (fun view => AGIFDecoder.dataURL (TextDecoder_decode view)) frameData;
        AGIFDecoder.s_audioData := audioData;
        AGIFDecoder.s_triggers := triggerMap_json triggers |}.
Proof.
  intros Hsize. unfold AGIFDecoder.decode_sections.
  rewrite (read_container_build frameRate frameData audioData triggers Hsize).
  cbn [bind]. rewrite Z.eqb_refl. reflexivity.
Qed.

Lemma TextDecoder_decode_text (payload : bytes) :
  Spec.is_base64 payload = true -> TextDecoder_decode payload = payload.
Proof.
  destruct payload as [|c l]; [reflexivity|]. intros H.
  apply TextDecoder_decode_plain. intros ->. discriminate H.
Qed.

Lemma triggers_of_json_map (trs : list Trigger) :
  AGIFPlayer.triggers_of_json (map trigger_json trs) = Some trs.
Proof.
  induction trs as [|[f a] trs IH]; [reflexivity|].
  cbn [map AGIFPlayer.triggers_of_json]. rewrite IH. reflexivity.
Qed.

Lemma payloads_of_dataURLs (payloads : list bytes) :
  Forall (fun p => Spec.is_base64 p = true) payloads ->
  map Spec.payload_of_dataURL
    (map (fun view => AGIFDecoder.dataURL (TextDecoder_decode view)) payloads)
  = payloads.
Proof.
  induction 1 as [|p l Hp _ IH]; [reflexivity|].
  cbn [map]. rewrite IH, (TextDecoder_decode_text p Hp). reflexivity.
Qed.

Lemma all_length (A B : Type) (e : error) (f : A -> option B) (l : list A)
  (l' : list B) :
  all e f l = Ok l' -> length l' = length l.
Proof.
  revert l'. induction l as [|a l IH]; intros l' H; cbn [all] in H.
  - injection H as <-. reflexivity.
  - destruct (f a) as [b|]; [|discriminate]. cbn [of_option bind] in H.
    destruct (all e f l) as [bs|]; [|discriminate]. cbn [bind] in H.
    injection H as <-. cbn [length]. rewrite (IH bs eq_refl). reflexivity.
Qed.

(** What [decode] resolves to on a container that [build_container] made:
    the loaded frames and clips, the header and the triggers as written,
    and loop = true. *)
Lemma decode_build (Image : Type) (loadImage : bytes -> option Image)
  (decodeAudioData : bytes -> option Wav.AudioBuffer)
  (frameRate : Z) (frameData audioData : list bytes) (triggers : list Trigger) :
  byteLength (build_container frameRate frameData audioData triggers) < 4294967296 ->
  AGIFDecoder.decode JSON_parse Image loadImage decodeAudioData
    (build_container frameRate frameData audioData triggers) =
  (frames <- all ImageLoadError loadImage
               (map (fun view => AGIFDecoder.dataURL (TextDecoder_decode view))
                  frameData) ;;
   audioBuffers <- all AudioDecodeError decodeAudioData audioData ;;
   Ok {| AGIFDecoder.header :=
           header_json frameRate (Z.of_nat (length frameData))
             (Z.of_nat (length audioData));
         AGIFDecoder.frames := frames;
         AGIFDecoder.audioBuffers := audioBuffers;
         AGIFDecoder.triggers := JArr (map trigger_json triggers);
         AGIFDecoder.loop := true |}).
Proof.
  intros Hsize. unfold AGIFDecoder.decode.
  rewrite (decode_sections_build _ _ _ _ Hsize). reflexivity.
Qed.

(** The player reads such a container as one whose header count is the
    number of its frames, with the triggers of the encoder. *)
Lemma decode_build_playable (Image : Type) (loadImage : bytes -> option Image)
  (decodeAudioData : bytes -> option Wav.AudioBuffer)
  (frameRate : Z) (frameData audioData : list bytes) (triggers : list Trigger)
  (d : AGIFDecoder.decoded Image) :
  byteLength (build_container frameRate frameData audioData triggers) < 4294967296 ->
  AGIFDecoder.decode JSON_parse Image loadImage decodeAudioData
    (build_container frameRate frameData audioData triggers) = Ok d ->
  exists p, AGIFPlayer.playable Image d = Some p /\
            AGIFPlayer.consistent p /\
            AGIFPlayer.triggers p = triggers /\
            AGIFPlayer.loop p = true.
Proof.
  intros Hsize H. rewrite (decode_build _ _ _ _ _ _ _ Hsize) in H.
  destruct (all ImageLoadError loadImage _) as [fr|] eqn:Ef; [|discriminate].
  cbn [bind] in H.
  destruct (all AudioDecodeError decodeAudioData _) as [au|]; [|discriminate].
  cbn [bind] in H. injection H as <-.
  apply all_length in Ef. rewrite length_map in Ef.
  unfold AGIFPlayer.playable.
  cbn [AGIFDecoder.header AGIFDecoder.triggers AGIFDecoder.frames
       AGIFDecoder.audioBuffers AGIFDecoder.loop].
  change (prop (header_json frameRate (Z.of_nat (length frameData))
                  (Z.of_nat (length audioData))) "width") with (Some (JNum 300)).
  change (prop (header_json frameRate (Z.of_nat (length frameData))
                  (Z.of_nat (length audioData))) "height") with (Some (JNum 300)).
  change (prop (header_json frameRate (Z.of_nat (length frameData))
                  (Z.of_nat (length audioData))) "frameRate")
    with (Some (JNum frameRate)).
  change (prop (header_json frameRate (Z.of_nat (length frameData))
                  (Z.of_nat (length audioData))) "numFrames")
    with (Some (JNum (Z.of_nat (length frameData)))).
  cbv beta iota. rewrite triggers_of_json_map.
  eexists. split; [reflexivity|].
  unfold AGIFPlayer.consistent.
  cbn [AGIFPlayer.header AGIFPlayer.numFrames AGIFPlayer.frames
       AGIFPlayer.triggers AGIFPlayer.loop].
  rewrite Ef. auto.
Qed.

(** C1, as the specification states it, fails: a container whose loop flag
    is false satisfies the count invariants and is decoded, after encoding,
    with the loop flag true. *)
Lemma roundtrip_loses_loop_flag :
  let x := Spec.with_loop false example_container in
  Spec.count_invariants x /\
  Spec.decode (Spec.encode x) = Some (Spec.with_loop true example_container) /\
  Spec.decode (Spec.encode x) <> Some x.
Proof.
  cbv zeta. split; [split; reflexivity|].
  assert (H : Spec.decode (Spec.encode (Spec.with_loop false example_container))
              = Some (Spec.with_loop true example_container))
    by (vm_compute; reflexivity).
  split; [exact H|]. rewrite H. discriminate.
Qed.

(** The other fields the encoder has no input for: a container declared
    640 x 480 comes back 300 x 300. *)
Lemma roundtrip_rewrites_frame_size :
  let x :=
    {| Spec.header := {| Spec.version := txt "1.0"; Spec.width := 640;
                         Spec.height := 480; Spec.frameRate := 10;
                         Spec.audioFormat := txt "wav"; Spec.numFrames := 0;
                         Spec.numAudioClips := 0 |};
       Spec.frames := []; Spec.audio := [];
       Spec.triggerMap := {| Spec.frame_triggers := []; Spec.loop := true |} |} in
  Spec.count_invariants x /\
  option_map (fun y => (Spec.width (Spec.header y), Spec.height (Spec.header y)))
    (Spec.decode (Spec.encode x)) = Some (300, 300).
Proof.
  cbv zeta. split; [split; reflexivity|]. vm_compute. reflexivity.
Qed.

(** A payload that is not base64 text may lose a leading byte order mark in
    the decoder. *)
Lemma roundtrip_drops_byte_order_mark :
  AGIFDecoder.decode_sections JSON_parse
    (build_container 10 [[xef; xbb; xbf; x41]] [] [])
  = Ok {| AGIFDecoder.s_header := header_json 10 1 0;
          AGIFDecoder.s_frameData := [AGIFDecoder.dataURL [x41]];
          AGIFDecoder.s_audioData := [];
          AGIFDecoder.s_triggers := triggerMap_json [] |}.
Proof. vm_compute. reflexivity. Qed.

(** C1 (amended): for every container that satisfies the count invariants,
    whose frame payloads are base64 text and whose encoding is shorter than
    2^32 octets, decoding the encoded container yields the frame rate, the
    counts, the frame payloads, the audio octets and the trigger list of
    the input, together with the constants the encoder writes: version 1.0,
    width and height 300, audio format wav and loop flag true.  The result
    is the input, field for field, when the input has these constants. *)
Theorem roundtrip_as_written (x : Spec.Container) :
  Spec.count_invariants x ->
  Forall (fun p => Spec.is_base64 p = true) (Spec.frames x) ->
  byteLength (Spec.encode x) < 4294967296 ->
  Spec.decode (Spec.encode x) = Some (Spec.as_written x) /\
  (Spec.as_written x = x -> Spec.decode (Spec.encode x) = Some x).
Proof.
  intros [Hn Ha] Htext Hsize.
  assert (H : Spec.decode (Spec.encode x) = Some (Spec.as_written x)).
  { unfold Spec.decode, Spec.encode in *.
    rewrite (decode_sections_build _ _ _ _ Hsize).
    unfold Spec.container_of_sections. cbn [AGIFDecoder.s_header
      AGIFDecoder.s_frameData AGIFDecoder.s_audioData AGIFDecoder.s_triggers].
    change (Spec.header_of_json
              (header_json (Spec.frameRate (Spec.header x))
                 (Z.of_nat (length (Spec.frames x)))
                 (Z.of_nat (length (Spec.audio x)))))
      with (Some {| Spec.version := txt "1.0"; Spec.width := 300;
                    Spec.height := 300;
                    Spec.frameRate := Spec.frameRate (Spec.header x);
                    Spec.audioFormat := txt "wav";
                    Spec.numFrames := Z.of_nat (length (Spec.frames x));
                    Spec.numAudioClips := Z.of_nat (length (Spec.audio x)) |}).
    unfold Spec.triggerMap_of_json.
    change (AGIFDecoder.frame_triggers
              (triggerMap_json (Spec.frame_triggers (Spec.triggerMap x))))
      with (JArr (map trigger_json (Spec.frame_triggers (Spec.triggerMap x)))).
    cbv beta iota. rewrite triggers_of_json_map.
    change (AGIFDecoder.loop_flag
              (triggerMap_json (Spec.frame_triggers (Spec.triggerMap x))))
      with true.
    rewrite (payloads_of_dataURLs _ Htext).
    unfold Spec.as_written. rewrite <- Hn, <- Ha. reflexivity. }
  split; [exact H|]. intros E. rewrite H, E. reflexivity.
Qed.

Lemma roundtrip_as_written_witness :
  Spec.decode (Spec.encode example_container) = Some example_container.
Proof.
  refine (proj2 (roundtrip_as_written example_container _ _ _) _).
  - split; reflexivity.
  - repeat constructor.
  - vm_compute. reflexivity.
  - reflexivity.
Defined.

Lemma magic_mismatch (view : bytes) :
  length view = 4%nat -> view <> txt "AGIF" ->
  bytes_eqb (TextDecoder_decode view) (txt "AGIF") = false.
Proof.
  intros Hl Hne.
  destruct view as [|b0 [|b1 [|b2 [|b3 [|]]]]]; try discriminate Hl.
  unfold TextDecoder_decode.
  destruct (Byte.eqb b0 xef && Byte.eqb b1 xbb && Byte.eqb b2 xbf).
  - apply bytes_eqb_neq. discriminate.
  - apply bytes_eqb_neq, Hne.
Qed.

(** C2, as the specification states it, fails on a buffer shorter than four
    octets: its first octets are not the magic, and the decoder fails with
    the range error of the view it cannot take, not with the magic error. *)
Lemma short_buffer_is_range_error :
  firstn 4 (txt "AGI") <> txt "AGIF" /\
  AGIFDecoder.decode JSON_parse bytes (fun data => Some data) (fun _ => None)
    (txt "AGI") = Err RangeError /\
  AGIFDecoder.decode JSON_parse bytes (fun data => Some data) (fun _ => None)
    (txt "AGI") <> Err MissingMagic.
Proof.
  split; [discriminate|]. split; [reflexivity | discriminate].
Qed.

(** C2 (amended): for every buffer of at least four octets whose first four
    octets are not "AGIF", decode fails with the magic error whatever the
    rest of the buffer holds; a buffer shorter than four octets fails with
    the range error of the four-octet view. *)
Theorem decode_bad_magic (parseJSON : bytes -> option json) (Image : Type)
  (loadImage : bytes -> option Image)
  (decodeAudioData : bytes -> option Wav.AudioBuffer) (buf : bytes) :
  ((4 <= length buf)%nat -> firstn 4 buf <> txt "AGIF" ->
   AGIFDecoder.decode parseJSON Image loadImage decodeAudioData buf
   = Err MissingMagic) /\
  ((length buf < 4)%nat ->
   AGIFDecoder.decode parseJSON Image loadImage decodeAudioData buf
   = Err RangeError).
Proof.
  unfold AGIFDecoder.decode, AGIFDecoder.decode_sections,
    AGIFDecoder.read_container.
  split.
  - intros Hl Hne.
    assert (Hv : Uint8Array buf 0 4 = Ok (firstn 4 buf)).
    { unfold Uint8Array, byteLength. rewrite view_fits by lia. reflexivity. }
    rewrite Hv. cbn [bind].
    rewrite magic_mismatch; [reflexivity | | exact Hne].
    rewrite length_firstn. lia.
  - intros Hl. rewrite Uint8Array_out by (unfold byteLength; lia). reflexivity.
Qed.

Lemma decode_bad_magic_witness :
  AGIFDecoder.decode JSON_parse bytes (fun data => Some data) (fun _ => None)
    (txt "GIF89a") = Err MissingMagic /\
  AGIFDecoder.decode JSON_parse bytes (fun data => Some data) (fun _ => None)
    (txt "AG") = Err RangeError.
Proof.
  split.
  - apply (proj1 (decode_bad_magic JSON_parse bytes (fun data => Some data)
                    (fun _ => None) (txt "GIF89a"))).
    + simpl. lia.
    + discriminate.
  - apply (proj2 (decode_bad_magic JSON_parse bytes (fun data => Some data)
                    (fun _ => None) (txt "AG"))).
    simpl. lia.
Defined.

(** C3: for every valid container and every proper prefix of it, decode of
    the prefix fails with the range error of a view or a read that no
    longer fits, and so returns no partial result; and a section whose
    length prefix reaches past the end of the buffer fails in that way. *)
Theorem decode_truncated (parseJSON : bytes -> option json) (Image : Type)
  (loadImage : bytes -> option Image)
  (decodeAudioData : bytes -> option Wav.AudioBuffer) (buf : bytes) (k : nat) :
  valid_container parseJSON buf ->
  (k < length buf)%nat ->
  AGIFDecoder.decode parseJSON Image loadImage decodeAudioData (firstn k buf)
  = Err RangeError /\
  AGIFDecoder.decode_sections parseJSON (firstn k buf) = Err RangeError /\
  (forall (b : bytes) (wrap : bytes -> bytes) (n : nat) (offset len : Z),
      getUint32 b offset = Ok len ->
      byteLength b < offset + 4 + len ->
      AGIFDecoder.read_payloads wrap b (S n) offset = Err RangeError).
Proof.
  intros [s Hs] Hk.
  apply decode_sections_inv in Hs.
  pose proof (read_container_firstn parseJSON buf s k Hs Hk) as Hr.
  assert (Hd : AGIFDecoder.decode_sections parseJSON (firstn k buf) = Err RangeError).
  { unfold AGIFDecoder.decode_sections. rewrite Hr. reflexivity. }
  split; [|split].
  - unfold AGIFDecoder.decode. rewrite Hd. reflexivity.
  - exact Hd.
  - intros b wrap n offset len Hlen Hout.
    cbn [AGIFDecoder.read_payloads]. rewrite Hlen. cbn [bind].
    rewrite Uint8Array_out by lia. reflexivity.
Qed.

Lemma example_buffer_valid : valid_container JSON_parse example_buffer.
Proof.
  eexists. vm_compute. reflexivity.
Defined.

Lemma decode_truncated_witness :
  AGIFDecoder.decode JSON_parse bytes (fun data => Some data) (fun _ => None)
    (firstn 150 example_buffer) = Err RangeError.
Proof.
  apply (proj1 (decode_truncated JSON_parse bytes (fun data => Some data)
                  (fun _ => None) example_buffer 150 example_buffer_valid
                  ltac:(vm_compute; lia))).
Defined.

(** C4: for every valid container and every N > 0, decode of the container
    followed by N more octets fails with the trailing-data error, which
    reports N. *)
Theorem decode_trailing (parseJSON : bytes -> option json) (Image : Type)
  (loadImage : bytes -> option Image)
  (decodeAudioData : bytes -> option Wav.AudioBuffer) (buf extra : bytes) :
  valid_container parseJSON buf ->
  (0 < length extra)%nat ->
  AGIFDecoder.decode parseJSON Image loadImage decodeAudioData (buf ++ extra)
  = Err (ExtraBytes (Z.of_nat (length extra))).
Proof.
  intros [s Hs] Hn.
  apply decode_sections_inv in Hs.
  pose proof (read_container_app parseJSON buf extra s _ Hs) as Hr.
  unfold AGIFDecoder.decode, AGIFDecoder.decode_sections. rewrite Hr.
  cbn [bind]. rewrite byteLength_app. unfold byteLength.
  replace (Z.of_nat (length buf) =? Z.of_nat (length buf) + Z.of_nat (length extra))
    with false by (symmetry; apply Z.eqb_neq; lia).
  cbn [negb bind]. do 2 f_equal. lia.
Qed.

Lemma decode_trailing_witness :
  AGIFDecoder.decode JSON_parse bytes (fun data => Some data) (fun _ => None)
    (example_buffer ++ [x00; x01; x02]) = Err (ExtraBytes 3).
Proof.
  apply (decode_trailing JSON_parse bytes (fun data => Some data) (fun _ => None)
           example_buffer [x00; x01; x02] example_buffer_valid).
  simpl. lia.
Defined.

(** What [createAudiGIF] returns: the container built from the canvas
    exports, the transcoded clips and the global triggers. *)
Lemma createAudiGIF_inv (File : Type) (canvasToBase64 : File -> option bytes)
  (decodeAudioFile : File -> option Wav.AudioBuffer) (g : session File)
  (buf : bytes) :
  createAudiGIF File canvasToBase64 decodeAudioFile g = Ok buf ->
  exists frameData buffers,
    all Unsettled canvasToBase64 (images g) = Ok frameData /\
    all AudioDecodeError decodeAudioFile (audioFiles g) = Ok buffers /\
    buf = build_container (frameRate g) frameData
            (map (fun b => Wav.wav_header b ++ Wav.wav_samples b) buffers)
            (triggers g).
Proof.
  unfold createAudiGIF.
  destruct (all Unsettled canvasToBase64 (images g)) as [frameData|];
    [|discriminate].
  cbn [bind].
  destruct (all AudioDecodeError decodeAudioFile (audioFiles g)) as [buffers|];
    [|discriminate].
  cbn [bind]. intros H. exists frameData, buffers.
  split; [reflexivity|]. split; [reflexivity|].
  match type of H with
  | bind (?f buffers) _ = _ =>
      assert (Hw : f buffers
                   = Ok (map (fun b => Wav.wav_header b ++ Wav.wav_samples b)
                           buffers))
  end.
  { clear H. induction buffers as [|b l IH]; [reflexivity|].
    rewrite WavFacts.audioBufferToWav_total. cbn [bind]. rewrite IH. reflexivity. }
  rewrite Hw in H. cbn [bind] in H. injection H as <-. reflexivity.
Qed.

(** C10: whatever the authoring input, the trigger section the encoder
    writes has the loop field true, a loop setting of the input does not
    reach the container, and every container the encoder produces (shorter
    than 2^32 octets, so that its length prefixes are exact) decodes with
    loop = true. *)
Theorem encoder_loop_is_true (File : Type)
  (canvasToBase64 : File -> option bytes)
  (decodeAudioFile : File -> option Wav.AudioBuffer) (g : session File)
  (buf : bytes) :
  createAudiGIF File canvasToBase64 decodeAudioFile g = Ok buf ->
  byteLength buf < 4294967296 ->
  (exists s, AGIFDecoder.decode_sections JSON_parse buf = Ok s /\
             AGIFDecoder.s_triggers s = triggerMap_json (triggers g) /\
             prop (AGIFDecoder.s_triggers s) "loop" = Some (JBool true) /\
             AGIFDecoder.loop_flag (AGIFDecoder.s_triggers s) = true) /\
  (forall (Image : Type) (loadImage : bytes -> option Image)
          (decodeAudioData : bytes -> option Wav.AudioBuffer)
          (d : AGIFDecoder.decoded Image),
      AGIFDecoder.decode JSON_parse Image loadImage decodeAudioData buf = Ok d ->
      AGIFDecoder.loop d = true) /\
  (forall (x : Spec.Container) (b : bool),
      Spec.encode (Spec.with_loop b x) = Spec.encode x).
Proof.
  intros Hc Hsize.
  destruct (createAudiGIF_inv _ _ _ _ _ Hc) as (frameData & buffers & _ & _ & ->).
  pose proof (decode_sections_build _ _ _ _ Hsize) as Hd.
  split; [|split].
  - eexists. split; [exact Hd|]. cbn [AGIFDecoder.s_triggers].
    repeat split; reflexivity.
  - intros Image loadImage decodeAudioData d H.
    unfold AGIFDecoder.decode in H. rewrite Hd in H. cbn [bind] in H.
    destruct (all ImageLoadError loadImage _) as [fr|]; [|discriminate].
    cbn [bind] in H.
    destruct (all AudioDecodeError decodeAudioData _) as [au|]; [|discriminate].
    cbn [bind AGIFDecoder.s_triggers AGIFDecoder.s_header] in H.
    cbv zeta in H. change (is_null (triggerMap_json (triggers g))) with false in H.
    cbv iota in H. injection H as <-. reflexivity.
  - reflexivity.
Qed.

Lemma encoder_loop_is_true_witness :
  exists buf,
    createAudiGIF nat (fun _ => Some (txt "iVBORw0KGgo=")) (fun _ => Some silent_clip)
      example_session = Ok buf /\
    forall d,
      AGIFDecoder.decode JSON_parse bytes (fun data => Some data)
        (fun _ => Some silent_clip) buf = Ok d ->
      AGIFDecoder.loop d = true.
Proof.
  eexists. split; [vm_compute; reflexivity|].
  intros d.
  refine (proj1 (proj2 (encoder_loop_is_true nat (fun _ => Some (txt "iVBORw0KGgo="))
                          (fun _ => Some silent_clip) example_session _ _ _))
            bytes (fun data => Some data) (fun _ => Some silent_clip) d).
  - vm_compute. reflexivity.
  - vm_compute. reflexivity.
Defined.

(** ** The transcoder claim *)

Lemma int16_le_le16 (v : Z) :
  -32768 <= v <= 32767 -> int16_le (le16 v) = v.
Proof.
  intros Hv. unfold int16_le, le16. rewrite !Z_of_byte_of_Z. cbv zeta.
  pose proof (Z.div_mod v 256 ltac:(lia)) as H1.
  pose proof (Z.mod_pos_bound v 256 ltac:(lia)) as H2.
  pose proof (Z.mod_pos_bound (v / 256) 256 ltac:(lia)) as H3.
  pose proof (Z.div_mod (v / 256) 256 ltac:(lia)) as H4.
  assert (H5 : -128 <= v / 256 <= 127) by lia.
  destruct (Z_lt_le_dec v 0) as [Hn | Hp].
  - assert (H6 : (v / 256) mod 256 = v / 256 + 256)
      by (symmetry; apply Z.mod_unique with (q := -1); lia).
    rewrite H6.
    replace (32768 <=? v mod 256 + 256 * (v / 256 + 256)) with true
      by (symmetry; apply Z.leb_le; lia).
    lia.
  - assert (H6 : (v / 256) mod 256 = v / 256) by (apply Z.mod_small; lia).
    rewrite H6.
    replace (32768 <=? v mod 256 + 256 * (v / 256)) with false
      by (symmetry; apply Z.leb_gt; lia).
    lia.
Qed.

(** C5: every sample is passed through the clamp to [-1, 1]: a finite
    sample inside (-1, 1) is kept as it is, one at or above 1 becomes 1, one
    at or below -1 becomes -1, and so do the infinities (NaN, which is not
    a number, is stored as 0); a clamped negative sample is multiplied by
    32768 and a clamped non-negative one by 32767, truncated, and stored as
    a signed 16-bit number, least significant octet first; 1.0 and every
    sample above are stored as 32767, -1.0 and every sample below as
    -32768; and the transcoder returns for every buffer. *)
Theorem sample_encoding (x : Wav.float) :
  (x <> Wav.NaN ->
   exists q, Wav.clamp x = Wav.Finite q /\ (-1 <= q <= 1)%Q /\
     ((q < 0)%Q -> Wav.sample_int16 x = Wav.truncate (q * inject_Z 32768)) /\
     ((0 <= q)%Q -> Wav.sample_int16 x = Wav.truncate (q * inject_Z 32767))) /\
  -32768 <= Wav.sample_int16 x <= 32767 /\
  int16_le (le16 (Wav.sample_int16 x)) = Wav.sample_int16 x /\
  Wav.sample_int16 (Wav.Finite 1) = 32767 /\
  Wav.sample_int16 (Wav.Finite (-1)) = -32768 /\
  Wav.sample_int16 Wav.NaN = 0 /\
  (forall buffer : Wav.AudioBuffer,
      Wav.audioBufferToWav buffer =
      Ok (Wav.wav_header buffer ++ Wav.wav_samples buffer)) /\
  (forall q : Q,
      ((inject_Z 1 <= q)%Q ->
       Wav.clamp (Wav.Finite q) = Wav.Finite (inject_Z 1) /\
       Wav.sample_int16 (Wav.Finite q) = 32767) /\
      ((q <= inject_Z (-1))%Q ->
       Wav.clamp (Wav.Finite q) = Wav.Finite (inject_Z (-1)) /\
       Wav.sample_int16 (Wav.Finite q) = -32768) /\
      ((inject_Z (-1) < q)%Q -> (q < 0)%Q ->
       Wav.clamp (Wav.Finite q) = Wav.Finite q /\
       Wav.sample_int16 (Wav.Finite q) = Wav.truncate (q * inject_Z 32768)) /\
      ((0 <= q)%Q -> (q < inject_Z 1)%Q ->
       Wav.clamp (Wav.Finite q) = Wav.Finite q /\
       Wav.sample_int16 (Wav.Finite q) = Wav.truncate (q * inject_Z 32767))) /\
  Wav.clamp Wav.PosInf = Wav.Finite (inject_Z 1) /\
  Wav.clamp Wav.NegInf = Wav.Finite (inject_Z (-1)) /\
  Wav.sample_int16 Wav.PosInf = 32767 /\
  Wav.sample_int16 Wav.NegInf = -32768.
Proof.
  split; [|split; [|split; [|split; [|split; [|split; [|split; [|split]]]]]]].
  - intros Hx. destruct (WavFacts.clamp_number x Hx) as (q & Hc & Hr).
    exists q. split; [exact Hc|]. split; [exact Hr|].
    destruct (WavFacts.sample_int16_clamped x q Hc Hr) as (H1 & H2 & _). auto.
  - apply WavFacts.sample_int16_range.
  - apply int16_le_le16, WavFacts.sample_int16_range.
  - reflexivity.
  - reflexivity.
  - reflexivity.
  - apply WavFacts.audioBufferToWav_total.
  - intros q.
    destruct (WavFacts.clamp_cases q) as (C1 & C2 & C3).
    destruct (WavFacts.sample_int16_cases q) as (S1 & S2 & S3 & S4).
    split; [|split; [|split]].
    + intros H. split; [exact (C1 H) | exact (S1 H)].
    + intros H. split; [exact (C2 H) | exact (S2 H)].
    + intros Hlo Hneg. split; [|exact (S3 Hlo Hneg)].
      apply C3; [|apply Qlt_not_le, Hlo].
      intros H. apply (Qlt_not_le _ _ Hneg).
      apply Qle_trans with (inject_Z 1); [discriminate | exact H].
    + intros Hpos Hhi. split; [|exact (S4 Hpos Hhi)].
      apply C3; [apply Qlt_not_le, Hhi|].
      intros H. apply (Qle_not_lt _ _ Hpos).
      apply Qle_lt_trans with (inject_Z (-1)); [exact H | reflexivity].
  - repeat split; reflexivity.
Qed.

Lemma sample_encoding_witness :
  Wav.clamp (Wav.Finite (1 # 2)) = Wav.Finite (1 # 2) /\
  Wav.sample_int16 (Wav.Finite (1 # 2)) = 16383 /\
  Wav.sample_int16 (Wav.Finite (-1 # 3)) = -10922 /\
  Wav.sample_int16 (Wav.Finite (3 # 2)) = 32767 /\
  Wav.sample_int16 (Wav.Finite (-7 # 2)) = -32768.
Proof.
  pose proof (proj1 (proj2 (proj2 (proj2 (proj2 (proj2 (proj2 (proj2
                (sample_encoding Wav.NaN))))))))) as H.
  destruct (H (1 # 2)) as (_ & _ & _ & H1).
  destruct (H (-1 # 3)) as (_ & _ & H2 & _).
  destruct (H (3 # 2)) as (H3 & _).
  destruct (H (-7 # 2)) as (_ & H4 & _).
  destruct (H1 ltac:(discriminate) ltac:(reflexivity)) as [E1 E1'].
  split; [exact E1|]. split; [exact E1'|].
  split; [exact (proj2 (H2 ltac:(reflexivity) ltac:(reflexivity)))|].
  split; [exact (proj2 (H3 ltac:(discriminate)))|].
  exact (proj2 (H4 ltac:(discriminate))).
Defined.

(** ** The scheduler claims *)

Module SchedulerClaims.

Import AGIFPlayer PlayerFacts.

Lemma has_frame_bounds (Image : Type) (frames : list Image) (i : Z) :
  has_frame frames i = true <-> 0 <= i < Z.of_nat (length frames).
Proof.
  unfold has_frame. rewrite andb_true_iff, Z.leb_le, Z.ltb_lt. tauto.
Qed.

(** C6: on every tick of a playing scheduler the frame index becomes
    (currentFrame + 1) mod numFrames, whatever the loop flag of the
    container; with three frames, three ticks from frame 0 lead back to
    frame 0, and during them a trigger on frame 1 whose clip exists is
    started as many times as it occurs in the trigger list: once for a
    trigger listed once. *)
Theorem tick_advances_modulo (Image : Type) (w : world Image)
  (d : decoded Image) :
  isPlaying (this w) = true ->
  this_decoded (this w) = Some d ->
  consistent d ->
  has_frame (frames d) (currentFrame (this w)) = true ->
  currentFrame (this (fst (animate Image w)))
  = (currentFrame (this w) + 1) mod numFrames (header d) /\
  (numFrames (header d) = 3 -> currentFrame (this w) = 0 ->
   currentFrame (this (fst (ticks Image 3 w))) = 0 /\
   forall t : Trigger,
     frame t = 1 -> has_clip (audioBuffers d) (audio t) = true ->
     count_occ event_eq_dec (snd (ticks Image 3 w)) (StartClip t)
     = count_occ Trigger_eq_dec (triggers d) t).
Proof.
  intros Hp Hd Hc Hf. unfold consistent in Hc.
  pose proof (proj1 (has_frame_bounds _ _ _) Hf) as Hb.
  split.
  - rewrite (animate_playing Image w d Hp Hd Hf). cbn [fst this currentFrame].
    apply Z.rem_mod_nonneg; lia.
  - intros H3 H0. rewrite H3 in Hc.
    assert (Hf1 : has_frame (frames d) 1 = true) by (apply has_frame_bounds; lia).
    assert (Hf2 : has_frame (frames d) 2 = true) by (apply has_frame_bounds; lia).
    cbn [ticks].
    rewrite (animate_playing Image w d Hp Hd Hf). rewrite H0, H3.
    change (Z.rem (0 + 1) 3) with 1. cbv beta iota.
    rewrite animate_playing with (d := d); [| reflexivity | reflexivity | exact Hf1].
    cbn [this currentFrame env]. rewrite H3. change (Z.rem (1 + 1) 3) with 2.
    cbv beta iota.
    rewrite animate_playing with (d := d); [| reflexivity | reflexivity | exact Hf2].
    cbn [this currentFrame env fst snd]. rewrite H3.
    split; [reflexivity|].
    intros t Ht Hclip. rewrite app_nil_r.
    rewrite <- !app_comm_cons, !count_occ_Draw_cons, !count_occ_app.
    rewrite !count_occ_Draw_cons, !count_occ_app, !count_occ_Draw_cons.
    rewrite !count_occ_fire, Ht, Hclip. cbn. lia.
Qed.


Lemma tick_advances_modulo_witness :
  currentFrame (this (fst (animate nat playing_world))) = 1 mod 3 /\
  currentFrame (this (fst (ticks nat 3 playing_world))) = 0 /\
  count_occ event_eq_dec (snd (ticks nat 3 playing_world))
    (StartClip {| frame := 1; audio := 0 |}) = 1%nat.
Proof.
  pose proof (tick_advances_modulo nat playing_world example_decoded
                eq_refl eq_refl eq_refl eq_refl) as [H1 H2].
  split; [exact H1|].
  destruct (H2 eq_refl eq_refl) as [H3 H4].
  split; [exact H3|].
  exact (H4 {| frame := 1; audio := 0 |} eq_refl eq_refl).
Defined.

Lemma In_fire (bufs : list Wav.AudioBuffer) (current : Z) (trs : list Trigger)
  (e : event) :
  In e (fire bufs current trs) <->
  exists t, e = StartClip t /\ In t trs /\ frame t = current /\
            has_clip bufs (audio t) = true.
Proof.
  unfold fire. rewrite in_map_iff. split.
  - intros (t & <- & Ht). apply filter_In in Ht as [Hin Hc].
    apply andb_true_iff in Hc as [Hf Hc]. apply Z.eqb_eq in Hf.
    exists t. auto.
  - intros (t & -> & Hin & Hf & Hc). exists t. split; [reflexivity|].
    apply filter_In. split; [exact Hin|].
    apply andb_true_iff. split; [apply Z.eqb_eq, Hf | exact Hc].
Qed.

(** C7: on a tick, a trigger of the current frame whose audio index has no
    decoded clip starts nothing and raises nothing, while every trigger of
    the current frame whose clip exists is started (once for each of its
    occurrences in the trigger list); the tick goes on to advance the frame
    and to schedule its successor. *)
Theorem tick_skips_missing_clip (Image : Type) (w : world Image)
  (d : decoded Image) :
  isPlaying (this w) = true ->
  this_decoded (this w) = Some d ->
  has_frame (frames d) (currentFrame (this w)) = true ->
  let w' := fst (animate Image w) in
  let events := snd (animate Image w) in
  (forall t, In t (triggers d) -> frame t = currentFrame (this w) ->
             has_clip (audioBuffers d) (audio t) = false ->
             ~ In (StartClip t) events) /\
  (forall t, In t (triggers d) -> frame t = currentFrame (this w) ->
             has_clip (audioBuffers d) (audio t) = true ->
             In (StartClip t) events /\
             count_occ event_eq_dec events (StartClip t)
             = count_occ Trigger_eq_dec (triggers d) t) /\
  ~ In Thrown events /\
  In (Draw (currentFrame (this w))) events /\
  currentFrame (this w')
  = Z.rem (currentFrame (this w) + 1) (numFrames (header d)) /\
  In (nextTimeout (env w)) (timeouts (env w')).
Proof.
  intros Hp Hd Hf. cbv zeta.
  rewrite (animate_playing Image w d Hp Hd Hf). cbn [fst snd this env currentFrame].
  split; [|split; [|split; [|split; [|split]]]].
  - intros t Hin Hfr Hc [E | Hi]; [discriminate|].
    apply In_fire in Hi as (t' & E & _ & _ & Hc').
    injection E as <-. congruence.
  - intros t Hin Hfr Hc. split.
    + right. apply In_fire. exists t. auto.
    + rewrite count_occ_Draw_cons, count_occ_fire, Hc.
      replace (frame t =? currentFrame (this w)) with true
        by (symmetry; apply Z.eqb_eq, Hfr).
      reflexivity.
  - intros [E | Hi]; [discriminate|].
    apply In_fire in Hi as (t' & E & _). discriminate.
  - left. reflexivity.
  - reflexivity.
  - unfold setTimeout. cbn [snd timeouts]. apply in_or_app. right. left.
    reflexivity.
Qed.


Lemma tick_skips_missing_clip_witness :
  ~ In (StartClip {| frame := 1; audio := 7 |})
      (snd (animate nat second_frame_world)) /\
  In (StartClip {| frame := 1; audio := 0 |})
     (snd (animate nat second_frame_world)).
Proof.
  pose proof (tick_skips_missing_clip nat second_frame_world example_decoded
                eq_refl eq_refl eq_refl) as (H1 & H2 & _).
  split.
  - apply (H1 {| frame := 1; audio := 7 |}); [right; left| |]; reflexivity.
  - apply (H2 {| frame := 1; audio := 0 |}); [left| |]; reflexivity.
Defined.

(** C8, as the specification states it, fails on a loaded container
    without frames (the decoder returns one for a header with numFrames 0):
    play() makes the scheduler playing, and line 164 returns before
    anything is drawn or scheduled, so no timing loop starts, then or
    later. *)
Lemma play_on_empty_container_starts_no_loop :
  isPlaying (this empty_world) = false /\
  this_decoded (this empty_world) = Some empty_decoded /\
  isPlaying (this (fst (play nat empty_world))) = true /\
  snd (play nat empty_world) = [] /\
  env (fst (play nat empty_world)) = env empty_world /\
  timeouts (env (fst (play nat empty_world))) = [] /\
  frameRequests (env (fst (play nat empty_world))) = [].
Proof. repeat split; reflexivity. Qed.

(** C8 (amended): play() changes nothing when the scheduler is playing or
    when no container is loaded; otherwise the scheduler becomes playing,
    and when the container has a frame at the current index it draws that
    frame, starts the clips of its triggers and schedules the next tick.
    When the container has no frames, play() only sets the playing flag:
    nothing is drawn and nothing is scheduled; when it has frames but none
    at the current index, the drawing raises and nothing is scheduled.
    pause() keeps the index, and so do the callbacks that run while
    paused: a play() after a pause draws the frame at which playback
    stopped. *)
Theorem play_resumes_at_current_frame (Image : Type) (w : world Image) :
  (isPlaying (this w) = true -> play Image w = (w, [])) /\
  (this_decoded (this w) = None -> play Image w = (w, [])) /\
  (forall d,
      isPlaying (this w) = false -> this_decoded (this w) = Some d ->
      isPlaying (this (fst (play Image w))) = true /\
      currentFrame (this (fst (play Image w)))
      = (if has_frame (frames d) (currentFrame (this w))
         then Z.rem (currentFrame (this w) + 1) (numFrames (header d))
         else currentFrame (this w)) /\
      (frames d = [] ->
       snd (play Image w) = [] /\ env (fst (play Image w)) = env w) /\
      (frames d <> [] ->
       has_frame (frames d) (currentFrame (this w)) = false ->
       snd (play Image w) = [Thrown] /\ env (fst (play Image w)) = env w)) /\
  (forall d,
      isPlaying (this w) = false -> this_decoded (this w) = Some d ->
      has_frame (frames d) (currentFrame (this w)) = true ->
      isPlaying (this (fst (play Image w))) = true /\
      snd (play Image w)
      = Draw (currentFrame (this w))
        :: fire (audioBuffers d) (currentFrame (this w)) (triggers d) /\
      In (nextTimeout (env w)) (timeouts (env (fst (play Image w))))) /\
  currentFrame (this (pause Image w)) = currentFrame (this w) /\
  (forall d l,
      this_decoded (this w) = Some d ->
      has_frame (frames d) (currentFrame (this w)) = true ->
      Forall callback l ->
      let paused := fst (run Image l (pause Image w)) in
      currentFrame (this paused) = currentFrame (this w) /\
      snd (play Image paused)
      = Draw (currentFrame (this w))
        :: fire (audioBuffers d) (currentFrame (this w)) (triggers d)).
Proof.
  assert (Hplay : forall (w0 : world Image) d,
             isPlaying (this w0) = false -> this_decoded (this w0) = Some d ->
             has_frame (frames d) (currentFrame (this w0)) = true ->
             play Image w0 =
             ({| this := {| isPlaying := true;
                            currentFrame := Z.rem (currentFrame (this w0) + 1)
                                              (numFrames (header d));
                            animationId := Some (nextTimeout (env w0));
                            this_decoded := Some d |};
                 env := snd (setTimeout (env w0)) |},
              Draw (currentFrame (this w0))
              :: fire (audioBuffers d) (currentFrame (this w0)) (triggers d))).
  { intros w0 d Hp Hd Hf. unfold play. rewrite Hp, Hd.
    rewrite animate_playing with (d := d); [reflexivity | reflexivity | reflexivity | exact Hf]. }
  split; [|split; [|split; [|split; [|split]]]].
  - intros Hp. unfold play. rewrite Hp. reflexivity.
  - intros Hd. unfold play. rewrite Hd. destruct (isPlaying (this w)); reflexivity.
  - intros d Hp Hd. unfold play. rewrite Hp, Hd. unfold animate.
    cbn [this isPlaying negb this_decoded currentFrame].
    destruct (frames d) as [|x fr] eqn:Ef.
    + cbn [length Nat.eqb fst snd this env isPlaying currentFrame].
      replace (has_frame (@nil Image) (currentFrame (this w))) with false.
      * split; [reflexivity|]. split; [reflexivity|].
        split; [intros _; split; reflexivity | intros Hne; contradiction].
      * symmetry. unfold has_frame. cbn [length].
        destruct (0 <=? currentFrame (this w)) eqn:E0; [|reflexivity].
        apply Z.leb_le in E0. cbn [andb]. apply Z.ltb_ge. lia.
    + cbn [length Nat.eqb].
      destruct (has_frame (x :: fr) (currentFrame (this w))) eqn:Hf;
        cbn [negb fst snd this env isPlaying currentFrame setTimeout].
      * split; [reflexivity|]. split; [reflexivity|].
        split; [discriminate | intros _; discriminate].
      * split; [reflexivity|]. split; [reflexivity|].
        split; [discriminate | intros _ _; split; reflexivity].
  - intros d Hp Hd Hf. rewrite (Hplay w d Hp Hd Hf). cbn [fst snd this env isPlaying].
    split; [reflexivity|]. split; [reflexivity|].
    unfold setTimeout. cbn [snd timeouts]. apply in_or_app. right. left. reflexivity.
  - apply pause_spec.
  - intros d l Hd Hf Hl. cbv zeta.
    destruct (pause_spec Image w) as (Hp1 & Hp2 & Hp3 & _).
    destruct (callbacks_while_paused Image l Hl (pause Image w) Hp1) as (Hr & _).
    rewrite Hr, Hp2. split; [reflexivity|].
    rewrite (Hplay _ d); rewrite ?Hr, ?Hp1, ?Hp2, ?Hp3; auto.
Qed.

Lemma play_resumes_at_current_frame_witness :
  play nat playing_world = (playing_world, []) /\
  play nat unloaded_world = (unloaded_world, []) /\
  (snd (play nat empty_world) = [] /\
   env (fst (play nat empty_world)) = env empty_world) /\
  snd (play nat example_world) = [Draw 0] /\
  snd (play nat (fst (run nat [TimeoutFires 5; FrameFires 9]
                        (pause nat second_frame_world))))
  = [Draw 1; StartClip {| frame := 1; audio := 0 |}].
Proof.
  split; [|split; [|split; [|split]]].
  - apply (proj1 (play_resumes_at_current_frame nat playing_world)).
    reflexivity.
  - apply (proj1 (proj2 (play_resumes_at_current_frame nat unloaded_world))).
    reflexivity.
  - pose proof (play_resumes_at_current_frame nat empty_world)
      as (_ & _ & He & _).
    destruct (He empty_decoded eq_refl eq_refl) as (_ & _ & H3 & _).
    exact (H3 eq_refl).
  - pose proof (play_resumes_at_current_frame nat example_world)
      as (_ & _ & _ & Hx & _).
    destruct (Hx example_decoded eq_refl eq_refl eq_refl) as (_ & H2 & _).
    exact H2.
  - pose proof (play_resumes_at_current_frame nat second_frame_world)
      as (_ & _ & _ & _ & _ & H).
    destruct (H example_decoded [TimeoutFires 5; FrameFires 9] eq_refl eq_refl
                ltac:(repeat constructor)) as [_ H2].
    exact H2.
Defined.

(** C9 (the code departs from the claim): pause() passes the handle of the
    pending timeout to cancelAnimationFrame, so the timeout stays pending.
    Here play() is followed by pause(): the timeout 5 that play() scheduled
    is still pending.  When play() is called again before it elapses, the
    stale callback runs as well: after both timeouts and their animation
    frames, four frames have been drawn and two timeouts are pending. *)
Theorem pause_leaves_timeout_pending :
  timeouts (env (fst (run nat [Play; Pause] example_world))) = [5%nat] /\
  isPlaying (this (fst (run nat [Play; Pause] example_world))) = false /\
  snd (run nat [Play; Pause; TimeoutFires 5; FrameFires 9] example_world)
  = [Draw 0] /\
  snd (run nat [Play; Pause; Play; TimeoutFires 5; FrameFires 9;
                TimeoutFires 6; FrameFires 10] example_world)
  = [Draw 0; Draw 1; StartClip {| frame := 1; audio := 0 |}; Draw 2; Draw 0] /\
  timeouts (env (fst (run nat [Play; Pause; Play; TimeoutFires 5; FrameFires 9;
                                TimeoutFires 6; FrameFires 10] example_world)))
  = [7%nat; 8%nat].
Proof.
  repeat split; reflexivity.
Qed.

(** Whatever the state, pause() removes no pending timeout. *)
Lemma pause_cancels_no_timeout (Image : Type) (w : world Image) :
  timeouts (env (pause Image w)) = timeouts (env w).
Proof. apply pause_spec. Qed.

End SchedulerClaims.

(** * Further properties *)

(** ** The scheduler over whole runs *)

Module SchedulerRuns.

Import AGIFPlayer PlayerFacts.

Lemma flat_map_seq_shift (A : Type) (f : nat -> list A) (n : nat) :
  flat_map f (seq 1 n) = flat_map (fun k => f (S k)) (seq 0 n).
Proof.
  rewrite <- seq_shift. induction (seq 0 n) as [|k l IH]; [reflexivity|].
  cbn [map flat_map]. rewrite IH. reflexivity.
Qed.

Section Runs.

Variable Image : Type.

Lemma mod_in_range (d : decoded Image) (x : Z) :
  consistent d -> frames d <> [] ->
  has_frame (frames d) (x mod numFrames (header d)) = true.
Proof.
  intros Hc Hne. unfold consistent in Hc.
  apply SchedulerClaims.has_frame_bounds. rewrite <- Hc.
  apply Z.mod_pos_bound. rewrite Hc. destruct (frames d); [contradiction|].
  cbn [length]. lia.
Qed.

Lemma has_frame_nonempty (d : decoded Image) (i : Z) :
  has_frame (frames d) i = true -> frames d <> [].
Proof.
  intros H Hn. apply SchedulerClaims.has_frame_bounds in H.
  rewrite Hn in H. cbn in H. lia.
Qed.

(** The trace of [n] ticks. *)
Lemma ticks_trace (d : decoded Image) (n : nat) :
  consistent d ->
  forall w,
    isPlaying (this w) = true ->
    this_decoded (this w) = Some d ->
    has_frame (frames d) (currentFrame (this w)) = true ->
    isPlaying (this (fst (ticks Image n w))) = true /\
    this_decoded (this (fst (ticks Image n w))) = Some d /\
    currentFrame (this (fst (ticks Image n w)))
    = frame_after (numFrames (header d)) (currentFrame (this w)) n /\
    snd (ticks Image n w)
    = flat_map (fun k => tick_events d
                           (frame_after (numFrames (header d))
                              (currentFrame (this w)) k))
        (seq 0 n).
Proof.
  intros Hc. induction n as [|n IH]; intros w Hp Hd Hf;
    pose proof (proj1 (SchedulerClaims.has_frame_bounds _ _ _) Hf) as Hb;
    assert (HN : 0 < numFrames (header d)) by (unfold consistent in Hc; lia).
  - cbn [ticks fst snd seq flat_map]. unfold frame_after. cbn [Z.of_nat].
    rewrite Z.add_0_r, Z.mod_small by (unfold consistent in Hc; lia). auto.
  - pose proof (has_frame_nonempty d _ Hf) as Hne.
    cbn [ticks]. rewrite (animate_playing Image w d Hp Hd Hf).
    set (w1 := {| this := _; env := _ |}).
    assert (Hcf1 : currentFrame (this w1)
                   = (currentFrame (this w) + 1) mod numFrames (header d)).
    { cbn. apply Z.rem_mod_nonneg; lia. }
    destruct (IH w1 eq_refl eq_refl) as (H1 & H2 & H3 & H4).
    { rewrite Hcf1. apply mod_in_range; assumption. }
    destruct (ticks Image n w1) as [w2 e2]. cbn [fst snd] in *.
    split; [exact H1|]. split; [exact H2|]. split.
    + rewrite H3, Hcf1. unfold frame_after.
      rewrite Z.add_mod_idemp_l by lia. f_equal. lia.
    + rewrite H4. cbn [seq flat_map]. rewrite flat_map_seq_shift.
      unfold frame_after at 2. cbn [Z.of_nat].
      rewrite Z.add_0_r, Z.mod_small by (unfold consistent in Hc; lia).
      unfold tick_events at 2. cbn [app]. do 2 f_equal.
      apply flat_map_ext. intros k. rewrite Hcf1. unfold frame_after.
      rewrite Z.add_mod_idemp_l by lia. do 2 f_equal. lia.
Qed.

Lemma count_occ_flat_map (A : Type) (f : A -> list event) (l : list A) (e : event) :
  count_occ event_eq_dec (flat_map f l) e
  = list_sum (map (fun a => count_occ event_eq_dec (f a) e) l).
Proof.
  induction l as [|a l IH]; [reflexivity|].
  cbn [flat_map map list_sum]. rewrite count_occ_app, IH. reflexivity.
Qed.

Lemma count_occ_tick_events (d : decoded Image) (f : Z) (t : Trigger) :
  count_occ event_eq_dec (tick_events d f) (StartClip t)
  = if (frame t =? f) && has_clip (audioBuffers d) (audio t)
    then count_occ Trigger_eq_dec (triggers d) t else O.
Proof.
  unfold tick_events. rewrite count_occ_Draw_cons. apply count_occ_fire.
Qed.

Lemma list_sum_filter (A : Type) (p : A -> bool) (c : nat) (l : list A) :
  list_sum (map (fun a => if p a then c else O) l) = (c * length (filter p l))%nat.
Proof.
  unfold list_sum. induction l as [|a l IH]; [cbn; lia|].
  cbn [map fold_right filter]. rewrite IH. destruct (p a); cbn [length]; lia.
Qed.

Lemma filter_none (A : Type) (p : A -> bool) (l : list A) :
  (forall a, In a l -> p a = false) -> filter p l = [].
Proof.
  induction l as [|a l IH]; intros H; [reflexivity|].
  cbn [filter]. rewrite (H a (or_introl eq_refl)). apply IH.
  intros x Hx. apply H. right. exact Hx.
Qed.

(** Exactly one index below [n] passes a test that only [k0] passes. *)
Lemma one_in_seq (p : nat -> bool) (n k0 : nat) :
  (k0 < n)%nat ->
  (forall k, (k < n)%nat -> p k = true <-> k = k0) ->
  length (filter p (seq 0 n)) = 1%nat.
Proof.
  intros Hk Hp.
  replace n with (k0 + S (n - S k0))%nat by lia.
  rewrite seq_app, filter_app. cbn [seq filter Nat.add].
  rewrite (proj2 (Hp k0 Hk) eq_refl).
  rewrite !filter_none.
  - reflexivity.
  - intros k Hin. apply in_seq in Hin.
    destruct (p k) eqn:E; [|reflexivity]. apply Hp in E; lia.
  - intros k Hin. apply in_seq in Hin.
    destruct (p k) eqn:E; [|reflexivity]. apply Hp in E; lia.
Qed.

Lemma mod_cases (n x : Z) :
  0 < n -> - n <= x < 2 * n ->
  x mod n = if x <? 0 then x + n else if x <? n then x else x - n.
Proof.
  intros Hn Hx. destruct (x <? 0) eqn:E1.
  - apply Z.ltb_lt in E1. symmetry. apply Z.mod_unique with (q := -1); lia.
  - apply Z.ltb_ge in E1. destruct (x <? n) eqn:E2.
    + apply Z.ltb_lt in E2. apply Z.mod_small. lia.
    + apply Z.ltb_ge in E2. symmetry. apply Z.mod_unique with (q := 1); lia.
Qed.

(** In one lap every frame is on display once. *)
Lemma one_visit_per_lap (n c f : Z) :
  0 <= c < n -> 0 <= f < n ->
  length (filter (fun k => f =? frame_after n c k) (seq 0 (Z.to_nat n))) = 1%nat.
Proof.
  intros Hc Hf.
  apply one_in_seq with (k0 := Z.to_nat ((f - c) mod n)).
  - pose proof (Z.mod_pos_bound (f - c) n ltac:(lia)). lia.
  - intros k Hk. unfold frame_after.
    rewrite (mod_cases n (c + Z.of_nat k)) by lia.
    rewrite (mod_cases n (f - c)) by lia.
    rewrite Z.eqb_eq.
    destruct (c + Z.of_nat k <? 0) eqn:E1; [apply Z.ltb_lt in E1; lia|].
    destruct (f - c <? 0) eqn:E2; destruct (c + Z.of_nat k <? n) eqn:E3;
      try apply Z.ltb_lt in E2; try apply Z.ltb_ge in E2;
      try apply Z.ltb_lt in E3; try apply Z.ltb_ge in E3;
      try (destruct (f - c <? n) eqn:E4;
           [apply Z.ltb_lt in E4 | apply Z.ltb_ge in E4]);
      lia.
Qed.

Lemma never_visited (n c f : Z) (m : nat) :
  0 < n -> ~ (0 <= f < n) ->
  filter (fun k => f =? frame_after n c k) (seq 0 m) = [].
Proof.
  intros Hn Hf. apply filter_none. intros k _. apply Z.eqb_neq.
  unfold frame_after. pose proof (Z.mod_pos_bound (c + Z.of_nat k) n Hn). lia.
Qed.

Lemma tick_events_good (d : decoded Image) (f : Z) (e : event) :
  has_frame (frames d) f = true ->
  In e (tick_events d f) ->
  (exists i, e = Draw i /\ has_frame (frames d) i = true) \/
  (exists t, e = StartClip t /\ In t (triggers d) /\
             has_frame (frames d) (frame t) = true /\
             has_clip (audioBuffers d) (audio t) = true).
Proof.
  intros Hf [<- | Hin].
  - left. exists f. auto.
  - right. apply SchedulerClaims.In_fire in Hin as (t & -> & Hin & Hfr & Hc).
    exists t. rewrite Hfr. auto.
Qed.

(** X1: [n] ticks of a playing scheduler draw the frames c, c+1, ... modulo
    the number of frames, each followed by the clips of its triggers, end
    on frame (c + n) mod numFrames, and raise nothing. *)
Theorem ticks_draw_frames_in_order (d : decoded Image) (n : nat)
  (w : world Image) :
  consistent d ->
  isPlaying (this w) = true ->
  this_decoded (this w) = Some d ->
  has_frame (frames d) (currentFrame (this w)) = true ->
  currentFrame (this (fst (ticks Image n w)))
  = (currentFrame (this w) + Z.of_nat n) mod numFrames (header d) /\
  snd (ticks Image n w)
  = flat_map (fun k =>
                let f := (currentFrame (this w) + Z.of_nat k)
                         mod numFrames (header d) in
                Draw f :: fire (audioBuffers d) f (triggers d))
      (seq 0 n) /\
  ~ In Thrown (snd (ticks Image n w)).
Proof.
  intros Hc Hp Hd Hf.
  destruct (ticks_trace d n Hc w Hp Hd Hf) as (_ & _ & H3 & H4).
  split; [exact H3|]. split; [exact H4|].
  rewrite H4. intros Hin. apply in_flat_map in Hin as (k & _ & Hin).
  destruct Hin as [E | Hin]; [discriminate|].
  apply SchedulerClaims.In_fire in Hin as (t & E & _). discriminate.
Qed.

(** X2: a lap of numFrames ticks leads back to the frame it started from,
    and during it a trigger whose frame and clip exist is started once for
    each of its occurrences in the trigger list; a trigger whose frame is
    not a frame of the container is never started, however long the run. *)
Theorem lap_starts_each_trigger_once (d : decoded Image) (w : world Image) :
  consistent d ->
  isPlaying (this w) = true ->
  this_decoded (this w) = Some d ->
  has_frame (frames d) (currentFrame (this w)) = true ->
  currentFrame (this (fst (ticks Image (length (frames d)) w)))
  = currentFrame (this w) /\
  (forall t,
      has_frame (frames d) (frame t) = true ->
      has_clip (audioBuffers d) (audio t) = true ->
      count_occ event_eq_dec (snd (ticks Image (length (frames d)) w)) (StartClip t)
      = count_occ Trigger_eq_dec (triggers d) t) /\
  (forall t m,
      has_frame (frames d) (frame t) = false ->
      ~ In (StartClip t) (snd (ticks Image m w))).
Proof.
  intros Hc Hp Hd Hf.
  pose proof (proj1 (SchedulerClaims.has_frame_bounds _ _ _) Hf) as Hb.
  assert (HN : numFrames (header d) = Z.of_nat (length (frames d))) by exact Hc.
  split; [|split].
  - destruct (ticks_trace d (length (frames d)) Hc w Hp Hd Hf) as (_ & _ & H3 & _).
    rewrite H3. unfold frame_after. rewrite <- HN.
    rewrite <- (Z.mul_1_l (numFrames (header d))) at 1.
    rewrite Z.mod_add by lia. apply Z.mod_small. lia.
  - intros t Ht Hclip.
    destruct (ticks_trace d (length (frames d)) Hc w Hp Hd Hf) as (_ & _ & _ & H4).
    rewrite H4, count_occ_flat_map.
    rewrite (map_ext _ (fun k =>
               if frame t =? frame_after (numFrames (header d))
                               (currentFrame (this w)) k
               then count_occ Trigger_eq_dec (triggers d) t else O)).
    2:{ intros k. rewrite count_occ_tick_events, Hclip, andb_true_r. reflexivity. }
    rewrite list_sum_filter.
    apply SchedulerClaims.has_frame_bounds in Ht.
    replace (length (frames d)) with (Z.to_nat (numFrames (header d))) at 1 by lia.
    rewrite one_visit_per_lap by lia. lia.
  - intros t m Ht Hin.
    destruct (ticks_trace d m Hc w Hp Hd Hf) as (_ & _ & _ & H4).
    rewrite H4 in Hin. apply in_flat_map in Hin as (k & _ & Hin).
    assert (Hk : has_frame (frames d)
                   (frame_after (numFrames (header d)) (currentFrame (this w)) k)
                 = true).
    { unfold frame_after. apply mod_in_range; [exact Hc|].
      apply (has_frame_nonempty d _ Hf). }
    destruct (tick_events_good d _ _ Hk Hin) as [(i & E & _) | (t' & E & _ & Hfr & _)];
      [discriminate|].
    injection E as <-. congruence.
Qed.

(** The container, the validity of the frame index and the events of one
    call of [animate]. *)
Lemma animate_safe (d : decoded Image) (w : world Image) :
  consistent d ->
  this_decoded (this w) = Some d ->
  has_frame (frames d) (currentFrame (this w)) = true ->
  this_decoded (this (fst (animate Image w))) = Some d /\
  has_frame (frames d) (currentFrame (this (fst (animate Image w)))) = true /\
  isPlaying (this (fst (animate Image w))) = isPlaying (this w) /\
  (forall e, In e (snd (animate Image w)) ->
             In e (tick_events d (currentFrame (this w)))).
Proof.
  intros Hc Hd Hf. destruct (isPlaying (this w)) eqn:Hp.
  - rewrite (animate_playing Image w d Hp Hd Hf). cbn [fst snd this].
    cbn [this_decoded currentFrame isPlaying].
    pose proof (proj1 (SchedulerClaims.has_frame_bounds _ _ _) Hf) as Hb.
    repeat split; auto.
    rewrite Z.rem_mod_nonneg by (unfold consistent in Hc; lia).
    apply mod_in_range; [exact Hc | apply (has_frame_nonempty d _ Hf)].
  - rewrite (animate_paused Image w Hp). cbn [fst snd]. repeat split; auto.
    intros e [].
Qed.

Lemma step_safe (d : decoded Image) (a : action) (w : world Image) :
  consistent d ->
  this_decoded (this w) = Some d ->
  has_frame (frames d) (currentFrame (this w)) = true ->
  this_decoded (this (fst (step Image a w))) = Some d /\
  has_frame (frames d) (currentFrame (this (fst (step Image a w)))) = true /\
  (forall e, In e (snd (step Image a w)) ->
             In e (tick_events d (currentFrame (this w)))).
Proof.
  intros Hc Hd Hf. destruct a as [| |id|id]; cbn [step].
  - unfold play. destruct (isPlaying (this w)) eqn:Hp.
    + cbn [fst snd]. repeat split; auto. intros e [].
    + rewrite Hd.
      match goal with
      | |- context [AGIFPlayer.animate Image ?w1] =>
          destruct (animate_safe d w1 Hc eq_refl Hf) as (H1 & H2 & _ & H4)
      end.
      repeat split; auto.
  - destruct (pause_spec Image w) as (_ & H2 & H3 & _). cbn [fst snd].
    rewrite H2, H3. repeat split; auto. intros e [].
  - cbn [fst snd]. unfold timeout_fires.
    destruct (in_dec Nat.eq_dec id (timeouts (env w))); cbn [this];
      repeat split; auto; intros e [].
  - unfold frame_fires.
    destruct (in_dec Nat.eq_dec id (frameRequests (env w))).
    + match goal with
      | |- context [AGIFPlayer.animate Image ?w1] =>
          destruct (animate_safe d w1 Hc Hd Hf) as (H1 & H2 & _ & H4)
      end.
      repeat split; auto.
    + cbn [fst snd]. repeat split; auto. intros e [].
Qed.

(** The invariant of the scheduler over a run. *)
Lemma run_safe (d : decoded Image) (l : list action)
  (w : world Image) :
  consistent d ->
  this_decoded (this w) = Some d ->
  has_frame (frames d) (currentFrame (this w)) = true ->
  this_decoded (this (fst (run Image l w))) = Some d /\
  has_frame (frames d) (currentFrame (this (fst (run Image l w)))) = true /\
  ~ In Thrown (snd (run Image l w)) /\
  (forall i, In (Draw i) (snd (run Image l w)) -> has_frame (frames d) i = true) /\
  (forall t, In (StartClip t) (snd (run Image l w)) ->
             In t (triggers d) /\ has_frame (frames d) (frame t) = true /\
             has_clip (audioBuffers d) (audio t) = true).
Proof.
  intros Hc. revert w. induction l as [|a l IH]; intros w Hd Hf.
  - cbn [run fst snd]. split; [exact Hd|]. split; [exact Hf|].
    split; [intros []|]. split; intros ? [].
  - cbn [run].
    destruct (step_safe d a w Hc Hd Hf) as (S1 & S2 & S3).
    destruct (step Image a w) as [w1 e1]. cbn [fst snd] in *.
    destruct (IH w1 S1 S2) as (R1 & R2 & R3 & R4 & R5).
    destruct (run Image l w1) as [w2 e2]. cbn [fst snd] in *.
    assert (Hgood : forall e, In e e1 ->
              (exists i, e = Draw i /\ has_frame (frames d) i = true) \/
              (exists t, e = StartClip t /\ In t (triggers d) /\
                         has_frame (frames d) (frame t) = true /\
                         has_clip (audioBuffers d) (audio t) = true)).
    { intros e He. apply (tick_events_good d _ e Hf), S3, He. }
    split; [exact R1|]. split; [exact R2|]. split; [|split].
    + intros Hin. apply in_app_or in Hin as [Hin | Hin]; [|auto].
      destruct (Hgood _ Hin) as [(i & E & _) | (t & E & _)]; discriminate.
    + intros i Hin. apply in_app_or in Hin as [Hin | Hin]; [|auto].
      destruct (Hgood _ Hin) as [(j & E & Hj) | (t & E & _)]; [|discriminate].
      injection E as ->. exact Hj.
    + intros t Hin. apply in_app_or in Hin as [Hin | Hin]; [|auto].
      destruct (Hgood _ Hin) as [(j & E & _) | (t' & E & H1 & H2 & H3)];
        [discriminate|].
      injection E as ->. auto.
Qed.

(** X3: whatever is done with a loaded player whose container is consistent
    and whose frame index is a frame (calls of play and pause, pending
    callbacks running, in any order), the container stays, the index stays
    a frame, nothing is raised, every frame drawn is a frame of the
    container and every clip started belongs to a listed trigger whose
    frame and clip exist. *)
Theorem run_keeps_frame_index_valid (d : decoded Image) (l : list action)
  (w : world Image) :
  consistent d ->
  this_decoded (this w) = Some d ->
  has_frame (frames d) (currentFrame (this w)) = true ->
  this_decoded (this (fst (run Image l w))) = Some d /\
  has_frame (frames d) (currentFrame (this (fst (run Image l w)))) = true /\
  ~ In Thrown (snd (run Image l w)) /\
  (forall i, In (Draw i) (snd (run Image l w)) -> has_frame (frames d) i = true) /\
  (forall t, In (StartClip t) (snd (run Image l w)) ->
             In t (triggers d) /\ has_frame (frames d) (frame t) = true /\
             has_clip (audioBuffers d) (audio t) = true).
Proof. apply run_safe. Qed.

Lemma animate_pending (w : world Image) :
  isPlaying (this (fst (animate Image w))) = isPlaying (this w) /\
  (pending (fst (animate Image w)) <= S (pending w))%nat.
Proof.
  unfold animate, pending.
  destruct (isPlaying (this w)) eqn:Hp; cbn [negb]; [|cbn [fst]; rewrite Hp; lia].
  destruct (this_decoded (this w)) as [d|]; [|cbn [fst]; rewrite Hp; lia].
  destruct (length (frames d) =? 0)%nat; [cbn [fst]; rewrite Hp; lia|].
  destruct (negb (has_frame (frames d) (currentFrame (this w))));
    [cbn [fst]; rewrite Hp; lia|].
  cbn [setTimeout fst this env isPlaying timeouts frameRequests].
  rewrite length_app. cbn [length]. lia.
Qed.

Lemma remove_only (id : nat) (l : list nat) :
  In id l -> (length l <= 1)%nat ->
  remove Nat.eq_dec id l = [] /\ length l = 1%nat.
Proof.
  destruct l as [|x [|y l]]; cbn [length In]; intros Hin Hl; try lia.
  destruct Hin as [-> | []]. cbn [remove].
  destruct (Nat.eq_dec id id); [auto | congruence].
Qed.

Lemma step_single_loop (a : action) (w : world Image) :
  a <> Pause -> single_loop w -> single_loop (fst (step Image a w)).
Proof.
  intros Ha HJ. destruct a as [| |id|id]; [|congruence| |]; cbn [step].
  - unfold play. destruct (isPlaying (this w)) eqn:Hp; [exact HJ|].
    destruct (this_decoded (this w)) eqn:Hd; [|exact HJ].
    destruct HJ as [H1 H2]. specialize (H2 Hp).
    match goal with
    | |- context [AGIFPlayer.animate Image ?w1] =>
        destruct (animate_pending w1) as [A1 A2]; unfold single_loop;
        rewrite A1; cbn [this isPlaying];
        change (pending w1) with (pending w) in A2
    end.
    split; [lia | discriminate].
  - cbn [fst]. unfold timeout_fires.
    destruct (in_dec Nat.eq_dec id (timeouts (env w))) as [Hin|]; [|exact HJ].
    destruct HJ as [H1 H2].
    unfold single_loop, pending in *. cbn [this env requestAnimationFrame snd
      timeouts frameRequests].
    destruct (remove_only id _ Hin ltac:(lia)) as [-> Hl].
    rewrite length_app. cbn [length].
    split; [lia|]. intros Hp. specialize (H2 Hp). lia.
  - unfold frame_fires.
    destruct (in_dec Nat.eq_dec id (frameRequests (env w))) as [Hin|];
      [|exact HJ].
    destruct HJ as [H1 H2].
    match goal with
    | |- context [AGIFPlayer.animate Image ?w1] =>
        destruct (animate_pending w1) as [A1 A2]; unfold single_loop;
        rewrite A1; cbn [this isPlaying];
        assert (Hw1 : pending w1 = O)
    end.
    { unfold pending in *. cbn [env cancelAnimationFrame timeouts frameRequests].
      destruct (remove_only id _ Hin ltac:(lia)) as [-> Hl]. cbn [length]. lia. }
    split; [lia|]. intros Hp. specialize (H2 Hp).
    unfold pending in H2.
    destruct (frameRequests (env w)); [destruct Hin | cbn [length] in H2; lia].
Qed.

(** X4: from an idle player (not playing, nothing pending), as long as
    [pause()] is not called, at most one callback is pending at any time:
    neither repeated calls of [play()] nor the callbacks themselves start a
    second timing loop. *)
Theorem one_timing_loop_without_pause (l : list action) (w : world Image) :
  Forall (fun a => a <> Pause) l ->
  isPlaying (this w) = false ->
  pending w = O ->
  (pending (fst (run Image l w)) <= 1)%nat.
Proof.
  intros Hl Hp H0.
  assert (HJ : single_loop w) by (split; [lia | auto]).
  clear Hp H0. revert w HJ.
  induction Hl as [|a l Ha Hl IH]; intros w HJ.
  - cbn [run fst]. apply HJ.
  - cbn [run]. pose proof (step_single_loop a w Ha HJ) as H1.
    destruct (step Image a w) as [w1 e1]. cbn [fst] in H1.
    specialize (IH w1 H1). destruct (run Image l w1) as [w2 e2]. exact IH.
Qed.

Lemma animate_no_frames (d : decoded Image) (w : world Image) :
  this_decoded (this w) = Some d -> frames d = [] ->
  animate Image w = (w, []).
Proof.
  intros Hd Hf. unfold animate. rewrite Hd, Hf.
  destruct (isPlaying (this w)); reflexivity.
Qed.

Lemma step_no_frames (d : decoded Image) (a : action) (w : world Image) :
  this_decoded (this w) = Some d -> frames d = [] ->
  this_decoded (this (fst (step Image a w))) = Some d /\
  snd (step Image a w) = [] /\
  timeouts (env (fst (step Image a w))) = remove Nat.eq_dec
    match a with TimeoutFires id => id | _ => nextTimeout (env w) end
    (timeouts (env w)) \/
  this_decoded (this (fst (step Image a w))) = Some d /\
  snd (step Image a w) = [] /\
  timeouts (env (fst (step Image a w))) = timeouts (env w).
Proof.
  intros Hd Hf. destruct a as [| |id|id]; cbn [step].
  - right. unfold play. destruct (isPlaying (this w)); [auto|]. rewrite Hd.
    rewrite (animate_no_frames d) by (auto). auto.
  - right. destruct (pause_spec Image w) as (_ & _ & H3 & H4).
    cbn [fst snd]. rewrite H3. auto.
  - cbn [fst snd]. unfold timeout_fires.
    destruct (in_dec Nat.eq_dec id (timeouts (env w))); [left | right]; auto.
  - right. unfold frame_fires.
    destruct (in_dec Nat.eq_dec id (frameRequests (env w))); [|auto].
    rewrite (animate_no_frames d) by auto. auto.
Qed.

Lemma incl_remove (id : nat) (l : list nat) : incl (remove Nat.eq_dec id l) l.
Proof. intros x Hx. apply in_remove in Hx. tauto. Qed.

Lemma run_no_frames (d : decoded Image) (l : list action) :
  frames d = [] ->
  forall w, this_decoded (this w) = Some d -> snd (run Image l w) = [].
Proof.
  intros Hf. induction l as [|a l IH]; intros w Hd; [reflexivity|].
  cbn [run].
  assert (H : this_decoded (this (fst (step Image a w))) = Some d /\
              snd (step Image a w) = [])
    by (destruct (step_no_frames d a w Hd Hf) as [(?&?&_)|(?&?&_)]; auto).
  destruct H as [H1 H2]. destruct (step Image a w) as [w1 e1].
  cbn [fst snd] in *. specialize (IH w1 H1).
  destruct (run Image l w1) as [w2 e2]. cbn [snd] in *. subst. reflexivity.
Qed.

(** X5: a player that holds a container with no frames never draws, never
    starts a clip, never raises and never sets a timeout, whatever is
    called on it: [play()] only sets the playing flag. *)
Theorem empty_container_never_animates (d : decoded Image) (l : list action)
  (w : world Image) :
  this_decoded (this w) = Some d ->
  frames d = [] ->
  snd (run Image l w) = [] /\
  incl (timeouts (env (fst (run Image l w)))) (timeouts (env w)) /\
  isPlaying (this (fst (play Image w))) = true.
Proof.
  intros Hd Hf. split; [|split].
  - apply (run_no_frames d l Hf w Hd).
  - revert w Hd. induction l as [|a l IH]; intros w Hd; [apply incl_refl|].
    cbn [run].
    assert (H : this_decoded (this (fst (step Image a w))) = Some d /\
                incl (timeouts (env (fst (step Image a w)))) (timeouts (env w))).
    { destruct (step_no_frames d a w Hd Hf) as [(?&_&E)|(?&_&E)];
        (split; [assumption|]); rewrite E;
        [apply incl_remove | apply incl_refl]. }
    destruct H as [H1 H2]. destruct (step Image a w) as [w1 e1].
    cbn [fst] in *. specialize (IH w1 H1).
    destruct (run Image l w1) as [w2 e2]. cbn [fst] in *.
    eapply incl_tran; eassumption.
  - unfold play. destruct (isPlaying (this w)) eqn:Hp; [exact Hp|]. rewrite Hd.
    rewrite (animate_no_frames d) by auto. reflexivity.
Qed.

(** X6: [loadAndPlay] on a playing player only swaps the container: the
    frame index and the pending callback stay.  When the new container has
    frames but none at that index, the next tick raises at the drawing,
    sets no further timeout and leaves the player marked as playing, so
    that a later [play()] does nothing. *)
Theorem load_while_playing_keeps_frame_index (d' : decoded Image)
  (w : world Image) (id : nat) :
  isPlaying (this w) = true ->
  frames d' <> [] ->
  has_frame (frames d') (currentFrame (this w)) = false ->
  In id (frameRequests (env w)) ->
  let w1 := fst (loadAndPlay Image d' w) in
  let w2 := fst (frame_fires Image id w1) in
  snd (loadAndPlay Image d' w) = [] /\
  currentFrame (this w1) = currentFrame (this w) /\
  env w1 = env w /\
  snd (frame_fires Image id w1) = [Thrown] /\
  timeouts (env w2) = timeouts (env w) /\
  isPlaying (this w2) = true /\
  play Image w2 = (w2, []).
Proof.
  intros Hp Hne Hf Hin.
  assert (E1 : loadAndPlay Image d' w
               = ({| this := {| isPlaying := true;
                                currentFrame := currentFrame (this w);
                                animationId := animationId (this w);
                                this_decoded := Some d' |};
                     env := env w |}, [])).
  { unfold loadAndPlay, play. cbn [this isPlaying]. rewrite Hp. reflexivity. }
  cbv zeta. rewrite E1. cbn [fst snd this env currentFrame].
  unfold frame_fires. cbn [env].
  destruct (in_dec Nat.eq_dec id (frameRequests (env w))); [|contradiction].
  unfold animate. cbn [this isPlaying negb this_decoded currentFrame].
  destruct (frames d') as [|x fr] eqn:Efr; [congruence|].
  cbn [length Nat.eqb]. rewrite Hf. cbn [negb fst snd this env isPlaying
    cancelAnimationFrame timeouts].
  repeat split.
Qed.

(** The first tick of a player that is started. *)
Lemma play_starts (d : decoded Image) (w : world Image) :
  isPlaying (this w) = false ->
  this_decoded (this w) = Some d ->
  has_frame (frames d) (currentFrame (this w)) = true ->
  play Image w
  = ({| this := {| isPlaying := true;
                   currentFrame := Z.rem (currentFrame (this w) + 1)
                                     (numFrames (header d));
                   animationId := Some (nextTimeout (env w));
                   this_decoded := Some d |};
        env := snd (setTimeout (env w)) |},
     tick_events d (currentFrame (this w))).
Proof.
  intros Hp Hd Hf. unfold play. rewrite Hp, Hd.
  rewrite animate_playing with (d := d); [| reflexivity | reflexivity | exact Hf].
  reflexivity.
Qed.

(** X7: on a loaded player that is idle, play(), pause(), play() in a
    row, before the timeout of the first play() elapses, leave two timeouts
    pending, whatever the container: pause() cancelled none, and the second
    play() set its own.  Two frames have been drawn, and two timing loops
    now advance the same frame index. *)
Theorem pause_resume_adds_a_timing_loop (d : decoded Image) (w : world Image) :
  consistent d ->
  isPlaying (this w) = false ->
  this_decoded (this w) = Some d ->
  has_frame (frames d) (currentFrame (this w)) = true ->
  let r := run Image [Play; Pause; Play] w in
  timeouts (env (fst r))
  = timeouts (env w) ++ [nextTimeout (env w); S (nextTimeout (env w))] /\
  isPlaying (this (fst r)) = true /\
  snd r = tick_events d (currentFrame (this w))
          ++ tick_events d ((currentFrame (this w) + 1) mod numFrames (header d)).
Proof.
  intros Hc Hp Hd Hf.
  pose proof (proj1 (SchedulerClaims.has_frame_bounds _ _ _) Hf) as Hb.
  assert (HN : numFrames (header d) = Z.of_nat (length (frames d))) by exact Hc.
  cbv zeta. cbn [run step]. rewrite (play_starts d w Hp Hd Hf).
  rewrite Z.rem_mod_nonneg by lia.
  set (w1 := {| this := _; env := snd (setTimeout (env w)) |}).
  destruct (pause_spec Image w1) as (P1 & P2 & P3 & P4).
  assert (Hf2 : has_frame (frames d) (currentFrame (this (pause Image w1))) = true).
  { rewrite P2. cbn [w1 this currentFrame].
    apply mod_in_range; [exact Hc | apply (has_frame_nonempty d _ Hf)]. }
  assert (Hn : nextTimeout (env (pause Image w1)) = S (nextTimeout (env w))).
  { unfold pause. cbn [w1 this animationId].
    destruct (nextTimeout (env w) =? 0)%nat; reflexivity. }
  rewrite (play_starts d (pause Image w1) P1 P3 Hf2).
  cbn [fst snd this env isPlaying setTimeout timeouts].
  rewrite P4, P2, Hn. cbn [w1 this env currentFrame setTimeout snd timeouts].
  rewrite <- app_assoc, app_nil_r. cbn [app]. auto.
Qed.

End Runs.

Lemma pause_resume_adds_a_timing_loop_witness :
  timeouts (env (fst (run nat [Play; Pause; Play] example_world)))
  = [5%nat; 6%nat] /\
  isPlaying (this (fst (run nat [Play; Pause; Play] example_world))) = true /\
  snd (run nat [Play; Pause; Play] example_world)
  = [Draw 0; Draw 1; StartClip {| frame := 1; audio := 0 |}].
Proof.
  exact (pause_resume_adds_a_timing_loop nat example_decoded example_world
           eq_refl eq_refl eq_refl eq_refl).
Defined.

Lemma ticks_draw_frames_in_order_witness :
  currentFrame (this (fst (ticks nat 4 playing_world))) = (0 + 4) mod 3 /\
  snd (ticks nat 4 playing_world)
  = [Draw 0; Draw 1; StartClip {| frame := 1; audio := 0 |}; Draw 2; Draw 0] /\
  ~ In Thrown (snd (ticks nat 4 playing_world)).
Proof.
  exact (ticks_draw_frames_in_order nat example_decoded 4 playing_world
           eq_refl eq_refl eq_refl eq_refl).
Defined.

Lemma lap_starts_each_trigger_once_witness :
  currentFrame (this (fst (ticks nat 3 second_frame_world))) = 1 /\
  count_occ event_eq_dec (snd (ticks nat 3 second_frame_world))
    (StartClip {| frame := 1; audio := 0 |}) = 1%nat /\
  ~ In (StartClip {| frame := 3; audio := 0 |})
       (snd (ticks nat 7 second_frame_world)).
Proof.
  destruct (lap_starts_each_trigger_once nat example_decoded second_frame_world
              eq_refl eq_refl eq_refl eq_refl) as (H1 & H2 & H3).
  split; [exact H1|]. split.
  - exact (H2 {| frame := 1; audio := 0 |} eq_refl eq_refl).
  - exact (H3 {| frame := 3; audio := 0 |} 7%nat eq_refl).
Defined.

Lemma run_keeps_frame_index_valid_witness :
  this_decoded (this (fst (run nat [Play; Pause; Play; TimeoutFires 5; FrameFires 9]
                             example_world)))
  = Some example_decoded /\
  ~ In Thrown (snd (run nat [Play; Pause; Play; TimeoutFires 5; FrameFires 9]
                      example_world)).
Proof.
  destruct (run_keeps_frame_index_valid nat example_decoded
              [Play; Pause; Play; TimeoutFires 5; FrameFires 9] example_world
              eq_refl eq_refl eq_refl) as (H1 & _ & H3 & _).
  split; [exact H1 | exact H3].
Defined.

Lemma one_timing_loop_without_pause_witness :
  (pending (fst (run nat [Play; TimeoutFires 5; Play; FrameFires 9; Play]
                   example_world)) <= 1)%nat.
Proof.
  apply (one_timing_loop_without_pause nat
           [Play; TimeoutFires 5; Play; FrameFires 9; Play] example_world).
  - repeat constructor; discriminate.
  - reflexivity.
  - reflexivity.
Defined.

Lemma empty_container_never_animates_witness :
  snd (run nat [Play; Pause; Play] empty_world) = [] /\
  isPlaying (this (fst (play nat empty_world))) = true.
Proof.
  destruct (empty_container_never_animates nat empty_decoded [Play; Pause; Play]
              empty_world eq_refl eq_refl) as (H1 & _ & H3).
  split; [exact H1 | exact H3].
Defined.

Lemma load_while_playing_keeps_frame_index_witness :
  snd (loadAndPlay nat short_decoded last_frame_world) = [] /\
  snd (frame_fires nat 9 (fst (loadAndPlay nat short_decoded last_frame_world)))
  = [Thrown].
Proof.
  destruct (load_while_playing_keeps_frame_index nat short_decoded
              last_frame_world 9%nat eq_refl ltac:(discriminate) eq_refl
              (or_introl eq_refl)) as (H1 & _ & _ & H4 & _).
  split; [exact H1 | exact H4].
Defined.

End SchedulerRuns.

(** ** The layout of a WAV file *)

Module WavLayout.

Import Wav.

Local Abbreviation length := List.length.

Lemma length_wav_frame (buffer : AudioBuffer) (i : nat) :
  length (wav_frame buffer i) = (2 * numberOfChannels buffer)%nat.
Proof.
  unfold wav_frame. generalize (numberOfChannels buffer). intros n.
  assert (H : forall s, length (flat_map (fun channel =>
                le16 (sample_int16 (getChannelData buffer channel i))) (seq s n))
              = (2 * n)%nat).
  { induction n as [|n IH]; intros s; [reflexivity|].
    cbn [seq flat_map]. rewrite length_app, IH. cbn [length le16]. lia. }
  apply H.
Qed.

(** A run of chunks of the same size: the chunk [i] and what lies before. *)
Lemma flat_map_chunk (f : nat -> bytes) (k n i : nat) :
  (forall j, length (f j) = k) -> (i < n)%nat ->
  exists pre post,
    flat_map f (seq 0 n) = pre ++ f i ++ post /\ length pre = (i * k)%nat.
Proof.
  intros Hk Hi.
  exists (flat_map f (seq 0 i)), (flat_map f (seq (S i) (n - S i))). split.
  - replace n with (i + S (n - S i))%nat at 1 by lia.
    rewrite seq_app, flat_map_app. reflexivity.
  - assert (H : forall s, length (flat_map f (seq s i)) = (i * k)%nat).
    { clear Hi. induction i as [|i IH]; intros s; [reflexivity|].
      cbn [seq flat_map]. rewrite length_app, IH, Hk. lia. }
    apply H.
Qed.

Lemma length_wav_samples (buffer : AudioBuffer) :
  length (wav_samples buffer)
  = (2 * (Wav.length buffer * numberOfChannels buffer))%nat.
Proof.
  unfold wav_samples.
  assert (H : forall n s, length (flat_map (wav_frame buffer) (seq s n))
                          = (2 * (n * numberOfChannels buffer))%nat).
  { induction n as [|n IH]; intros s; [reflexivity|].
    cbn [seq flat_map]. rewrite length_app, IH, length_wav_frame. lia. }
  apply H.
Qed.

Lemma byteLength_wav (buffer : AudioBuffer) :
  byteLength (wav_header buffer ++ wav_samples buffer)
  = 44 + 2 * (Z.of_nat (Wav.length buffer) * Z.of_nat (numberOfChannels buffer)).
Proof.
  unfold byteLength. rewrite length_app, length_wav_samples.
  change (length (wav_header buffer)) with 44%nat. lia.
Qed.

(** X8: the transcoder returns a file of 44 + 2 * length * channels octets
    that starts with a RIFF/WAVE header whose fields read back: the chunk
    size is the file size less 8, the data size the file size less 44, the
    format is PCM with 16 bits per sample, and the channel count, the
    sample rate, the byte rate and the block size are those of the
    buffer. *)
Theorem wav_header_reads_back (buffer : AudioBuffer) :
  0 <= sampleRate buffer < 4294967296 ->
  44 + 2 * (Z.of_nat (Wav.length buffer) * Z.of_nat (numberOfChannels buffer))
  < 4294967296 ->
  exists w,
    audioBufferToWav buffer = Ok w /\
    byteLength w
    = 44 + 2 * (Z.of_nat (Wav.length buffer) * Z.of_nat (numberOfChannels buffer)) /\
    Uint8Array w 0 4 = Ok (txt "RIFF") /\
    getUint32 w 4 = Ok (byteLength w - 8) /\
    Uint8Array w 8 8 = Ok (txt "WAVEfmt ") /\
    getUint32 w 16 = Ok 16 /\
    Uint8Array w 20 2 = Ok (le16 1) /\
    Uint8Array w 22 2 = Ok (le16 (Z.of_nat (numberOfChannels buffer))) /\
    getUint32 w 24 = Ok (sampleRate buffer) /\
    Uint8Array w 28 4
    = Ok (le32 (sampleRate buffer * Z.of_nat (numberOfChannels buffer) * 2)) /\
    Uint8Array w 32 2 = Ok (le16 (Z.of_nat (numberOfChannels buffer) * 2)) /\
    Uint8Array w 34 2 = Ok (le16 16) /\
    Uint8Array w 36 4 = Ok (txt "data") /\
    getUint32 w 40 = Ok (byteLength w - 44).
Proof.
  intros Hr Hs. exists (wav_header buffer ++ wav_samples buffer).
  split; [apply WavFacts.audioBufferToWav_total|].
  rewrite byteLength_wav. split; [reflexivity|].
  set (C := Z.of_nat (numberOfChannels buffer)) in *.
  set (L := Z.of_nat (Wav.length buffer)) in *.
  set (sr := sampleRate buffer) in *.
  set (smp := wav_samples buffer).
  assert (HC : 0 <= C) by (subst C; lia).
  assert (HL : 0 <= L) by (subst L; lia).
  assert (E : wav_header buffer ++ smp
              = txt "RIFF" ++ le32 (36 + L * C * 2) ++ txt "WAVEfmt " ++ le32 16
                ++ le16 1 ++ le16 C ++ le32 sr ++ le32 (sr * C * 2)
                ++ le16 (C * 2) ++ le16 16 ++ txt "data" ++ le32 (L * C * 2)
                ++ smp) by reflexivity.
  rewrite E. clear E.
  repeat split.
  - apply (Uint8Array_at [] (txt "RIFF")); reflexivity.
  - replace (44 + 2 * (L * C) - 8) with (36 + L * C * 2) by lia.
    apply (getUint32_at (txt "RIFF")); [reflexivity | lia].
  - apply (Uint8Array_at (txt "RIFF" ++ le32 (36 + L * C * 2)) (txt "WAVEfmt "));
      reflexivity.
  - apply (getUint32_at (txt "RIFF" ++ le32 (36 + L * C * 2) ++ txt "WAVEfmt "));
      [reflexivity | lia].
  - apply (Uint8Array_at (txt "RIFF" ++ le32 (36 + L * C * 2) ++ txt "WAVEfmt "
                          ++ le32 16) (le16 1)); reflexivity.
  - apply (Uint8Array_at (txt "RIFF" ++ le32 (36 + L * C * 2) ++ txt "WAVEfmt "
                          ++ le32 16 ++ le16 1) (le16 C)); reflexivity.
  - apply (getUint32_at (txt "RIFF" ++ le32 (36 + L * C * 2) ++ txt "WAVEfmt "
                         ++ le32 16 ++ le16 1 ++ le16 C));
      [reflexivity | lia].
  - apply (Uint8Array_at (txt "RIFF" ++ le32 (36 + L * C * 2) ++ txt "WAVEfmt "
                          ++ le32 16 ++ le16 1 ++ le16 C ++ le32 sr)
             (le32 (sr * C * 2))); reflexivity.
  - apply (Uint8Array_at (txt "RIFF" ++ le32 (36 + L * C * 2) ++ txt "WAVEfmt "
                          ++ le32 16 ++ le16 1 ++ le16 C ++ le32 sr
                          ++ le32 (sr * C * 2)) (le16 (C * 2))); reflexivity.
  - apply (Uint8Array_at (txt "RIFF" ++ le32 (36 + L * C * 2) ++ txt "WAVEfmt "
                          ++ le32 16 ++ le16 1 ++ le16 C ++ le32 sr
                          ++ le32 (sr * C * 2) ++ le16 (C * 2)) (le16 16));
      reflexivity.
  - apply (Uint8Array_at (txt "RIFF" ++ le32 (36 + L * C * 2) ++ txt "WAVEfmt "
                          ++ le32 16 ++ le16 1 ++ le16 C ++ le32 sr
                          ++ le32 (sr * C * 2) ++ le16 (C * 2) ++ le16 16)
             (txt "data")); reflexivity.
  - replace (44 + 2 * (L * C) - 44) with (L * C * 2) by lia.
    apply (getUint32_at (txt "RIFF" ++ le32 (36 + L * C * 2) ++ txt "WAVEfmt "
                         ++ le32 16 ++ le16 1 ++ le16 C ++ le32 sr
                         ++ le32 (sr * C * 2) ++ le16 (C * 2) ++ le16 16
                         ++ txt "data")); [reflexivity | lia].
Qed.

(** X9: the samples are interleaved: the sample of frame [i] on channel
    [c] occupies the two octets at offset 44 + 2 * (i * channels + c), as
    the signed 16-bit number [sample_int16] gives for it, least significant
    octet first. *)
Theorem wav_samples_are_interleaved (buffer : AudioBuffer) (i c : nat) :
  (i < Wav.length buffer)%nat ->
  (c < numberOfChannels buffer)%nat ->
  exists w view,
    audioBufferToWav buffer = Ok w /\
    Uint8Array w
      (44 + 2 * (Z.of_nat i * Z.of_nat (numberOfChannels buffer) + Z.of_nat c)) 2
    = Ok view /\
    int16_le view = sample_int16 (getChannelData buffer c i).
Proof.
  intros Hi Hc.
  exists (wav_header buffer ++ wav_samples buffer),
         (le16 (sample_int16 (getChannelData buffer c i))).
  split; [apply WavFacts.audioBufferToWav_total|].
  split; [|apply int16_le_le16, WavFacts.sample_int16_range].
  destruct (flat_map_chunk (wav_frame buffer) _ _ i (length_wav_frame buffer) Hi)
    as (pre1 & post1 & E1 & L1).
  destruct (flat_map_chunk
              (fun ch => le16 (sample_int16 (getChannelData buffer ch i)))
              2 _ c (fun _ => eq_refl) Hc) as (pre2 & post2 & E2 & L2).
  unfold wav_samples. rewrite E1. unfold wav_frame at 1. rewrite E2.
  replace (wav_header buffer
           ++ pre1 ++ (pre2 ++ le16 (sample_int16 (getChannelData buffer c i))
                       ++ post2) ++ post1)
    with ((wav_header buffer ++ pre1 ++ pre2)
          ++ le16 (sample_int16 (getChannelData buffer c i)) ++ post2 ++ post1)
    by (rewrite <- !app_assoc; reflexivity).
  apply Uint8Array_at; [|reflexivity].
  unfold byteLength. rewrite !length_app, L1, L2.
  change (length (wav_header buffer)) with 44%nat. lia.
Qed.

Lemma wav_header_reads_back_witness :
  exists w,
    audioBufferToWav stereo_clip = Ok w /\ byteLength w = 52 /\
    getUint32 w 4 = Ok 44 /\ getUint32 w 24 = Ok 44100 /\ getUint32 w 40 = Ok 8.
Proof.
  destruct (wav_header_reads_back stereo_clip ltac:(vm_compute; split; congruence)
              eq_refl)
    as (w & H1 & H2 & _ & H4 & _ & _ & _ & _ & H9 & _ & _ & _ & _ & H14).
  exists w. rewrite H2 in H4, H14. auto.
Defined.

Lemma wav_samples_are_interleaved_witness :
  exists w view,
    audioBufferToWav stereo_clip = Ok w /\
    Uint8Array w 50 2 = Ok view /\ int16_le view = 32767.
Proof.
  exact (wav_samples_are_interleaved stereo_clip 1 1 ltac:(vm_compute; lia)
           ltac:(vm_compute; lia)).
Defined.

Lemma div_frac_le (a b c d : Z) :
  0 <= a -> 0 < b -> 0 < d -> a * d <= c * b -> a / b <= c / d.
Proof.
  intros Ha Hb Hd H. apply Z.div_le_lower_bound; [exact Hd|].
  pose proof (Z.mul_div_le a b Hb) as H1.
  pose proof (Z.div_pos a b Ha Hb) as H2.
  nia.
Qed.

Lemma truncate_mono (p q : Q) : (p <= q)%Q -> truncate p <= truncate q.
Proof.
  destruct p as [a b], q as [c d]. unfold Qle, truncate. cbn [Qnum Qden].
  intros H.
  destruct (Z_lt_le_dec a 0) as [Ha | Ha]; destruct (Z_lt_le_dec c 0) as [Hc | Hc].
  - replace a with (- - a) by lia. replace c with (- - c) by lia.
    rewrite !(Z.quot_opp_l (- _)) by lia.
    rewrite !Z.quot_div_nonneg by lia.
    assert (- c / Z.pos d <= - a / Z.pos b); [|lia].
    apply div_frac_le; lia.
  - replace a with (- - a) by lia. rewrite Z.quot_opp_l by lia.
    rewrite !Z.quot_div_nonneg by lia.
    pose proof (Z.div_pos (- a) (Z.pos b) ltac:(lia) ltac:(lia)).
    pose proof (Z.div_pos c (Z.pos d) ltac:(lia) ltac:(lia)). lia.
  - exfalso. nia.
  - rewrite !Z.quot_div_nonneg by lia. apply div_frac_le; lia.
Qed.

(** The clamp keeps the order of numbers. *)
Lemma clamp_mono (x y : float) (p q : Q) :
  x <> NaN -> y <> NaN -> float_ltb y x = false ->
  clamp x = Finite p -> clamp y = Finite q -> (p <= q)%Q.
Proof.
  intros Hx Hy Hle Hp Hq.
  destruct (WavFacts.clamp_number x Hx) as (p' & Hp' & Hp1 & Hp2).
  destruct (WavFacts.clamp_number y Hy) as (q' & Hq' & Hq1 & Hq2).
  rewrite Hp in Hp'. injection Hp' as <-. rewrite Hq in Hq'. injection Hq' as <-.
  destruct x as [a| | |], y as [b| | |]; try contradiction; try discriminate;
    try (injection Hq as <-; exact Hp2);
    try (injection Hp as <-; exact Hq1).
  cbn [float_ltb] in Hle.
  apply negb_false_iff, Qle_bool_iff in Hle.
  destruct (WavFacts.clamp_cases a) as (A1 & A2 & A3).
  destruct (WavFacts.clamp_cases b) as (B1 & B2 & B3).
  destruct (Qlt_le_dec b (inject_Z 1)) as [Hb1 | Hb1].
  2:{ rewrite (B1 Hb1) in Hq. injection Hq as <-. exact Hp2. }
  destruct (Qlt_le_dec (inject_Z (-1)) a) as [Ha1 | Ha1].
  2:{ rewrite (A2 Ha1) in Hp. injection Hp as <-. exact Hq1. }
  assert (Na1 : ~ (inject_Z 1 <= a)%Q).
  { intros H. apply (Qlt_not_le _ _ Hb1). eapply Qle_trans; eassumption. }
  assert (Nb2 : ~ (b <= inject_Z (-1))%Q).
  { intros H. apply (Qlt_not_le _ _ Ha1). eapply Qle_trans; eassumption. }
  rewrite A3 in Hp by (auto using Qlt_not_le).
  rewrite B3 in Hq by (auto using Qlt_not_le).
  injection Hp as <-. injection Hq as <-. exact Hle.
Qed.

(** X10: the encoding keeps the order of samples: of two samples that are
    numbers, finite or not, the smaller is never stored as the larger
    16-bit number, so a sample outside [-1, 1] never wraps around. *)
Theorem sample_int16_monotone (x y : float) :
  x <> NaN -> y <> NaN -> float_ltb y x = false ->
  sample_int16 x <= sample_int16 y.
Proof.
  intros Hx Hy Hle.
  destruct (WavFacts.clamp_number x Hx) as (p & Hp & Hpr).
  destruct (WavFacts.clamp_number y Hy) as (q & Hq & Hqr).
  pose proof (clamp_mono x y p q Hx Hy Hle Hp Hq) as Hpq.
  destruct (WavFacts.sample_int16_clamped x p Hp Hpr) as (P1 & P2 & _).
  destruct (WavFacts.sample_int16_clamped y q Hq Hqr) as (Q1 & Q2 & _).
  assert (H8 : (0 <= inject_Z 32768)%Q) by discriminate.
  assert (H7 : (0 <= inject_Z 32767)%Q) by discriminate.
  destruct (Qlt_le_dec p 0) as [Hp0 | Hp0]; destruct (Qlt_le_dec q 0) as [Hq0 | Hq0].
  - rewrite (P1 Hp0), (Q1 Hq0). apply truncate_mono.
    apply Qmult_le_compat_r; assumption.
  - rewrite (P1 Hp0), (Q2 Hq0). apply truncate_mono.
    apply Qle_trans with 0%Q.
    + rewrite <- (Qmult_0_l (inject_Z 32768)).
      apply Qmult_le_compat_r; [apply Qlt_le_weak, Hp0 | exact H8].
    + apply Qmult_le_0_compat; assumption.
  - exfalso. apply (Qlt_not_le _ _ Hq0). eapply Qle_trans; eassumption.
  - rewrite (P2 Hp0), (Q2 Hq0). apply truncate_mono.
    apply Qmult_le_compat_r; assumption.
Qed.

Lemma sample_int16_monotone_witness :
  sample_int16 (Finite (-3 # 2)) <= sample_int16 PosInf.
Proof.
  apply sample_int16_monotone; [discriminate | discriminate | reflexivity].
Defined.

End WavLayout.

(** ** The layout of the containers the decoder accepts *)

Module ContainerLayout.

Lemma byte_of_Z_low (b : byte) (k : Z) : byte_of_Z (Z_of_byte b + 256 * k) = b.
Proof.
  rewrite <- (byte_of_Z_of_byte b) at 2. unfold byte_of_Z.
  replace ((Z_of_byte b + 256 * k) mod 256) with (Z_of_byte b mod 256);
    [reflexivity|].
  rewrite (Z.mul_comm 256 k), Z.mod_add by lia. reflexivity.
Qed.

(** The four octets of a length are the length read from them. *)
Lemma le32_uint32_le (b0 b1 b2 b3 : byte) :
  le32 (uint32_le b0 b1 b2 b3) = [b0; b1; b2; b3].
Proof.
  unfold le32, uint32_le.
  pose proof (Z_of_byte_range b0). pose proof (Z_of_byte_range b1).
  pose proof (Z_of_byte_range b2). pose proof (Z_of_byte_range b3).
  set (n := Z_of_byte b0 + 256 * Z_of_byte b1 + 65536 * Z_of_byte b2
            + 16777216 * Z_of_byte b3).
  assert (E1 : n / 256
               = Z_of_byte b1 + 256 * (Z_of_byte b2 + 256 * Z_of_byte b3)).
  { symmetry. apply (Z.div_unique_pos n 256 _ (Z_of_byte b0)); [lia|].
    unfold n. lia. }
  assert (E2 : n / 65536 = Z_of_byte b2 + 256 * Z_of_byte b3).
  { symmetry.
    apply (Z.div_unique_pos n 65536 _ (Z_of_byte b0 + 256 * Z_of_byte b1));
      [lia|]. unfold n. lia. }
  assert (E3 : n / 16777216 = Z_of_byte b3 + 256 * 0).
  { symmetry.
    apply (Z.div_unique_pos n 16777216 _
             (Z_of_byte b0 + 256 * Z_of_byte b1 + 65536 * Z_of_byte b2));
      [lia|]. unfold n. lia. }
  rewrite E1, E2, E3, !byte_of_Z_low.
  replace n with (Z_of_byte b0
                  + 256 * (Z_of_byte b1 + 256 * Z_of_byte b2
                           + 65536 * Z_of_byte b3)) by (unfold n; lia).
  rewrite byte_of_Z_low. reflexivity.
Qed.

(** A view that was read is the front of what lies at its offset. *)
Lemma Uint8Array_skipn (buf : bytes) (off len : Z) (v : bytes) :
  Uint8Array buf off len = Ok v ->
  skipn (Z.to_nat off) buf = v ++ skipn (Z.to_nat (off + len)) buf /\
  byteLength v = len /\ 0 <= off /\ 0 <= len.
Proof.
  intros H. apply Uint8Array_inv in H as (H0 & H1 & H2 & ->).
  split; [|split; [|split; assumption]].
  - rewrite Z2Nat.inj_add by lia.
    rewrite (Nat.add_comm (Z.to_nat off)), <- skipn_skipn.
    symmetry. apply firstn_skipn.
  - unfold byteLength in *. rewrite length_firstn, length_skipn. lia.
Qed.

Lemma getUint32_skipn (buf : bytes) (off n : Z) :
  getUint32 buf off = Ok n ->
  skipn (Z.to_nat off) buf = le32 n ++ skipn (Z.to_nat (off + 4)) buf /\
  0 <= off.
Proof.
  unfold getUint32. destruct (Uint8Array buf off 4) as [v|] eqn:E; cbn [bind];
    [|discriminate].
  apply Uint8Array_skipn in E as (E & _ & H0 & _).
  destruct v as [|b0 [|b1 [|b2 [|b3 [|? ?]]]]]; try discriminate.
  intros H. injection H as <-. rewrite le32_uint32_le. auto.
Qed.

(** A length and the payload read after it. *)
Lemma read_part (buf : bytes) (off n : Z) (v : bytes) :
  getUint32 buf off = Ok n ->
  Uint8Array buf (off + 4) n = Ok v ->
  skipn (Z.to_nat off) buf
  = length_prefixed v ++ skipn (Z.to_nat (off + 4 + n)) buf /\
  0 <= off /\ 0 <= n.
Proof.
  intros H1 H2. apply getUint32_skipn in H1 as (H1 & H0).
  apply Uint8Array_skipn in H2 as (H2 & Hl & _ & Hn).
  rewrite H1, H2. unfold length_prefixed. rewrite Hl, <- app_assoc. auto.
Qed.

Ltac step_ok H x E :=
  match type of H with
  | bind ?r _ = Ok _ =>
      destruct r as [x|] eqn:E; cbn [bind] in H; [|discriminate H]
  end.

Lemma read_payloads_layout (wrap : bytes -> bytes) (buf : bytes) (n : nat) :
  forall off l off',
    0 <= off ->
    AGIFDecoder.read_payloads wrap buf n off = Ok (l, off') ->
    exists items,
      length items = n /\ l = map wrap items /\ off <= off' /\
      skipn (Z.to_nat off) buf
      = flat_map length_prefixed items ++ skipn (Z.to_nat off') buf.
Proof.
  induction n as [|n IH]; intros off l off' Hoff H;
    cbn [AGIFDecoder.read_payloads] in H.
  - injection H as <- <-. exists []. repeat split. lia.
  - step_ok H len E1. step_ok H v E2. step_ok H r E3.
    destruct r as [l1 o1]. cbn [fst snd] in H. injection H as <- <-.
    destruct (read_part buf off len v E1 E2) as (Hs & _ & Hlen).
    destruct (IH (off + 4 + len) l1 o1 ltac:(lia) E3)
      as (items & Hn & -> & Ho & Hs').
    exists (v :: items). cbn [length map flat_map].
    split; [congruence|]. split; [reflexivity|]. split; [lia|].
    rewrite Hs, Hs', <- app_assoc. reflexivity.
Qed.

Section Accepted.

Variable parseJSON : bytes -> option json.
Variable Image : Type.
Variable loadImage : bytes -> option Image.
Variable decodeAudioData : bytes -> option Wav.AudioBuffer.

(** The octets of a container: the magic, the header text, the frame
    payloads, the clip payloads and the trigger text, each but the magic
    behind its length. *)
Lemma read_container_layout (buf : bytes) (s : AGIFDecoder.sections) (off : Z) :
  AGIFDecoder.read_container parseJSON buf = Ok (s, off) ->
  exists headerBytes frameData audioData triggerBytes,
    buf = txt "AGIF" ++ length_prefixed headerBytes
          ++ flat_map length_prefixed frameData
          ++ flat_map length_prefixed audioData
          ++ length_prefixed triggerBytes ++ skipn (Z.to_nat off) buf /\
    parseJSON (TextDecoder_decode headerBytes) = Some (AGIFDecoder.s_header s) /\
    is_null (AGIFDecoder.s_header s) = false /\
    json_is_string (prop (AGIFDecoder.s_header s) "version") "1.0" = true /\
    json_is_string (prop (AGIFDecoder.s_header s) "audioFormat") "wav" = true /\
    length frameData = loop_count (prop (AGIFDecoder.s_header s) "numFrames") /\
    length audioData
    = loop_count (prop (AGIFDecoder.s_header s) "numAudioClips") /\
    AGIFDecoder.s_frameData s
    = map (fun view => AGIFDecoder.dataURL (TextDecoder_decode view)) frameData /\
    AGIFDecoder.s_audioData s = audioData /\
    parseJSON (TextDecoder_decode triggerBytes) = Some (AGIFDecoder.s_triggers s).
Proof.
  intros H. unfold AGIFDecoder.read_container in H.
  step_ok H magic Em.
  destruct (negb (bytes_eqb (TextDecoder_decode magic) (txt "AGIF")))
    eqn:Emagic; [discriminate H|].
  step_ok H headerLen Ehl. step_ok H headerView Ehv. step_ok H hdr Ehd.
  destruct (is_null hdr) eqn:Enull; [discriminate H|]. cbv zeta in H.
  destruct (negb (json_is_string (prop hdr "version") "1.0")
            || negb (json_is_string (prop hdr "audioFormat") "wav"))
    eqn:Ever; [discriminate H|].
  destruct (conversion_throws (prop hdr "numFrames")); [discriminate H|].
  step_ok H fr Efr. destruct fr as [fd o1].
  destruct (conversion_throws (prop hdr "numAudioClips")); [discriminate H|].
  step_ok H au Eau. destruct au as [ad o2].
  step_ok H triggerLen Etl. step_ok H triggerView Etv. step_ok H tr Etr.
  injection H as <- <-. cbn [AGIFDecoder.s_header AGIFDecoder.s_frameData
    AGIFDecoder.s_audioData AGIFDecoder.s_triggers].
  apply orb_false_iff in Ever as [V1 V2]. apply negb_false_iff in V1, V2.
  destruct (parseJSON (TextDecoder_decode headerView)) as [hdr'|] eqn:Ph;
    [|discriminate]. injection Ehd as ->.
  destruct (parseJSON (TextDecoder_decode triggerView)) as [tr'|] eqn:Pt;
    [|discriminate]. injection Etr as ->.
  assert (Hm : magic = txt "AGIF").
  { destruct (bytes_eqb magic (txt "AGIF")) eqn:E;
      [apply bytes_eqb_eq, E|].
    apply Uint8Array_skipn in Em as (_ & Hl & _).
    rewrite magic_mismatch in Emagic; [discriminate | |].
    - unfold byteLength in Hl. lia.
    - intros ->. discriminate E. }
  subst magic.
  apply Uint8Array_skipn in Em as (S0 & _).
  destruct (read_part buf _ _ _ Ehl Ehv) as (S1 & _ & Hhl).
  apply read_payloads_layout in Efr as (frameData & Nf & -> & Ho1 & S2); [|lia].
  apply read_payloads_layout in Eau as (audioData & Na & Ead & Ho2 & S3); [|lia].
  rewrite map_id in Ead. subst ad.
  destruct (read_part buf _ _ _ Etl Etv) as (S4 & _ & Htl).
  exists headerView, frameData, audioData, triggerView.
  split; [|repeat split; assumption].
  change (Z.to_nat 0) with O in S0. cbn [skipn] in S0.
  rewrite S0 at 1. rewrite S1, S2, S3, S4. reflexivity.
Qed.

(** X11: a buffer whose sections the decoder accepts and whose header
    counts are integers is, octet for octet, the magic followed by the
    header text, [numFrames] frame payloads, [numAudioClips] clip payloads
    and the trigger text, each but the magic behind its four-octet length;
    its header is an object with version "1.0" and audio format "wav".  The
    frame texts read are the payloads behind the data-URL prefix when the
    payloads are base64 text. *)
Theorem accepted_container_layout (buf : bytes) (s : AGIFDecoder.sections)
  (numFrames numAudioClips : Z) :
  AGIFDecoder.decode_sections parseJSON buf = Ok s ->
  prop (AGIFDecoder.s_header s) "numFrames" = Some (JNum numFrames) ->
  prop (AGIFDecoder.s_header s) "numAudioClips" = Some (JNum numAudioClips) ->
  exists headerBytes frameData audioData triggerBytes,
    buf = txt "AGIF" ++ length_prefixed headerBytes
          ++ flat_map length_prefixed frameData
          ++ flat_map length_prefixed audioData
          ++ length_prefixed triggerBytes /\
    parseJSON (TextDecoder_decode headerBytes) = Some (AGIFDecoder.s_header s) /\
    is_null (AGIFDecoder.s_header s) = false /\
    json_is_string (prop (AGIFDecoder.s_header s) "version") "1.0" = true /\
    json_is_string (prop (AGIFDecoder.s_header s) "audioFormat") "wav" = true /\
    length frameData = Z.to_nat numFrames /\
    length audioData = Z.to_nat numAudioClips /\
    length (AGIFDecoder.s_frameData s) = length frameData /\
    (Forall (fun payload => Spec.is_base64 payload = true) frameData ->
     AGIFDecoder.s_frameData s = map AGIFDecoder.dataURL frameData) /\
    AGIFDecoder.s_audioData s = audioData /\
    parseJSON (TextDecoder_decode triggerBytes) = Some (AGIFDecoder.s_triggers s).
Proof.
  intros H Hn Ha. apply decode_sections_inv in H.
  destruct (read_container_layout buf s _ H)
    as (hb & fr & au & tb & E & Ph & Hnull & V1 & V2 & Nf & Na & Ef & Ea & Pt).
  exists hb, fr, au, tb.
  unfold byteLength in E. rewrite Nat2Z.id, skipn_all, app_nil_r in E.
  rewrite Hn in Nf. rewrite Ha in Na.
  split; [exact E|]. split; [exact Ph|]. split; [exact Hnull|].
  split; [exact V1|]. split; [exact V2|]. split; [exact Nf|].
  split; [exact Na|]. split; [rewrite Ef; apply length_map|].
  split; [|split; [exact Ea | exact Pt]].
  intros Htext. rewrite Ef. apply map_ext_in. intros payload Hin.
  rewrite TextDecoder_decode_text; [reflexivity|].
  exact (proj1 (Forall_forall _ _) Htext payload Hin).
Qed.

(** X12: conversely, every buffer of that shape that is shorter than 4 GiB,
    whose header counts are the integers that count its payloads and whose
    frame payloads are base64 text, is accepted, and the sections read are
    the parsed header, the payloads and the parsed trigger map. *)
Theorem layout_is_accepted (headerBytes triggerBytes : bytes)
  (frameData audioData : list bytes) (header triggers : json)
  (numFrames numAudioClips : Z) :
  let buf := txt "AGIF" ++ length_prefixed headerBytes
             ++ flat_map length_prefixed frameData
             ++ flat_map length_prefixed audioData
             ++ length_prefixed triggerBytes in
  byteLength buf < 4294967296 ->
  parseJSON (TextDecoder_decode headerBytes) = Some header ->
  is_null header = false ->
  json_is_string (prop header "version") "1.0" = true ->
  json_is_string (prop header "audioFormat") "wav" = true ->
  prop header "numFrames" = Some (JNum numFrames) ->
  prop header "numAudioClips" = Some (JNum numAudioClips) ->
  length frameData = Z.to_nat numFrames ->
  length audioData = Z.to_nat numAudioClips ->
  Forall (fun payload => Spec.is_base64 payload = true) frameData ->
  parseJSON (TextDecoder_decode triggerBytes) = Some triggers ->
  AGIFDecoder.decode_sections parseJSON buf
  = Ok {| AGIFDecoder.s_header := header;
          AGIFDecoder.s_frameData := map AGIFDecoder.dataURL frameData;
          AGIFDecoder.s_audioData := audioData;
          AGIFDecoder.s_triggers := triggers |}.
Proof.
  intros buf Hsize Ph Hnull Hv Ha En Em Nf0 Na0 Htext Pt.
  assert (Nf : length frameData = loop_count (prop header "numFrames"))
    by (rewrite En; exact Nf0).
  assert (Na : length audioData = loop_count (prop header "numAudioClips"))
    by (rewrite Em; exact Na0).
  assert (Tf : conversion_throws (prop header "numFrames") = false)
    by (rewrite En; reflexivity).
  assert (Ta : conversion_throws (prop header "numAudioClips") = false)
    by (rewrite Em; reflexivity).
  assert (Emap : map (fun view => AGIFDecoder.dataURL (TextDecoder_decode view))
                   frameData = map AGIFDecoder.dataURL frameData).
  { apply map_ext_in. intros payload Hin.
    rewrite TextDecoder_decode_text; [reflexivity|].
    exact (proj1 (Forall_forall _ _) Htext payload Hin). }
  clear En Em Nf0 Na0.
  unfold length_prefixed in buf.
  set (H := headerBytes) in *. set (T := triggerBytes) in *.
  set (F := flat_map length_prefixed frameData) in *.
  set (A := flat_map length_prefixed audioData) in *.
  assert (Ebuf : buf = txt "AGIF" ++ le32 (byteLength H) ++ H ++ F ++ A
                       ++ le32 (byteLength T) ++ T).
  { unfold buf. rewrite <- !app_assoc. reflexivity. }
  clearbody buf. subst buf.
  set (buf := txt "AGIF" ++ le32 (byteLength H) ++ H ++ F ++ A
              ++ le32 (byteLength T) ++ T) in *.
  assert (Hlen : byteLength buf =
                 4 + 4 + byteLength H + byteLength F + byteLength A + 4 + byteLength T).
  { unfold buf. rewrite !byteLength_app, !byteLength_le32.
    change (byteLength (txt "AGIF")) with 4. lia. }
  pose proof (byteLength_nonneg H) as H0. pose proof (byteLength_nonneg F) as F0.
  pose proof (byteLength_nonneg A) as A0. pose proof (byteLength_nonneg T) as T0.
  assert (HF : Forall (fun x => byteLength x < 4294967296) frameData).
  { apply Forall_forall. intros x Hx.
    pose proof (flat_map_length_In x frameData Hx) as Hx'. fold F in Hx'. lia. }
  assert (HA : Forall (fun x => byteLength x < 4294967296) audioData).
  { apply Forall_forall. intros x Hx.
    pose proof (flat_map_length_In x audioData Hx) as Hx'. fold A in Hx'. lia. }
  unfold AGIFDecoder.decode_sections, AGIFDecoder.read_container.
  rewrite (Uint8Array_part buf [] (txt "AGIF")
             (le32 (byteLength H) ++ H ++ F ++ A ++ le32 (byteLength T) ++ T));
    [| reflexivity | reflexivity | reflexivity].
  cbn [bind].
  change (negb (bytes_eqb (TextDecoder_decode (txt "AGIF")) (txt "AGIF"))) with false.
  cbv iota.
  rewrite (getUint32_part buf (txt "AGIF") (H ++ F ++ A ++ le32 (byteLength T) ++ T)
             (0 + 4) (byteLength H));
    [| reflexivity | reflexivity | lia].
  cbn [bind].
  rewrite (Uint8Array_part buf (txt "AGIF" ++ le32 (byteLength H)) H
             (F ++ A ++ le32 (byteLength T) ++ T));
    [| part_eq | part_off | reflexivity].
  cbn [bind]. rewrite Ph. cbn [of_option bind]. rewrite Hnull. cbv zeta.
  rewrite Hv, Ha. cbn [negb orb]. rewrite Tf, Ta, <- Nf, <- Na.
  rewrite (read_payloads_build _ frameData HF buf
             (txt "AGIF" ++ le32 (byteLength H) ++ H)
             (A ++ le32 (byteLength T) ++ T));
    [| part_eq | part_off].
  cbn [bind]. fold F.
  rewrite (read_payloads_build _ audioData HA buf
             (txt "AGIF" ++ le32 (byteLength H) ++ H ++ F)
             (le32 (byteLength T) ++ T));
    [| part_eq | part_off].
  cbn [bind]. fold A.
  rewrite (getUint32_part buf (txt "AGIF" ++ le32 (byteLength H) ++ H ++ F ++ A) T
             _ (byteLength T));
    [| part_eq | part_off | lia].
  cbn [bind].
  rewrite (Uint8Array_part buf
             (txt "AGIF" ++ le32 (byteLength H) ++ H ++ F ++ A ++ le32 (byteLength T))
             T []);
    [| part_eq | part_off | reflexivity].
  cbn [bind]. rewrite Pt. cbn [of_option bind]. rewrite map_id, Emap.
  replace (0 + 4 + 4 + byteLength H + byteLength F + byteLength A + 4 + byteLength T
           =? byteLength buf) with true by (symmetry; apply Z.eqb_eq; lia).
  reflexivity.
Qed.

(** X13: the header decides first.  On a buffer that starts with the magic
    and a header text behind its length, whatever follows, [decode] fails
    with a syntax error when the text is not JSON and with a type error
    when it is [null]; when the version or the audio format is not the
    expected string it fails with the unsupported-version error, which
    reports the two values found, unless one of them cannot be converted to
    a string for the message (an object with a member [toString], or an
    array that holds one), in which case the conversion raises a type
    error. *)
Theorem header_errors_come_first (headerBytes rest : bytes) :
  byteLength headerBytes < 4294967296 ->
  let buf := txt "AGIF" ++ length_prefixed headerBytes ++ rest in
  let decode := AGIFDecoder.decode parseJSON Image loadImage decodeAudioData in
  (parseJSON (TextDecoder_decode headerBytes) = None ->
   decode buf = Err SyntaxError) /\
  (parseJSON (TextDecoder_decode headerBytes) = Some JNull ->
   decode buf = Err TypeError) /\
  (forall header,
      parseJSON (TextDecoder_decode headerBytes) = Some header ->
      is_null header = false ->
      json_is_string (prop header "version") "1.0"
      && json_is_string (prop header "audioFormat") "wav" = false ->
      decode buf
      = Err (if conversion_throws (prop header "version")
                || conversion_throws (prop header "audioFormat")
             then TypeError
             else Unsupported (prop header "version")
                    (prop header "audioFormat"))).
Proof.
  intros Hsize buf decode. unfold length_prefixed in buf.
  pose proof (byteLength_nonneg headerBytes) as H0.
  assert (E : AGIFDecoder.read_container parseJSON buf
              = AGIFDecoder.read_container parseJSON buf) by reflexivity.
  unfold AGIFDecoder.read_container at 2 in E.
  rewrite (Uint8Array_part buf [] (txt "AGIF")
             ((le32 (byteLength headerBytes) ++ headerBytes) ++ rest))
    in E; [| reflexivity | reflexivity | reflexivity].
  cbn [bind] in E.
  change (negb (bytes_eqb (TextDecoder_decode (txt "AGIF")) (txt "AGIF")))
    with false in E.
  cbv iota in E.
  rewrite (getUint32_part buf (txt "AGIF") (headerBytes ++ rest)
             (0 + 4) (byteLength headerBytes))
    in E; [| unfold buf; rewrite <- !app_assoc; reflexivity | reflexivity | lia].
  cbn [bind] in E.
  rewrite (Uint8Array_part buf (txt "AGIF" ++ le32 (byteLength headerBytes))
             headerBytes rest)
    in E; [| unfold buf; rewrite <- !app_assoc; reflexivity
           | part_off | reflexivity].
  cbn [bind] in E.
  unfold decode, AGIFDecoder.decode, AGIFDecoder.decode_sections.
  split; [|split].
  - intros P. rewrite E, P. reflexivity.
  - intros P. rewrite E, P. reflexivity.
  - intros header P Hnull Hv. rewrite E, P. cbn [of_option bind].
    rewrite Hnull. cbv zeta.
    replace (negb (json_is_string (prop header "version") "1.0")
             || negb (json_is_string (prop header "audioFormat") "wav"))
      with true; [reflexivity|].
    rewrite <- negb_andb, Hv. reflexivity.
Qed.

(** X14: a container that decodes and whose header counts are integers
    has [numFrames] frames and [numAudioClips] clips (none for a negative
    count), and its header has version "1.0" and audio format "wav". *)
Theorem decoded_counts_follow_header (buf : bytes)
  (d : AGIFDecoder.decoded Image) (numFrames numAudioClips : Z) :
  AGIFDecoder.decode parseJSON Image loadImage decodeAudioData buf = Ok d ->
  prop (AGIFDecoder.header d) "numFrames" = Some (JNum numFrames) ->
  prop (AGIFDecoder.header d) "numAudioClips" = Some (JNum numAudioClips) ->
  length (AGIFDecoder.frames d) = Z.to_nat numFrames /\
  length (AGIFDecoder.audioBuffers d) = Z.to_nat numAudioClips /\
  json_is_string (prop (AGIFDecoder.header d) "version") "1.0" = true /\
  json_is_string (prop (AGIFDecoder.header d) "audioFormat") "wav" = true.
Proof.
  unfold AGIFDecoder.decode. intros H.
  step_ok H s Es. step_ok H frames Ef. step_ok H audioBuffers Ea.
  destruct (is_null (AGIFDecoder.s_triggers s)); [discriminate|].
  injection H as <-. cbn [AGIFDecoder.frames AGIFDecoder.audioBuffers
    AGIFDecoder.header].
  intros Hn Hm.
  apply decode_sections_inv in Es.
  destruct (read_container_layout buf s _ Es)
    as (hb & fr & au & tb & _ & _ & _ & V1 & V2 & Nf & Na & Ef' & Ea' & _).
  apply all_length in Ef, Ea.
  rewrite Ef, Ea, Ef', Ea', length_map, Nf, Na, Hn, Hm. auto.
Qed.

End Accepted.

Lemma accepted_container_layout_witness :
  exists headerBytes frameData audioData triggerBytes,
    example_buffer
    = txt "AGIF" ++ length_prefixed headerBytes
      ++ flat_map length_prefixed frameData
      ++ flat_map length_prefixed audioData
      ++ length_prefixed triggerBytes /\
    length frameData = 2%nat /\ length audioData = 1%nat.
Proof.
  eassert (Hs : AGIFDecoder.decode_sections JSON_parse example_buffer = Ok _)
    by (vm_compute; reflexivity).
  destruct (accepted_container_layout JSON_parse example_buffer _ 2 1 Hs
              eq_refl eq_refl)
    as (hb & fr & au & tb & E & _ & _ & _ & _ & Nf & Na & _).
  exists hb, fr, au, tb. split; [exact E|]. split; [exact Nf | exact Na].
Defined.

Lemma layout_is_accepted_witness :
  AGIFDecoder.decode_sections JSON_parse
    (txt "AGIF" ++ length_prefixed (JSON_stringify (header_json 10 1 0))
     ++ flat_map length_prefixed [txt "AAAA"] ++ flat_map length_prefixed []
     ++ length_prefixed (txt "{}"))
  = Ok {| AGIFDecoder.s_header := header_json 10 1 0;
          AGIFDecoder.s_frameData := [txt "data:image/png;base64,AAAA"];
          AGIFDecoder.s_audioData := [];
          AGIFDecoder.s_triggers := JObj [] |}.
Proof.
  apply (layout_is_accepted JSON_parse (JSON_stringify (header_json 10 1 0))
           (txt "{}") [txt "AAAA"] [] (header_json 10 1 0) (JObj []) 1 0);
    try (vm_compute; reflexivity).
  repeat constructor.
Defined.

Lemma header_errors_come_first_witness :
  AGIFDecoder.decode JSON_parse bytes (fun data => Some data) (fun _ => None)
    (txt "AGIF" ++ length_prefixed (txt "{}") ++ [x00])
  = Err (Unsupported None None) /\
  AGIFDecoder.decode JSON_parse bytes (fun data => Some data) (fun _ => None)
    (txt "AGIF"
     ++ length_prefixed
          (JSON_stringify
             (JObj [(txt "version", JObj [(txt "toString", JNum 0)])]))
     ++ [x00])
  = Err TypeError.
Proof.
  split.
  - apply (proj2 (proj2 (header_errors_come_first JSON_parse bytes
                           (fun data => Some data) (fun _ => None)
                           (txt "{}") [x00] eq_refl)) (JObj []));
      reflexivity.
  - apply (proj2 (proj2 (header_errors_come_first JSON_parse bytes
                           (fun data => Some data) (fun _ => None)
                           (JSON_stringify
                              (JObj [(txt "version",
                                      JObj [(txt "toString", JNum 0)])]))
                           [x00] eq_refl))
             (JObj [(txt "version", JObj [(txt "toString", JNum 0)])]));
      vm_compute; reflexivity.
Defined.

Lemma decoded_counts_follow_header_witness :
  exists d,
    AGIFDecoder.decode JSON_parse bytes (fun data => Some data)
      (fun _ => Some silent_clip) example_buffer = Ok d /\
    length (AGIFDecoder.frames d) = 2%nat /\
    length (AGIFDecoder.audioBuffers d) = 1%nat.
Proof.
  eassert (Hd : AGIFDecoder.decode JSON_parse bytes (fun data => Some data)
                  (fun _ => Some silent_clip) example_buffer = Ok _)
    by (vm_compute; reflexivity).
  eexists. split; [exact Hd|].
  destruct (decoded_counts_follow_header JSON_parse bytes _ _ _ _ 2 1 Hd
              eq_refl eq_refl) as (H1 & H2 & _).
  split; [exact H1 | exact H2].
Defined.

End ContainerLayout.

(** ** The authoring page *)

Module PageFacts.

Import AuthoringPage.

Lemma digit_of_digit_char (d : Z) :
  0 <= d <= 9 -> digit_of 10 (digit_char d) = Some d.
Proof.
  intros H. unfold digit_of. rewrite Z_of_digit_char by lia.
  rewrite is_digit_char by lia.
  replace (48 + d - 48) with d by lia.
  replace (d <? 10) with true by (symmetry; apply Z.ltb_lt; lia).
  reflexivity.
Qed.

Lemma digits_prefix_digits (ds : list Z) :
  Forall (fun d => 0 <= d <= 9) ds ->
  forall acc,
    digits_prefix 10 (Some acc) (map digit_char ds)
    = Some (digits_value_from acc ds).
Proof.
  induction 1 as [|d ds Hd _ IH]; intros acc; [reflexivity|].
  cbn [map digits_prefix]. rewrite (digit_of_digit_char d Hd). apply IH.
Qed.

(** [parseInt] on a text that starts with neither a blank nor a sign nor a
    radix prefix, and on the same text behind a minus sign. *)
Lemma parseInt_plain (c : byte) (r : bytes) :
  is_blank (Z_of_byte c) = false ->
  (Z_of_byte c =? 45) = false -> (Z_of_byte c =? 43) = false ->
  (Z_of_byte c =? 48) = false \/ r = [] ->
  parseInt (c :: r)
  = option_map (fun v => v) (digits_prefix 10 None (c :: r)) /\
  parseInt (x2d :: c :: r)
  = option_map (fun v => - v) (digits_prefix 10 None (c :: r)).
Proof.
  intros Hb H45 H43 Hx. unfold parseInt. cbn [skip_blanks].
  change (is_blank (Z_of_byte x2d)) with false. rewrite Hb. cbv beta iota.
  change (Z_of_byte x2d =? 45) with true. rewrite H45, H43. cbv beta iota.
  destruct r as [|c1 r]; [split; reflexivity|].
  destruct Hx as [Hx | Hx]; [|discriminate].
  rewrite Hx. cbn [andb]. cbv beta iota. split; reflexivity.
Qed.

(** [parseInt] on the digits of a number that does not start with 0, or on
    the single digit 0. *)
Lemma parseInt_digits (neg : bool) (d : Z) (ds : list Z) :
  0 <= d <= 9 -> (d = 0 -> ds = []) ->
  Forall (fun d => 0 <= d <= 9) ds ->
  parseInt ((if neg then [x2d] else []) ++ map digit_char (d :: ds))
  = Some (if neg then - digits_value_from d ds else digits_value_from d ds).
Proof.
  intros Hd Hz Hds.
  assert (Hc : Z_of_byte (digit_char d) = 48 + d) by (apply Z_of_digit_char, Hd).
  assert (Hb : is_blank (Z_of_byte (digit_char d)) = false).
  { rewrite Hc. unfold is_blank. apply orb_false_iff. split.
    - apply Z.eqb_neq. lia.
    - apply andb_false_iff. right. apply Z.leb_gt. lia. }
  assert (H45 : (Z_of_byte (digit_char d) =? 45) = false)
    by (apply Z.eqb_neq; lia).
  assert (H43 : (Z_of_byte (digit_char d) =? 43) = false)
    by (apply Z.eqb_neq; lia).
  assert (Hx : (Z_of_byte (digit_char d) =? 48) = false \/ map digit_char ds = []).
  { destruct (Z.eq_dec d 0) as [E | E].
    - right. rewrite (Hz E). reflexivity.
    - left. apply Z.eqb_neq. lia. }
  assert (Hrun : digits_prefix 10 None (digit_char d :: map digit_char ds)
                 = Some (digits_value_from d ds)).
  { cbn [digits_prefix]. rewrite (digit_of_digit_char d Hd).
    rewrite (digits_prefix_digits ds Hds).
    replace (10 * 0 + d) with d by lia. reflexivity. }
  destruct (parseInt_plain _ _ Hb H45 H43 Hx) as [P1 P2].
  cbn [map]. destruct neg; cbn [app].
  - rewrite P2, Hrun. reflexivity.
  - rewrite P1, Hrun. reflexivity.
Qed.

(** [parseInt] reads back the integer that [Number::toString] printed:
    the index written into an option of a select comes back from its
    value. *)
Lemma parseInt_decimal (n : Z) : parseInt (Number_toString n) = Some n.
Proof.
  unfold Number_toString. destruct (n <? 0) eqn:E.
  - apply Z.ltb_lt in E.
    destruct (decimal_spec (- n) ltac:(lia)) as (ds & -> & Hds & Hv & _ & Hp).
    destruct Hp as (d & ds' & -> & Hd); [lia|].
    change (txt "-") with [x2d].
    rewrite (parseInt_digits true d ds');
      [| lia | lia | exact (Forall_inv_tail Hds)].
    unfold digits_value_from in *. cbn [fold_left] in Hv.
    replace (10 * 0 + d) with d in Hv by lia. rewrite Hv. f_equal. lia.
  - apply Z.ltb_ge in E.
    destruct (decimal_spec n E) as (ds & -> & Hds & Hv & Hz & Hp).
    destruct (Z.eq_dec n 0) as [-> | Hnz].
    + rewrite (Hz eq_refl). reflexivity.
    + destruct Hp as (d & ds' & -> & Hd); [lia|].
      change (map digit_char (d :: ds')) with ([] ++ map digit_char (d :: ds')).
      rewrite (parseInt_digits false d ds');
        [| lia | lia | exact (Forall_inv_tail Hds)].
      unfold digits_value_from in *. cbn [fold_left] in Hv.
      replace (10 * 0 + d) with d in Hv by lia. rewrite Hv. reflexivity.
Qed.

Lemma decode_build_lengths (Image : Type) (loadImage : bytes -> option Image)
  (decodeAudioData : bytes -> option Wav.AudioBuffer)
  (frameRate : Z) (frameData audioData : list bytes) (trs : list Trigger)
  (d : AGIFDecoder.decoded Image) :
  byteLength (build_container frameRate frameData audioData trs) < 4294967296 ->
  AGIFDecoder.decode JSON_parse Image loadImage decodeAudioData
    (build_container frameRate frameData audioData trs) = Ok d ->
  length (AGIFDecoder.frames d) = length frameData /\
  length (AGIFDecoder.audioBuffers d) = length audioData.
Proof.
  intros Hsize H. rewrite (decode_build _ _ _ _ _ _ _ Hsize) in H.
  destruct (all ImageLoadError loadImage _) as [fr|] eqn:Ef; [|discriminate].
  cbn [bind] in H.
  destruct (all AudioDecodeError decodeAudioData _) as [au|] eqn:Ea;
    [|discriminate].
  cbn [bind] in H. injection H as <-.
  apply all_length in Ef, Ea. rewrite length_map in Ef.
  cbn [AGIFDecoder.frames AGIFDecoder.audioBuffers]. auto.
Qed.

Lemma playable_assets (Image : Type) (d : AGIFDecoder.decoded Image)
  (q : AGIFPlayer.decoded Image) :
  AGIFPlayer.playable Image d = Some q ->
  AGIFPlayer.frames q = AGIFDecoder.frames d /\
  AGIFPlayer.audioBuffers q = AGIFDecoder.audioBuffers d.
Proof.
  unfold AGIFPlayer.playable. intros H.
  repeat match type of H with
         | match ?x with _ => _ end = Some _ => destruct x; try discriminate H
         end.
  injection H as <-. split; reflexivity.
Qed.

(** [Promise.all] is rejected exactly when one of the conversions is. *)
Lemma all_rejects (A B : Type) (e : error) (f : A -> option B) (l : list A) :
  (Exists (fun a => f a = None) l -> all e f l = Err e) /\
  (Forall (fun a => f a <> None) l -> exists l', all e f l = Ok l').
Proof.
  induction l as [|a l [IH1 IH2]]; split; intros H.
  - inversion H.
  - exists []. reflexivity.
  - cbn [all]. destruct (f a) as [b|] eqn:Ea; cbn [of_option bind]; [|reflexivity].
    inversion H as [? ? Hn | ? ? Hn]; subst; [congruence|].
    rewrite (IH1 Hn). reflexivity.
  - cbn [all]. destruct (f a) as [b|] eqn:Ea; cbn [of_option bind].
    + destruct (IH2 (Forall_inv_tail H)) as [l' ->]. exists (b :: l'). reflexivity.
    + exfalso. apply (Forall_inv H), Ea.
Qed.

Section Page.

Variable File : Type.
Variable name : File -> bytes.
Variable shown : list File -> nat -> bytes.
Variable canvasToBase64 : File -> option bytes.
Variable decodeAudioFile : File -> option Wav.AudioBuffer.

Lemma length_replace_nth (index : nat) (v : bytes) (l : list bytes) :
  length (replace_nth index v l) = length l.
Proof.
  revert index. induction l as [|x l IH]; intros [|i]; cbn [replace_nth length];
    auto.
Qed.

Lemma Forall_replace_nth (P : bytes -> Prop) (index : nat) (v : bytes)
  (l : list bytes) :
  P v -> Forall P l -> Forall P (replace_nth index v l).
Proof.
  intros Hv. revert index. induction l as [|x l IH]; intros [|i] H;
    cbn [replace_nth]; auto.
  - constructor; [exact Hv | exact (Forall_inv_tail H)].
  - constructor; [exact (Forall_inv H) | apply IH, (Forall_inv_tail H)].
Qed.

(** The selects that [updateFrameList] builds from plain names. *)
Lemma updateFrameList_plain (p : page File) :
  has_markup File name p = false ->
  selects (updateFrameList File name shown p)
  = map (fun _ => []) (seq 0 (length (images (globals p)))).
Proof.
  intros Hm. unfold updateFrameList. cbn [selects]. rewrite Hm. reflexivity.
Qed.

Lemma updateFrameList_ok (p : page File) :
  has_markup File name p = false ->
  page_ok File (updateFrameList File name shown p).
Proof.
  intros Hm. unfold page_ok. rewrite (updateFrameList_plain p Hm). split.
  - rewrite length_map, length_seq. reflexivity.
  - apply Forall_forall. intros v Hv. apply in_map_iff in Hv as (_ & <- & _).
    left. reflexivity.
Qed.

(** While the names are plain, the selects match the images and each shows
    one of the options of the template. *)
Lemma handle_ok (e : event File) (p : page File) :
  (has_markup File name p = false -> page_ok File p) ->
  has_markup File name
    (handle File name shown canvasToBase64 decodeAudioFile e p) = false ->
  page_ok File (handle File name shown canvasToBase64 decodeAudioFile e p).
Proof.
  intros Hp. destruct e as [files|files|index value|]; cbn [handle].
  - intros Hm. apply updateFrameList_ok. exact Hm.
  - intros Hm. apply updateFrameList_ok. exact Hm.
  - unfold choose.
    destruct (existsb (bytes_eqb value) (option_values File p)
              || has_markup File name p) eqn:E; [|exact Hp].
    intros Hm. change (has_markup File name p = false) in Hm.
    rewrite Hm, orb_false_r in E. destruct (Hp Hm) as [Hl Hv].
    apply existsb_exists in E as (v & Hin & Ev). apply bytes_eqb_eq in Ev.
    subst v. split; cbn [selects globals].
    + rewrite length_replace_nth. exact Hl.
    + apply Forall_replace_nth; assumption.
  - unfold process. destruct (images (globals p)) eqn:Ei; [exact Hp|].
    destruct (collect_from File 0 _ (selects p));
      cbn [fst]; [|exact Hp|exact Hp].
    intros Hm. change (has_markup File name p = false) in Hm.
    destruct (Hp Hm) as [Hl Hv].
    split; cbn [selects globals images]; [congruence | exact Hv].
Qed.

Lemma session_ok (l : list (event File)) :
  has_markup File name
    (session_of File name shown canvasToBase64 decodeAudioFile l) = false ->
  page_ok File (session_of File name shown canvasToBase64 decodeAudioFile l).
Proof.
  unfold session_of.
  assert (H : has_markup File name (initial File) = false ->
              page_ok File (initial File))
    by (intros _; split; [reflexivity | constructor]).
  revert H. generalize (initial File).
  induction l as [|e l IH]; intros p Hp; [exact Hp|].
  cbn [fold_left]. apply IH. apply handle_ok. exact Hp.
Qed.

(** An event of a plain session leaves the names of the page plain. *)
Lemma handle_plain (e : event File) (p : page File) :
  plain_upload File name e = true ->
  has_markup File name p = false ->
  has_markup File name
    (handle File name shown canvasToBase64 decodeAudioFile e p) = false.
Proof.
  intros He Hp. destruct e as [files|files|index value|]; cbn [handle].
  - exact Hp.
  - unfold has_markup. cbn [upload_audio updateFrameList globals audioFiles].
    cbn [plain_upload] in He. rewrite He. reflexivity.
  - unfold choose.
    destruct (existsb (bytes_eqb value) (option_values File p)
              || has_markup File name p); exact Hp.
  - unfold process. destruct (images (globals p)); [exact Hp|].
    destruct (collect_from File 0 _ (selects p)); exact Hp.
Qed.

Lemma session_plain (l : list (event File)) :
  plain_session File name l = true ->
  has_markup File name
    (session_of File name shown canvasToBase64 decodeAudioFile l) = false.
Proof.
  unfold session_of.
  assert (H : has_markup File name (initial File) = false) by reflexivity.
  revert H. generalize (initial File).
  induction l as [|e l IH]; intros p Hp Hl; [exact Hp|].
  cbn [plain_session forallb] in Hl. apply andb_true_iff in Hl as [He Hl].
  cbn [fold_left]. apply IH; [|exact Hl]. apply handle_plain; assumption.
Qed.

(** What the collection of lines 275-281 finds when every select is there
    and shows one of the options of the template. *)
Lemma collect_ok (nAudio : nat) (sel : list bytes) :
  Forall (fun v => In v ([] :: map (fun i => Number_toString (Z.of_nat i))
                                 (seq 0 nAudio))) sel ->
  forall (imgs : list File) (index : nat),
    (index + length imgs <= length sel)%nat ->
    exists ts,
      collect_from File index imgs sel = Collected ts /\
      Forall (fun t => Z.of_nat index <= frame t < Z.of_nat (index + length imgs)
                       /\ 0 <= audio t < Z.of_nat nAudio) ts /\
      StronglySorted (fun a b => frame a < frame b) ts.
Proof.
  intros Hsel. induction imgs as [|img imgs IH]; intros index Hlen.
  - exists []. cbn [collect_from]. repeat split; constructor.
  - cbn [length] in Hlen. cbn [collect_from].
    destruct (nth_error sel index) as [v|] eqn:Ev.
    2:{ apply nth_error_None in Ev. lia. }
    destruct (IH (S index) ltac:(lia)) as (ts & -> & Hts & Hs).
    assert (Hts' : Forall (fun t => Z.of_nat index <= frame t
                                    < Z.of_nat (index + length (img :: imgs))
                                    /\ 0 <= audio t < Z.of_nat nAudio) ts).
    { eapply Forall_impl; [|exact Hts]. cbn [length]. intros t Ht. lia. }
    apply nth_error_In in Ev.
    pose proof (proj1 (Forall_forall _ _) Hsel v Ev) as [<- | Hv].
    + exists ts. auto.
    + apply in_map_iff in Hv as (i & <- & Hi). apply in_seq in Hi.
      assert (Hp : parseInt (Number_toString (Z.of_nat i)) = Some (Z.of_nat i))
        by apply parseInt_decimal.
      destruct (Number_toString (Z.of_nat i)) as [|c r]; [exists ts; auto|].
      rewrite Hp.
      exists ({| frame := Z.of_nat index; audio := Z.of_nat i |} :: ts).
      split; [reflexivity|]. split.
      * constructor; [cbn [frame audio length]; lia | exact Hts'].
      * constructor; [exact Hs|].
        eapply Forall_impl; [|exact Hts]. cbn [frame]. intros t Ht. lia.
Qed.

Lemma collect_blank (sel : list bytes) :
  Forall (fun v => v = []) sel ->
  forall (imgs : list File) (index : nat),
    (index + length imgs <= length sel)%nat ->
    collect_from File index imgs sel = Collected [].
Proof.
  intros Hsel. induction imgs as [|img imgs IH]; intros index Hlen;
    [reflexivity|].
  cbn [length] in Hlen. cbn [collect_from].
  destruct (nth_error sel index) as [v|] eqn:Ev.
  2:{ apply nth_error_None in Ev. lia. }
  apply nth_error_In in Ev.
  rewrite (proj1 (Forall_forall _ _) Hsel v Ev).
  apply IH. lia.
Qed.

(** The session handed to [createAudiGIF] by a click that collected [ts]. *)
Lemma process_spec (p : page File) :
  page_ok File p -> images (globals p) <> [] ->
  exists ts,
    process File canvasToBase64 decodeAudioFile p
    = (let g := {| images := images (globals p);
                   audioFiles := audioFiles (globals p);
                   triggers := ts;
                   title := title (globals p);
                   frameRate := frameRate (globals p) |} in
       ({| globals := g; selects := selects p |},
        match createAudiGIF File canvasToBase64 decodeAudioFile g with
        | Ok agif => Created agif
        | Err Unsettled => Waiting
        | Err e => ErrorAlert e
        end)) /\
    Forall (fun t => 0 <= frame t < Z.of_nat (length (images (globals p))) /\
                     0 <= audio t < Z.of_nat (length (audioFiles (globals p))))
      ts /\
    StronglySorted (fun a b => frame a < frame b) ts.
Proof.
  intros [Hl Hv] Hi.
  destruct (collect_ok (length (audioFiles (globals p))) (selects p) Hv
              (images (globals p)) 0 ltac:(lia)) as (ts & Ec & Hts & Hs).
  exists ts. split; [|split; [exact Hts | exact Hs]].
  unfold process. rewrite Ec.
  destruct (images (globals p)); [contradiction | reflexivity].
Qed.

(** X15: whatever the user did on the page before (uploads, choices in the
    selects, earlier clicks), when no audio file uploaded so far had a [<]
    in its name, a click on the process button with no image only shows the
    alert; with images it raises nothing outside its [try] block and hands
    [createAudiGIF] a trigger list in which every frame index is that of an
    image, every audio index that of an audio file, and the frames strictly
    increase, so that no frame has two triggers. *)
Theorem process_collects_valid_triggers (l : list (event File)) :
  let p := session_of File name shown canvasToBase64 decodeAudioFile l in
  plain_session File name l = true ->
  (images (globals p) = [] ->
   process File canvasToBase64 decodeAudioFile p = (p, NoImageAlert)) /\
  (images (globals p) <> [] ->
   exists ts,
     process File canvasToBase64 decodeAudioFile p
     = (let g := {| images := images (globals p);
                    audioFiles := audioFiles (globals p);
                    triggers := ts;
                    title := title (globals p);
                    frameRate := frameRate (globals p) |} in
        ({| globals := g; selects := selects p |},
         match createAudiGIF File canvasToBase64 decodeAudioFile g with
         | Ok agif => Created agif
         | Err Unsettled => Waiting
         | Err e => ErrorAlert e
         end)) /\
     Forall (fun t => 0 <= frame t < Z.of_nat (length (images (globals p))) /\
                      0 <= audio t < Z.of_nat (length (audioFiles (globals p))))
       ts /\
     StronglySorted (fun a b => frame a < frame b) ts).
Proof.
  intros p Hm. split.
  - intros E. unfold process. rewrite E. reflexivity.
  - apply process_spec, session_ok, session_plain, Hm.
Qed.

(** What the player finds in a container that [createAudiGIF] made of a
    session with at least one image. *)
Lemma created_container_consistent (g : session File) (agif : bytes)
  (Image : Type) (loadImage : bytes -> option Image)
  (decodeAudioData : bytes -> option Wav.AudioBuffer)
  (d : AGIFDecoder.decoded Image) :
  images g <> [] ->
  createAudiGIF File canvasToBase64 decodeAudioFile g = Ok agif ->
  byteLength agif < 4294967296 ->
  AGIFDecoder.decode JSON_parse Image loadImage decodeAudioData agif = Ok d ->
  exists q,
    AGIFPlayer.playable Image d = Some q /\
    AGIFPlayer.consistent q /\
    AGIFPlayer.frames q <> [] /\
    AGIFPlayer.triggers q = triggers g /\
    length (AGIFPlayer.frames q) = length (images g) /\
    length (AGIFPlayer.audioBuffers q) = length (audioFiles g).
Proof.
  intros Hi Eg Hsize Hd.
  apply createAudiGIF_inv in Eg as (frameData & buffers & Ef0 & Eb & ->).
  apply all_length in Ef0, Eb.
  destruct (decode_build_playable _ _ _ _ _ _ _ d Hsize Hd)
    as (q & Hq & Hcons & Htr & _).
  destruct (decode_build_lengths _ _ _ _ _ _ _ d Hsize Hd) as [Lf La].
  destruct (playable_assets _ d q Hq) as [Ef Ea].
  rewrite length_map in La.
  assert (Lq : length (AGIFPlayer.frames q) = length (images g))
    by (rewrite Ef, Lf; exact Ef0).
  exists q. split; [exact Hq|]. split; [exact Hcons|]. split; [|split; [|split]].
  - intros E. rewrite E in Lq. cbn [length] in Lq.
    destruct (images g); [contradiction | discriminate].
  - exact Htr.
  - exact Lq.
  - rewrite Ea, La. exact Eb.
Qed.


(** X17: uploading audio files whose names hold no [<], or images while
    the audio files of the page have such names, rebuilds the selects with
    their first option shown, so every choice made before is lost: the
    click on the process button that follows collects no trigger. *)
Theorem upload_discards_selections (p : page File) (files : list File) :
  (Forall (fun audio => plain_name (name audio) = true) files ->
   images (globals p) <> [] ->
   triggers (globals (fst (process File canvasToBase64 decodeAudioFile
                             (upload_audio File name shown files p)))) = []) /\
  (has_markup File name p = false ->
   files <> [] ->
   triggers (globals (fst (process File canvasToBase64 decodeAudioFile
                             (upload_images File name shown files p)))) = []).
Proof.
  assert (H : forall q : page File,
             has_markup File name q = false ->
             images (globals q) <> [] ->
             triggers (globals (fst (process File canvasToBase64 decodeAudioFile
                                       (updateFrameList File name shown q)))) = []).
  { intros q Hm Hq. unfold process.
    rewrite (updateFrameList_plain q Hm).
    cbn [updateFrameList globals].
    rewrite collect_blank.
    - destruct (images (globals q)); [contradiction | reflexivity].
    - apply Forall_forall. intros v Hv.
      apply in_map_iff in Hv as (_ & <- & _). reflexivity.
    - rewrite length_map, length_seq. lia. }
  split.
  - intros Hplain Hne. apply H; [|exact Hne].
    unfold has_markup. cbn [globals audioFiles].
    apply negb_false_iff, forallb_forall. intros audio Hin.
    exact (proj1 (Forall_forall _ _) Hplain audio Hin).
  - intros Hm Hne. apply H; [exact Hm | exact Hne].
Qed.

Lemma all_error (A B : Type) (e e' : error) (f : A -> option B) (l : list A) :
  all e f l = Err e' -> e' = e.
Proof.
  revert e'. induction l as [|a l IH]; intros e' H; [discriminate|].
  cbn [all] in H. destruct (f a); cbn [of_option bind] in H.
  - destruct (all e f l) eqn:E'; cbn [bind] in H; [discriminate|].
    injection H as <-. apply (IH _ eq_refl).
  - congruence.
Qed.

Lemma wavs_total (buffers : list Wav.AudioBuffer) :
  exists ws,
    (fix wavs (l : list Wav.AudioBuffer) : result (list bytes) :=
       match l with
       | [] => Ok []
       | b :: l' =>
           w <- Wav.audioBufferToWav b ;;
           ws <- wavs l' ;;
           Ok (w :: ws)
       end) buffers = Ok ws.
Proof.
  induction buffers as [|b bs [ws IH]]; [exists []; reflexivity|].
  rewrite WavFacts.audioBufferToWav_total. cbn [bind]. rewrite IH.
  cbn [bind]. eexists. reflexivity.
Qed.

(** X18: [createAudiGIF] never settles when one of the images never loads,
    whatever the audio files; when every image loads, it is rejected
    exactly when the host cannot decode one of the audio files, with the
    error of the decoding, and resolves otherwise; triggers, the title and
    the frame rate never make it fail, nor does the WAV transcoding. *)
Theorem createAudiGIF_outcomes (g : session File) :
  (Exists (fun image => canvasToBase64 image = None) (images g) ->
   createAudiGIF File canvasToBase64 decodeAudioFile g = Err Unsettled) /\
  (Forall (fun image => canvasToBase64 image <> None) (images g) ->
   Exists (fun audio => decodeAudioFile audio = None) (audioFiles g) ->
   createAudiGIF File canvasToBase64 decodeAudioFile g = Err AudioDecodeError) /\
  (Forall (fun image => canvasToBase64 image <> None) (images g) ->
   Forall (fun audio => decodeAudioFile audio <> None) (audioFiles g) ->
   exists agif,
     createAudiGIF File canvasToBase64 decodeAudioFile g = Ok agif) /\
  (forall e,
      createAudiGIF File canvasToBase64 decodeAudioFile g = Err e ->
      e = Unsettled \/ e = AudioDecodeError).
Proof.
  destruct (all_rejects _ _ Unsettled canvasToBase64 (images g)) as [I1 I2].
  destruct (all_rejects _ _ AudioDecodeError decodeAudioFile (audioFiles g))
    as [R1 R2].
  split; [|split; [|split]].
  - intros H. unfold createAudiGIF. rewrite (I1 H). reflexivity.
  - intros Hi H. unfold createAudiGIF. destruct (I2 Hi) as [frameData ->].
    cbn [bind]. rewrite (R1 H). reflexivity.
  - intros Hi H. unfold createAudiGIF. destruct (I2 Hi) as [frameData ->].
    cbn [bind]. destruct (R2 H) as [buffers ->]. cbn [bind].
    destruct (wavs_total buffers) as [ws ->]. cbn [bind].
    eexists. reflexivity.
  - intros e. unfold createAudiGIF.
    destruct (all Unsettled canvasToBase64 (images g)) as [frameData|e1] eqn:Ei;
      cbn [bind].
    + destruct (all AudioDecodeError decodeAudioFile (audioFiles g))
        as [buffers|e2] eqn:Ea; cbn [bind].
      * destruct (wavs_total buffers) as [ws ->]. cbn [bind]. discriminate.
      * intros H. injection H as <-. right. exact (all_error _ _ _ _ _ _ Ea).
    + intros H. injection H as <-. left. exact (all_error _ _ _ _ _ _ Ei).
Qed.

(** X19: a click on the preview button that gets as far as the player
    (creation, decoding and loading went through, on a container shorter
    than 4 GiB), whatever the user did on the page before, starts a player
    on a consistent container: frame 0 is drawn with the clips of its
    triggers, one timeout is set, and nothing that happens to this player
    afterwards (play, pause, callbacks) makes it raise. *)
Theorem preview_starts_playback (Image : Type)
  (loadImage : bytes -> option Image)
  (decodeAudioData : bytes -> option Wav.AudioBuffer)
  (l : list (event File)) (h : AGIFPlayer.host)
  (w : AGIFPlayer.world Image) (events : list AGIFPlayer.event) :
  let p := session_of File name shown canvasToBase64 decodeAudioFile l in
  (forall agif,
      snd (process File canvasToBase64 decodeAudioFile p) = Created agif ->
      byteLength agif < 4294967296) ->
  snd (preview File canvasToBase64 decodeAudioFile Image loadImage
         decodeAudioData h p) = PreviewStarted Image w events ->
  exists d,
    AGIFPlayer.this_decoded (AGIFPlayer.this w) = Some d /\
    AGIFPlayer.consistent d /\
    AGIFPlayer.isPlaying (AGIFPlayer.this w) = true /\
    events = AGIFPlayer.Draw 0
             :: AGIFPlayer.fire (AGIFPlayer.audioBuffers d) 0 (AGIFPlayer.triggers d) /\
    AGIFPlayer.timeouts (AGIFPlayer.env w)
    = AGIFPlayer.timeouts h ++ [AGIFPlayer.nextTimeout h] /\
    (forall acts, ~ In AGIFPlayer.Thrown (snd (AGIFPlayer.run Image acts w))).
Proof.
  intros p Hsize H.
  assert (Hi : images (globals p) <> []).
  { intros E. unfold preview in H. rewrite E in H. discriminate. }
  unfold preview in H.
  destruct (collect_from File 0 (images (globals p)) (selects p))
    as [ts| |] eqn:Ec;
    [|destruct (images (globals p)); [contradiction | discriminate]
     |destruct (images (globals p)); [contradiction | discriminate]].
  destruct (images (globals p)) as [|img imgs] eqn:Ei; [contradiction|].
  cbv zeta in H. cbn [snd] in H.
  destruct (createAudiGIF File canvasToBase64 decodeAudioFile _)
    as [agif|e] eqn:Eg; [|destruct e; discriminate].
  assert (Hc : snd (process File canvasToBase64 decodeAudioFile p) = Created agif).
  { unfold process. rewrite Ei, Ec. cbv zeta. cbn [snd].
    rewrite Eg. reflexivity. }
  destruct (AGIFDecoder.decode JSON_parse Image loadImage decodeAudioData agif)
    as [d0|e] eqn:Ed; [|discriminate].
  pose proof (fun Hne => created_container_consistent _ agif Image loadImage
                           decodeAudioData d0 Hne Eg (Hsize agif Hc) Ed) as Hk.
  cbn [images] in Hk.
  destruct (Hk ltac:(discriminate)) as (q & Hq & Hcons & Hne & _).
  rewrite Hq in H.
  assert (Hf0 : AGIFPlayer.has_frame (AGIFPlayer.frames q) 0 = true).
  { unfold AGIFPlayer.has_frame. destruct (AGIFPlayer.frames q); [contradiction|].
    cbn [length]. apply andb_true_iff. split; [reflexivity|].
    apply Z.ltb_lt. lia. }
  unfold AGIFPlayer.loadAndPlay in H.
  cbn [AGIFPlayer.this AGIFPlayer.env AGIFPlayer.new_player AGIFPlayer.isPlaying
       AGIFPlayer.currentFrame AGIFPlayer.animationId] in H.
  match type of H with
  | context [AGIFPlayer.play Image ?w0] =>
      rewrite (SchedulerRuns.play_starts Image q w0 eq_refl eq_refl Hf0) in H
  end.
  injection H as <- <-.
  exists q. cbn [AGIFPlayer.this AGIFPlayer.env AGIFPlayer.this_decoded
    AGIFPlayer.isPlaying AGIFPlayer.setTimeout snd AGIFPlayer.timeouts
    AGIFPlayer.currentFrame].
  split; [reflexivity|]. split; [exact Hcons|]. split; [reflexivity|].
  split; [reflexivity|]. split; [reflexivity|].
  intros acts.
  match goal with
  | |- ~ In _ (snd (AGIFPlayer.run Image acts ?w1)) =>
      apply (SchedulerRuns.run_safe Image q acts w1 Hcons eq_refl)
  end.
  cbn [AGIFPlayer.this AGIFPlayer.currentFrame].
  assert (HN : AGIFPlayer.numFrames (AGIFPlayer.header q)
               = Z.of_nat (length (AGIFPlayer.frames q))) by exact Hcons.
  assert (Hpos : (0 < length (AGIFPlayer.frames q))%nat)
    by (destruct (AGIFPlayer.frames q); [contradiction | cbn [length]; lia]).
  rewrite Z.rem_mod_nonneg by lia.
  apply SchedulerRuns.mod_in_range; assumption.
Qed.

End Page.

Lemma preview_starts_playback_witness :
  exists w events,
    snd (preview nat example_canvas example_audio bytes
           (fun data => Some data) (fun _ => Some silent_clip)
           (AGIFPlayer.env example_world)
           (session_of nat example_name example_shown example_canvas
              example_audio example_visit))
    = PreviewStarted bytes w events /\
    events = [AGIFPlayer.Draw 0] /\
    AGIFPlayer.timeouts (AGIFPlayer.env w) = [5%nat] /\
    ~ In AGIFPlayer.Thrown
        (snd (AGIFPlayer.run bytes
                [AGIFPlayer.TimeoutFires 5; AGIFPlayer.FrameFires 9] w)).
Proof.
  let r := eval vm_compute in
             (snd (preview nat example_canvas example_audio bytes
                     (fun data => Some data) (fun _ => Some silent_clip)
                     (AGIFPlayer.env example_world)
                     (session_of nat example_name example_shown example_canvas
                        example_audio example_visit)))
  in
  match r with
  | PreviewStarted _ ?w ?ev =>
      assert (H : snd (preview nat example_canvas example_audio bytes
                         (fun data => Some data) (fun _ => Some silent_clip)
                         (AGIFPlayer.env example_world)
                         (session_of nat example_name example_shown
                            example_canvas example_audio example_visit))
                  = PreviewStarted bytes w ev)
        by (vm_compute; reflexivity);
      exists w, ev
  end.
  destruct (preview_starts_playback nat example_name example_shown
              example_canvas example_audio bytes
              (fun data => Some data) (fun _ => Some silent_clip) example_visit
              (AGIFPlayer.env example_world) _ _
              ltac:(intros agif E; vm_compute in E; injection E as <-;
                    vm_compute; reflexivity)
              H) as (d & _ & _ & _ & _ & Ht & Hsafe).
  split; [exact H|]. split; [reflexivity|]. split; [exact Ht|]. apply Hsafe.
Defined.

Lemma process_collects_valid_triggers_witness :
  let p := session_of nat example_name example_shown example_canvas
             example_audio example_visit in
  exists ts,
    process nat example_canvas example_audio p
    = (let g := {| images := images (globals p);
                   audioFiles := audioFiles (globals p);
                   triggers := ts;
                   title := title (globals p);
                   frameRate := frameRate (globals p) |} in
       ({| globals := g; selects := selects p |},
        match createAudiGIF nat example_canvas example_audio g with
        | Ok agif => Created agif
        | Err Unsettled => Waiting
        | Err e => ErrorAlert e
        end)) /\
    Forall (fun t => 0 <= frame t < 2 /\ 0 <= audio t < 1) ts /\
    StronglySorted (fun a b => frame a < frame b) ts.
Proof.
  exact (proj2 (process_collects_valid_triggers nat example_name example_shown
                  example_canvas example_audio example_visit eq_refl)
           ltac:(vm_compute; discriminate)).
Defined.


Lemma upload_discards_selections_witness :
  triggers (globals (fst (process nat example_canvas example_audio
                            (upload_audio nat example_name example_shown [8%nat]
                               (session_of nat example_name example_shown
                                  example_canvas example_audio
                                  example_visit))))) = [].
Proof.
  apply (proj1 (upload_discards_selections nat example_name example_shown
                  example_canvas example_audio
                  (session_of nat example_name example_shown example_canvas
                     example_audio example_visit)
                  [8%nat])).
  - repeat constructor.
  - vm_compute. discriminate.
Defined.

Lemma createAudiGIF_outcomes_witness :
  createAudiGIF nat (fun _ => None) (fun _ => None) example_session
  = Err Unsettled /\
  createAudiGIF nat example_canvas (fun _ => None) example_session
  = Err AudioDecodeError.
Proof.
  split.
  - apply (proj1 (createAudiGIF_outcomes nat (fun _ => None) (fun _ => None)
                    example_session)).
    left. reflexivity.
  - apply (proj1 (proj2 (createAudiGIF_outcomes nat example_canvas
                           (fun _ => None) example_session))).
    + repeat constructor; discriminate.
    + left. reflexivity.
Defined.

End PageFacts.

(** ** From the decoder to the player *)

Module DecodedPlayback.

Section Playback.

Variable parseJSON : bytes -> option json.
Variable Image : Type.
Variable loadImage : bytes -> option Image.
Variable decodeAudioData : bytes -> option Wav.AudioBuffer.

(** The frames and the frame count of a decoded container that the player
    model reads. *)
Lemma playable_numFrames (d : AGIFDecoder.decoded Image)
  (q : AGIFPlayer.decoded Image) :
  AGIFPlayer.playable Image d = Some q ->
  AGIFPlayer.frames q = AGIFDecoder.frames d /\
  prop (AGIFDecoder.header d) "numFrames"
  = Some (JNum (AGIFPlayer.numFrames (AGIFPlayer.header q))).
Proof.
  unfold AGIFPlayer.playable. intros H.
  destruct (prop (AGIFDecoder.header d) "numFrames") as [n|] eqn:En.
  2:{ repeat match type of H with
             | match ?x with _ => _ end = Some _ =>
                 destruct x; try discriminate H
             end. }
  repeat match type of H with
         | match ?x with _ => _ end = Some _ => destruct x; try discriminate H
         end.
  injection H as <-. split; reflexivity.
Qed.

(** X20: the player never raises on a container that [decode] returned
    and that the player model reads, whatever the buffer was: loaded into a
    new player, it either has no frame and nothing is ever drawn, or its
    frame count is its number of frames and every run of play, pause and
    callbacks draws existing frames only. *)
Theorem decoded_container_never_raises (buf : bytes)
  (d : AGIFDecoder.decoded Image) (q : AGIFPlayer.decoded Image)
  (h : AGIFPlayer.host) (acts : list AGIFPlayer.action) :
  AGIFDecoder.decode parseJSON Image loadImage decodeAudioData buf = Ok d ->
  AGIFPlayer.playable Image d = Some q ->
  let r := AGIFPlayer.loadAndPlay Image q
             {| AGIFPlayer.this := AGIFPlayer.new_player Image;
                AGIFPlayer.env := h |} in
  (AGIFPlayer.frames q = [] \/ AGIFPlayer.consistent q) /\
  ~ In AGIFPlayer.Thrown (snd r) /\
  ~ In AGIFPlayer.Thrown (snd (AGIFPlayer.run Image acts (fst r))).
Proof.
  intros Hd Hq.
  destruct (playable_numFrames d q Hq) as [Ef En].
  assert (Hlen : length (AGIFPlayer.frames q)
                 = Z.to_nat (AGIFPlayer.numFrames (AGIFPlayer.header q))).
  { rewrite Ef. unfold AGIFDecoder.decode in Hd.
    destruct (AGIFDecoder.decode_sections parseJSON buf) as [s|] eqn:Es;
      cbn [bind] in Hd; [|discriminate].
    destruct (all ImageLoadError loadImage (AGIFDecoder.s_frameData s))
      as [fr|] eqn:Efr; cbn [bind] in Hd; [|discriminate].
    destruct (all AudioDecodeError decodeAudioData (AGIFDecoder.s_audioData s))
      as [au|] eqn:Eau; cbn [bind] in Hd; [|discriminate].
    destruct (is_null (AGIFDecoder.s_triggers s)); [discriminate|].
    injection Hd as <-. cbn [AGIFDecoder.frames AGIFDecoder.header] in *.
    apply decode_sections_inv in Es.
    destruct (ContainerLayout.read_container_layout parseJSON buf s _ Es)
      as (hb & fd & ad & tb & _ & _ & _ & _ & _ & Nf & _ & Efd & _).
    apply all_length in Efr. rewrite Efr, Efd, length_map, Nf, En.
    reflexivity. }
  cbv zeta. unfold AGIFPlayer.loadAndPlay.
  cbn [AGIFPlayer.this AGIFPlayer.env AGIFPlayer.new_player AGIFPlayer.isPlaying
       AGIFPlayer.currentFrame AGIFPlayer.animationId].
  destruct (AGIFPlayer.frames q) as [|x fr] eqn:Eq.
  - split; [left; reflexivity|].
    unfold AGIFPlayer.play. cbn [AGIFPlayer.this AGIFPlayer.isPlaying
      AGIFPlayer.this_decoded].
    match goal with
    | |- context [AGIFPlayer.animate Image ?w0] =>
        rewrite (SchedulerRuns.animate_no_frames Image q w0 eq_refl Eq)
    end.
    cbn [fst snd]. split; [intros []|].
    match goal with
    | |- ~ In _ (snd (AGIFPlayer.run Image acts ?w0)) =>
        rewrite (SchedulerRuns.run_no_frames Image q acts Eq w0 eq_refl)
    end.
    intros [].
  - assert (Hc : AGIFPlayer.consistent q).
    { unfold AGIFPlayer.consistent. rewrite Eq. cbn [length] in *. lia. }
    assert (Hf0 : AGIFPlayer.has_frame (AGIFPlayer.frames q) 0 = true).
    { rewrite Eq. unfold AGIFPlayer.has_frame. cbn [length].
      apply andb_true_iff. split; [reflexivity | apply Z.ltb_lt; lia]. }
    split; [right; exact Hc|].
    match goal with
    | |- context [AGIFPlayer.play Image ?w0] =>
        rewrite (SchedulerRuns.play_starts Image q w0 eq_refl eq_refl Hf0)
    end.
    cbn [fst snd AGIFPlayer.this AGIFPlayer.currentFrame]. split.
    + intros [E | Hin]; [discriminate|].
      apply SchedulerClaims.In_fire in Hin as (t & E & _). discriminate.
    + match goal with
      | |- ~ In _ (snd (AGIFPlayer.run Image acts ?w1)) =>
          apply (SchedulerRuns.run_safe Image q acts w1 Hc eq_refl)
      end.
      cbn [AGIFPlayer.this AGIFPlayer.currentFrame].
      assert (HN : AGIFPlayer.numFrames (AGIFPlayer.header q)
                   = Z.of_nat (length (AGIFPlayer.frames q))) by exact Hc.
      rewrite Eq in HN. cbn [length] in HN.
      rewrite Z.rem_mod_nonneg by lia.
      apply SchedulerRuns.mod_in_range; [exact Hc | rewrite Eq; discriminate].
Qed.

End Playback.

Lemma decoded_container_never_raises_witness :
  exists d q,
    AGIFDecoder.decode JSON_parse bytes (fun data => Some data)
      (fun _ => Some silent_clip) example_buffer = Ok d /\
    AGIFPlayer.playable bytes d = Some q /\
    ~ In AGIFPlayer.Thrown
        (snd (AGIFPlayer.run bytes
                [AGIFPlayer.TimeoutFires 5; AGIFPlayer.FrameFires 9;
                 AGIFPlayer.Pause; AGIFPlayer.Play]
                (fst (AGIFPlayer.loadAndPlay bytes q
                        {| AGIFPlayer.this := AGIFPlayer.new_player bytes;
                           AGIFPlayer.env := AGIFPlayer.env example_world |})))).
Proof.
  let r := eval vm_compute in
             (AGIFDecoder.decode JSON_parse bytes (fun data => Some data)
                (fun _ => Some silent_clip) example_buffer) in
  match r with
  | Ok ?d =>
      assert (Hd : AGIFDecoder.decode JSON_parse bytes (fun data => Some data)
                     (fun _ => Some silent_clip) example_buffer = Ok d)
        by (vm_compute; reflexivity);
      let r' := eval vm_compute in (AGIFPlayer.playable bytes d) in
      match r' with
      | Some ?q =>
          assert (Hq : AGIFPlayer.playable bytes d = Some q)
            by (vm_compute; reflexivity);
          exists d, q
      end
  end.
  split; [exact Hd|]. split; [exact Hq|].
  apply (decoded_container_never_raises JSON_parse bytes (fun data => Some data)
           (fun _ => Some silent_clip) example_buffer _ _
           (AGIFPlayer.env example_world) _ Hd Hq).
Defined.

End DecodedPlayback.
